(** * The synchronization engine of robust_backfill_v2.py

    A shallow embedding of [RobustBackfillerV2] (and of the sibling
    [RoutescanFetcher]: its [save_transactions],
    [_convert_to_standard_format] and [fetch_all_transactions], and the
    merge its callers do) together with the properties the design
    document states about it (Part II) and further properties of the
    code (Part III).

    Conventions of the embedding.
    - A transfer record is the JSON object the explorer returns: a finite
      map from field names to strings ([gmap string string]).
      [tx.get(k)] is the map lookup; Python truthiness of the looked-up
      value (absent and the empty string are falsy) is [truthy].
    - A Python [str] is the string of the bytes of its UTF-8 encoding;
      [int()] reads it as CPython 3.11 does, decimal digits and white
      space of every script included.
    - Block numbers are Python integers, hence [Z].
    - Python exceptions are an explicit result type ([Ok] / [Raise]).
    - Time is a logical clock in milliseconds; [time.time()] reads it and
      [time.sleep(d)] advances it by [d].
    - The provider, the disk and the clock live in a [World] that is
      threaded through every effectful function, next to the fields of
      [self]. *)

From Stdlib Require Import ZArith Lia String Ascii.
From stdpp Require Import gmap strings list fin_maps sets sorting.

Open Scope Z_scope.

(* ================================================================== *)
(** * Part I. The embedding                                            *)
(* ================================================================== *)

(** ** Python values and exceptions *)

Inductive exn : Type :=
| ValueError          (* int() of a malformed numeral, max() of nothing *)
| IndexError          (* blocks[0] of an empty list *)
| UnboundLocalError   (* a local read before it was assigned *)
| OSError.            (* a failing file-system call *)

Inductive res (A : Type) : Type :=
| Ok (a : A)
| Raise (e : exn).

Arguments Ok {A} a.
Arguments Raise {A} e.

(** [res] is a monad; stdpp's [x ← m; k] notation sequences it. *)
#[global] Instance res_ret : MRet res := fun A a => Ok a.
#[global] Instance res_bind : MBind res := fun A B k m =>
  match m with
  | Ok a => k a
  | Raise e => Raise e
  end.

(** A transfer record as the JSON object it is. *)
Abbreviation Tx := (gmap string string).

(** [tx.get(k)] followed by a truthiness test: [Some s] for a present,
    non-empty string, [None] for an absent key or the empty string. *)
Definition truthy (v : option string) : option string :=
  match v with
  | Some (String a s) => Some (String a s)
  | _ => None
  end.

Definition get_truthy (tx : Tx) (k : string) : option string :=
  truthy (tx !! k).

(** ** [int(s)] and [int(s, 16)] on strings (CPython 3.11)

    A string is the UTF-8 encoding of the Python [str].  [int] first
    maps every white-space character beyond ASCII to a blank and every
    decimal digit of any script to its ASCII digit
    ([_PyUnicode_TransformDecimalAndSpaceToASCII]); any other
    character beyond ASCII makes the numeral malformed.  Then
    surrounding ASCII white space is skipped, one sign is allowed, an
    optional [0x] prefix in base 16, then digits in which single
    underscores may separate digits.  In a base that is no power of
    two, more than 4300 digits are refused
    ([sys.int_max_str_digits]).  Whatever is refused raises
    [ValueError], here [None]. *)

Definition continuation (b : Z) : option Z :=
  if (128 <=? b) && (b <? 192) then Some (b - 128) else None.

(** The code points a sequence of bytes encodes; [None] when it is not
    the UTF-8 encoding of a string (a stray or missing continuation
    byte, an overlong form, a surrogate, a value past U+10FFFF). *)
Fixpoint code_points (l : list Z) : option (list Z) :=
  match l with
  | [] => Some []
  | b0 :: l1 =>
    if b0 <? 128 then cons b0 <$> code_points l1
    else if (194 <=? b0) && (b0 <? 224) then
      match l1 with
      | b1 :: l2 =>
        c1 ← continuation b1;
        cons ((b0 - 192) * 64 + c1) <$> code_points l2
      | _ => None
      end
    else if (224 <=? b0) && (b0 <? 240) then
      match l1 with
      | b1 :: b2 :: l3 =>
        c1 ← continuation b1;
        c2 ← continuation b2;
        let cp := (b0 - 224) * 4096 + c1 * 64 + c2 in
        if (2048 <=? cp) && negb ((55296 <=? cp) && (cp <=? 57343))
        then cons cp <$> code_points l3 else None
      | _ => None
      end
    else if (240 <=? b0) && (b0 <? 245) then
      match l1 with
      | b1 :: b2 :: b3 :: l4 =>
        c1 ← continuation b1;
        c2 ← continuation b2;
        c3 ← continuation b3;
        let cp := (b0 - 240) * 262144 + c1 * 4096 + c2 * 64 + c3 in
        if (65536 <=? cp) && (cp <=? 1114111)
        then cons cp <$> code_points l4 else None
      | _ => None
      end
    else None
  end.

(** [Py_UNICODE_ISSPACE] beyond ASCII. *)
Definition unicode_space (cp : Z) : bool :=
  existsb (Z.eqb cp) [133; 160; 5760; 8232; 8233; 8239; 8287; 12288]
  || ((8192 <=? cp) && (cp <=? 8202)).

(** The zero of every run of ten decimal digits (category Nd) of
    Unicode 14.0, the version of CPython 3.11. *)
Definition decimal_zeros : list Z :=
  [48; 1632; 1776; 1984; 2406; 2534; 2662; 2790; 2918; 3046; 3174;
   3302; 3430; 3558; 3664; 3792; 3872; 4160; 4240; 6112; 6160; 6470;
   6608; 6784; 6800; 6992; 7088; 7232; 7248; 42528; 43216; 43264;
   43472; 43504; 43600; 44016; 65296; 66720; 68912; 69734; 69872;
   69942; 70096; 70384; 70736; 70864; 71248; 71360; 71472; 71904;
   72016; 72784; 73040; 73120; 92768; 92864; 93008; 120782; 120792;
   120802; 120812; 120822; 123200; 123632; 125264; 130032].

(** [Py_UNICODE_TODECIMAL] *)
Definition unicode_decimal (cp : Z) : option Z :=
  (fun zero => cp - zero)
    <$> List.find (fun zero => (zero <=? cp) && (cp <? zero + 10))
                  decimal_zeros.

Definition ascii_of_Z (n : Z) : ascii := ascii_of_nat (Z.to_nat n).

(** The ASCII character [int] reads a character as. *)
Definition to_ascii (cp : Z) : option ascii :=
  if cp <? 127 then Some (ascii_of_Z cp)
  else if unicode_space cp then Some " "%char
  else (fun d => ascii_of_Z (48 + d)) <$> unicode_decimal cp.

Definition ascii_numeral (s : string) : option (list ascii) :=
  cps ← code_points ((fun a => Z.of_nat (nat_of_ascii a))
                       <$> list_ascii_of_string s);
  mapM to_ascii cps.

(** [Py_ISSPACE] *)
Definition is_py_space (a : ascii) : bool :=
  let n := Z.of_nat (nat_of_ascii a) in
  ((9 <=? n) && (n <=? 13)) || (n =? 32).

Definition digit_value (base : Z) (a : ascii) : option Z :=
  let n := Z.of_nat (nat_of_ascii a) in
  let d :=
    if (48 <=? n) && (n <=? 57) then Some (n - 48)
    else if (97 <=? n) && (n <=? 122) then Some (n - 87)
    else if (65 <=? n) && (n <=? 90) then Some (n - 55)
    else None in
  match d with
  | Some v => if v <? base then Some v else None
  | None => None
  end.

Inductive numeral_state : Type :=
| NoDigitYet       (* nothing read: a digit must come *)
| AfterPrefix      (* the base prefix was read: a digit or one underscore *)
| AfterDigit       (* a digit was read: digit, underscore or the end *)
| AfterUnderscore. (* an underscore was read: a digit must come *)

Fixpoint parse_digits (base : Z) (st : numeral_state) (acc : Z)
  (l : list ascii) : option Z :=
  match l with
  | [] => match st with AfterDigit => Some acc | _ => None end
  | c :: l' =>
    match digit_value base c with
    | Some d => parse_digits base AfterDigit (base * acc + d) l'
    | None =>
      if Ascii.eqb c "_"%char then
        match st with
        | AfterDigit | AfterPrefix => parse_digits base AfterUnderscore acc l'
        | _ => None
        end
      else None
    end
  end.

Fixpoint lstrip (l : list ascii) : list ascii :=
  match l with
  | c :: l' => if is_py_space c then lstrip l' else l
  | [] => []
  end.

Definition strip (l : list ascii) : list ascii :=
  rev (lstrip (rev (lstrip l))).

(** The number of digits, which the limit is about: neither the
    sign, nor the prefix, nor an underscore counts. *)
Definition digit_count (base : Z) (l : list ascii) : Z :=
  Z.of_nat (length (List.filter
    (fun c => match digit_value base c with Some _ => true | None => false end)
    l)).

Definition int_max_str_digits : Z := 4300.

Definition power_of_two (base : Z) : bool :=
  existsb (Z.eqb base) [2; 4; 8; 16; 32].

Definition within_limit (base : Z) (l : list ascii) : bool :=
  power_of_two base || (digit_count base l <=? int_max_str_digits).

Definition parse_unsigned (base : Z) (l : list ascii) : option Z :=
  match l with
  | z :: x :: l' =>
    if (base =? 16) && Ascii.eqb z "0"%char
       && (Ascii.eqb x "x"%char || Ascii.eqb x "X"%char)
    then parse_digits base AfterPrefix 0 l'
    else parse_digits base NoDigitYet 0 l
  | _ => parse_digits base NoDigitYet 0 l
  end.

Definition py_int_base (base : Z) (s : string) : option Z :=
  numeral ← ascii_numeral s;
  let numeral := strip numeral in
  if within_limit base numeral then
    match numeral with
    | c :: l' =>
      if Ascii.eqb c "-"%char then Z.opp <$> parse_unsigned base l'
      else if Ascii.eqb c "+"%char then parse_unsigned base l'
      else parse_unsigned base (c :: l')
    | [] => None
    end
  else None.

Definition py_int (s : string) : res Z :=
  match py_int_base 10 s with
  | Some z => Ok z
  | None => Raise ValueError
  end.

(** ** Configuration (module constants of robust_backfill_v2.py) *)

Definition API_KEYS : list string :=
  ["rs_65f982566a2ca518dfcd4c4e"; "rs_e1254323f750d4644cf0d772"].
Definition TOKEN_START_BLOCK : Z := 38699339.
Definition MAX_RESULTS_PER_QUERY : Z := 10000.
Definition MIN_BLOCK_RANGE : Z := 100.
Definition MAX_BLOCK_RANGE : Z := 5000.

(** ** An insertion-ordered dictionary

    [unique_txs] in [save_transactions] is a Python [dict]: lookups by
    key, and [values()] in the order in which keys were first
    inserted.  Order matters for the list that is written out, so the
    dictionary is an association list kept in insertion order. *)

Module PyDict.

Definition t (V : Type) : Type := list (string * V).

Definition empty {V : Type} : t V := [].

Fixpoint contains {V : Type} (k : string) (d : t V) : bool :=
  match d with
  | [] => false
  | (k', _) :: d' => if decide (k = k') then true else contains k d'
  end.

(** [d[k] = v]: overwrite in place, or append a new key at the end. *)
Fixpoint setitem {V : Type} (k : string) (v : V) (d : t V) : t V :=
  match d with
  | [] => [(k, v)]
  | (k', v') :: d' =>
    if decide (k = k') then (k, v) :: d' else (k', v') :: setitem k v d'
  end.

Definition keys {V : Type} (d : t V) : list string := d.*1.
Definition values {V : Type} (d : t V) : list V := d.*2.

End PyDict.

(** ** Deduplication ([save_transactions], lines 247-256)

    [[
        all_transactions = existing_txs + new_transactions
        unique_txs = {}
        for tx in all_transactions:
            tx_hash = tx.get('hash')
            if tx_hash and tx_hash not in unique_txs:
                unique_txs[tx_hash] = tx
        final_txs = list(unique_txs.values())
    ]] *)

Definition dedup_step (unique_txs : PyDict.t Tx) (tx : Tx) : PyDict.t Tx :=
  match get_truthy tx "hash" with
  | Some tx_hash =>
    if PyDict.contains tx_hash unique_txs then unique_txs
    else PyDict.setitem tx_hash tx unique_txs
  | None => unique_txs
  end.

Definition deduplicate (all_transactions : list Tx) : list Tx :=
  PyDict.values (fold_left dedup_step all_transactions PyDict.empty).

(** The merge that [save_transactions] computes and returns. *)
Definition merge (existing_txs new_transactions : list Tx) : list Tx :=
  deduplicate (existing_txs ++ new_transactions).

(** ** [RoutescanFetcher.save_transactions] (routescan_fetcher.py)

    The sibling fetcher removes duplicates with a set of seen hashes
    and a result list; what it writes to the file is
    [unique_transactions]. *)

Module RoutescanFetcher.

Record dedup_state : Type := {
  seen_hashes : gset string;
  unique_transactions : list Tx;
  duplicates_removed : nat
}.

Definition step (st : dedup_state) (tx : Tx) : dedup_state :=
  match get_truthy tx "hash" with
  | Some tx_hash =>
    if decide (tx_hash ∈ seen_hashes st)
    then {| seen_hashes := seen_hashes st;
            unique_transactions := unique_transactions st;
            duplicates_removed := S (duplicates_removed st) |}
    else {| seen_hashes := {[ tx_hash ]} ∪ seen_hashes st;
            unique_transactions := unique_transactions st ++ [tx];
            duplicates_removed := duplicates_removed st |}
  | None => st
  end.

(** The list handed to [json.dump]. *)
Definition save_transactions (transactions : list Tx) : list Tx :=
  unique_transactions
    (fold_left step transactions
       {| seen_hashes := ∅; unique_transactions := [];
          duplicates_removed := 0 |}).

End RoutescanFetcher.

(** ** A reference formulation of first-occurrence deduplication

    Written from the design document's words (keep the first
    occurrence seen of every transaction identifier, drop the rest),
    to be compared with the two implementations above. *)

Fixpoint keep_first (seen : gset string) (l : list Tx) : list Tx :=
  match l with
  | [] => []
  | tx :: l' =>
    match get_truthy tx "hash" with
    | Some h =>
      if decide (h ∈ seen) then keep_first seen l'
      else tx :: keep_first ({[ h ]} ∪ seen) l'
    | None => keep_first seen l'
    end
  end.

(** The identifiers (truthy hashes) occurring in a list of records. *)
Definition hashes_of (l : list Tx) : gset string :=
  list_to_set (omap (fun tx => get_truthy tx "hash") l).

(** The first record of [l] that carries identifier [h]. *)
Fixpoint first_with_hash (h : string) (l : list Tx) : option Tx :=
  match l with
  | [] => None
  | tx :: l' =>
    if decide (get_truthy tx "hash" = Some h) then Some tx
    else first_with_hash h l'
  end.

(** ** Observed block numbers

    [[
        int(tx.get('blockNumber', 0)) for tx in transactions
                                      if tx.get('blockNumber')
    ]]
    The comprehension skips records without a (truthy) block number and
    raises [ValueError] at the first block number that is no numeral. *)

Definition block_of (tx : Tx) : option (res Z) :=
  py_int <$> get_truthy tx "blockNumber".

Fixpoint block_numbers (transactions : list Tx) : res (list Z) :=
  match transactions with
  | [] => Ok []
  | tx :: rest =>
    match block_of tx with
    | Some r => b ← r; bs ← block_numbers rest; Ok (b :: bs)
    | None => block_numbers rest
    end
  end.

(** [sorted(set(...))]: the distinct values in ascending order. *)
Fixpoint insert_sorted (b : Z) (l : list Z) : list Z :=
  match l with
  | [] => [b]
  | x :: l' =>
    if b <? x then b :: l
    else if b =? x then l
    else x :: insert_sorted b l'
  end.

Definition sorted_set (l : list Z) : list Z := foldr insert_sorted [] l.

(** ** [identify_gaps] (lines 207-225)

    A gap is a pair [(start, end)]; [end] is [None] for the open-ended
    gap of an empty store.  The origin block and the tolerance are the
    constants [TOKEN_START_BLOCK] and [1000] in the source; the
    function is stated over both so that the design document's example
    (origin 1000) can be evaluated as well. *)

Definition Gap : Type := Z * option Z.

(** [[
        for i in range(1, len(blocks)):
            gap_size = blocks[i] - blocks[i-1]
            if gap_size > 1000:
                gaps.append((blocks[i-1] + 1, blocks[i] - 1))
    ]] *)
Fixpoint internal_gaps (tolerance : Z) (blocks : list Z) : list Gap :=
  match blocks with
  | [] => []
  | prev :: rest =>
    match rest with
    | [] => []
    | next :: _ =>
      (if tolerance <? next - prev
       then [(prev + 1, Some (next - 1))] else [])
      ++ internal_gaps tolerance rest
    end
  end.

Definition find_gaps (origin tolerance : Z) (transactions : list Tx)
  : res (list Gap) :=
  match transactions with
  | [] => Ok [(origin, None)]
  | _ :: _ =>
    bs ← block_numbers transactions;
    match sorted_set bs with
    | [] => Raise IndexError                       (* blocks[0] *)
    | (lowest :: _) as blocks =>
      let leading :=
        if origin <? lowest then [(origin, Some (lowest - 1))] else [] in
      Ok (leading ++ internal_gaps tolerance blocks)
    end
  end.

Definition identify_gaps (transactions : list Tx) : res (list Gap) :=
  find_gaps TOKEN_START_BLOCK 1000 transactions.

(** Two blocks are consecutive in the sorted list of observed blocks. *)
Definition adjacent (p n : Z) (blocks : list Z) : Prop :=
  exists l1 l2, blocks = l1 ++ p :: n :: l2.

(** A closed gap lies wholly below the next one. *)
Definition gap_before (g1 g2 : Gap) : Prop :=
  match g1.2 with
  | Some e => e < g2.1
  | None => False
  end.

(** ** Sample records *)

Definition record (tx_hash block : string) : Tx :=
  {[ "hash" := tx_hash; "blockNumber" := block ]}.

Definition sample_store : list Tx :=
  [record "0xa" "1000"; record "0xb" "1001"; record "0xc" "4000"].

(** ** The world: provider, clock, disk, status file and console *)

(** The two queries the engine sends ([params] of [requests.get]). *)
Inductive Request : Type :=
| TokenTx (startblock endblock : Z) (apikey : string)
    (* module=account, action=tokentx, page=1,
       offset=MAX_RESULTS_PER_QUERY, sort=asc *)
| BlockNumber (apikey : string).
    (* module=proxy, action=eth_blockNumber *)

(** The members of the JSON answer the engine looks at. *)
Record Body : Type := {
  b_status : option string;       (* data.get('status') *)
  b_message : option string;      (* data.get('message') *)
  b_result : option (option (list Tx));
    (* 'result' of a tokentx answer: no such member, null ([Some None])
       or a list of records, which is what the explorer sends with
       status '1' *)
  b_block : option string;        (* data['result'] of an eth_blockNumber answer *)
  b_rate_limit : bool             (* 'rate limit' in str(data).lower() *)
}.

Inductive Response : Type :=
| NoResponse                                   (* requests.get raises *)
| Http (status_code : Z) (json : option Body). (* None: response.json() raises *)

(** What went wrong, as appended to [self.errors]. *)
Inductive ErrorMsg : Type :=
| RateLimitedAt (start_block : Z)   (* "Rate limited at block ..." *)
| ApiError (message : option string) (* "API error: ..." *)
| HttpError (status_code : Z)       (* "HTTP ..." *)
| RequestError                      (* "Request error: ..." *)
| MainLoopError (e : exn).          (* "Main loop error: ..." *)

(** One write of the status file by [update_status]: the status name,
    [current_block] and [target_block] (the remaining members are
    copies of fields of [self] and of the clock). *)
Record Status : Type := {
  st_status : string;
  st_current_block : Z;
  st_target_block : Z
}.

(** The line [fetch_range] prints for one window. *)
Inductive Outcome : Type :=
| Failed                                  (* "FAILED - will retry later" *)
| HitLimit (count : nat) (new_range : Z)  (* "HIT LIMIT! Retrying with ..." *)
| AtMinimum (count : nat)                 (* "At minimum range!" *)
| Fetched (count : nat).                  (* count only *)

Record Line : Type := {
  line_start : Z;
  line_end : Z;
  line_outcome : Outcome
}.

(** The files [save_transactions] touches: the canonical
    [transactions.json] ([None]: it does not exist) and the temporary
    file of the current call.  A file holds the records written to it
    so far. *)
Record FS : Type := {
  canonical : option (list Tx);
  temp : option (list Tx)
}.

(** How the disk misbehaves during one call of [save_transactions]. *)
Inductive DiskFault : Type :=
| NoFault
| MkstempFails
| WriteFails (written : nat) (remove_fails : bool)
    (* json.dump raises after [written] records *)
| MoveFails (remove_fails : bool).
    (* shutil.move raises; the temporary file lies in the directory of
       the canonical one, so the move is one os.rename, and a rename
       that fails leaves its target as it was (the copy that
       shutil.move falls back to across file systems is not modelled) *)

Record World : Type := {
  clock : Z;                                  (* time.time(), in ms *)
  provider : nat -> Request -> Response * Z;  (* n-th request: answer, latency *)
  served : nat;                               (* requests sent so far *)
  requests : list (Z * Request);              (* when each request was sent *)
  disk : nat -> DiskFault;                    (* n-th save: its fault *)
  saves : nat;                                (* saves attempted so far *)
  fs : FS;
  statuses : list Status;                     (* writes of the status file *)
  lines : list Line                           (* lines printed by fetch_range *)
}.

(** The fields of [self], but for [start_time] and the text of
    [current_gap], which only the status file shows. *)
Record Self : Type := {
  current_key_index : nat;
  last_request_time : Z;
  request_count : nat;
  transactions_fetched : nat;
  errors : list ErrorMsg;
  gaps_remaining : nat
}.

Definition init_self : Self :=
  {| current_key_index := 0; last_request_time := 0; request_count := 0;
     transactions_fetched := 0; errors := []; gaps_remaining := 0 |}.

Definition set_clock (t : Z) (w : World) : World :=
  {| clock := t; provider := provider w; served := served w;
     requests := requests w; disk := disk w; saves := saves w; fs := fs w;
     statuses := statuses w; lines := lines w |}.

Definition set_fs (f : FS) (w : World) : World :=
  {| clock := clock w; provider := provider w; served := served w;
     requests := requests w; disk := disk w; saves := saves w; fs := f;
     statuses := statuses w; lines := lines w |}.

Definition count_save (w : World) : World :=
  {| clock := clock w; provider := provider w; served := served w;
     requests := requests w; disk := disk w; saves := S (saves w);
     fs := fs w; statuses := statuses w; lines := lines w |}.

Definition print_line (l : Line) (w : World) : World :=
  {| clock := clock w; provider := provider w; served := served w;
     requests := requests w; disk := disk w; saves := saves w; fs := fs w;
     statuses := statuses w; lines := lines w ++ [l] |}.

(** [update_status(status, current_block, target_block)]; a failure to
    write the status file is caught and printed there. *)
Definition update_status (status : string) (current_block target_block : Z)
  (w : World) : World :=
  {| clock := clock w; provider := provider w; served := served w;
     requests := requests w; disk := disk w; saves := saves w; fs := fs w;
     statuses := statuses w ++
       [{| st_status := status; st_current_block := current_block;
           st_target_block := target_block |}];
     lines := lines w |}.

(** [time.sleep(d)] *)
Definition time_sleep (d : Z) (w : World) : World :=
  set_clock (clock w + d) w.

(** [requests.get(API_URL, params=...)]: the request leaves at the
    current time and the answer arrives after the latency. *)
Definition requests_get (req : Request) (w : World) : Response * World :=
  let '(resp, latency) := provider w (served w) req in
  (resp,
   {| clock := clock w + Z.max 0 latency; provider := provider w;
      served := S (served w); requests := requests w ++ [(clock w, req)];
      disk := disk w; saves := saves w; fs := fs w;
      statuses := statuses w; lines := lines w |}).

Definition set_key_index (i : nat) (self : Self) : Self :=
  {| current_key_index := i; last_request_time := last_request_time self;
     request_count := request_count self;
     transactions_fetched := transactions_fetched self;
     errors := errors self; gaps_remaining := gaps_remaining self |}.

Definition set_last_request_time (t : Z) (self : Self) : Self :=
  {| current_key_index := current_key_index self; last_request_time := t;
     request_count := request_count self;
     transactions_fetched := transactions_fetched self;
     errors := errors self; gaps_remaining := gaps_remaining self |}.

Definition count_request (self : Self) : Self :=
  {| current_key_index := current_key_index self;
     last_request_time := last_request_time self;
     request_count := S (request_count self);
     transactions_fetched := transactions_fetched self;
     errors := errors self; gaps_remaining := gaps_remaining self |}.

Definition add_fetched (n : nat) (self : Self) : Self :=
  {| current_key_index := current_key_index self;
     last_request_time := last_request_time self;
     request_count := request_count self;
     transactions_fetched := (transactions_fetched self + n)%nat;
     errors := errors self; gaps_remaining := gaps_remaining self |}.

Definition add_error (e : ErrorMsg) (self : Self) : Self :=
  {| current_key_index := current_key_index self;
     last_request_time := last_request_time self;
     request_count := request_count self;
     transactions_fetched := transactions_fetched self;
     errors := errors self ++ [e]; gaps_remaining := gaps_remaining self |}.

Definition set_gaps_remaining (n : nat) (self : Self) : Self :=
  {| current_key_index := current_key_index self;
     last_request_time := last_request_time self;
     request_count := request_count self;
     transactions_fetched := transactions_fetched self;
     errors := errors self; gaps_remaining := n |}.

(** ** Rate budget: [_get_api_key], [_rotate_key], [_rate_limit_wait] *)

Definition _get_api_key (self : Self) : string :=
  default EmptyString (API_KEYS !! current_key_index self).

Definition _rotate_key (self : Self) : Self :=
  set_key_index ((current_key_index self + 1) mod length API_KEYS)%nat self.

(** [[
        elapsed = time.time() - self.last_request_time
        if elapsed < 1.0:
            time.sleep(1.0 - elapsed)
        self.last_request_time = time.time()
    ]] *)
Definition _rate_limit_wait (self : Self) (w : World) : Self * World :=
  let elapsed := clock w - last_request_time self in
  let w := if elapsed <? 1000 then time_sleep (1000 - elapsed) w else w in
  (set_last_request_time (clock w) self, w).

(** ** [_make_request] (lines 99-156) *)

Definition str_contains (pattern s : string) : bool :=
  match index 0 pattern s with
  | Some _ => true
  | None => false
  end.

Definition max_retries : nat := 5.

(** The [except] branch and the branch for other status codes end
    alike: sleep [5 * (attempt + 1)] seconds unless this was the last
    attempt. *)
Definition backoff (attempt : nat) (w : World) : World :=
  if (attempt <? max_retries - 1)%nat
  then time_sleep (5000 * (Z.of_nat attempt + 1)) w
  else w.

(** The [for attempt in range(max_retries)] loop; [remaining] counts
    the iterations left.  [params] is built once before the loop, so
    every attempt carries the key that was active on entry. *)
Fixpoint request_attempts (remaining attempt : nat) (params : Request)
  (start_block : Z) (self : Self) (w : World)
  : Self * World * option (list Tx) :=
  match remaining with
  | O => (self, w, None)
  | S remaining' =>
    let retry := request_attempts remaining' (S attempt) params start_block in
    let '(resp, w) := requests_get params w in
    match resp with
    | NoResponse =>
      retry (add_error RequestError self) (backoff attempt w)
    | Http status_code json =>
      let self := count_request self in
      if status_code =? 429 then
        let self := add_error (RateLimitedAt start_block) self in
        retry (_rotate_key self) (time_sleep 30000 w)
      else if status_code =? 200 then
        match json with
        | None => retry (add_error RequestError self) (backoff attempt w)
        | Some data =>
          if bool_decide (b_status data = Some "1"
                          /\ b_message data = Some "OK")
          then (self, w, match b_result data with
                         | Some result => result  (* null is [None] *)
                         | None => Some []
                         end)
          else if str_contains "No transactions found"
                    (default EmptyString (b_message data))
          then (self, w, Some [])
          else if b_rate_limit data
          then retry (_rotate_key self) (time_sleep 30000 w)
          else (add_error (ApiError (b_message data)) self, w, None)
        end
      else
        retry (add_error (HttpError status_code) self) (backoff attempt w)
    end
  end.

Definition _make_request (self : Self) (w : World) (start_block end_block : Z)
  : Self * World * option (list Tx) :=
  let '(self, w) := _rate_limit_wait self w in
  let params := TokenTx start_block end_block (_get_api_key self) in
  request_attempts max_retries 0 params start_block self w.

(** ** [fetch_range] (lines 158-205)

    The [while current_start <= end_block] loop is the recursion on
    [start_block]; [all_transactions] is the concatenation of what each
    iteration extends it with.  [fuel] bounds the number of nested
    iterations; [None] means it ran out. *)

Definition capped (count : nat) : bool :=
  MAX_RESULTS_PER_QUERY - 10 <=? Z.of_nat count.

Fixpoint fetch_range (fuel : nat) (self : Self) (w : World)
  (start_block end_block block_range : Z)
  : option (Self * World * list Tx) :=
  match fuel with
  | O => None
  | S fuel' =>
    if end_block <? start_block then Some (self, w, [])
    else
      let current_start := start_block in
      let current_end := Z.min (current_start + block_range - 1) end_block in
      let w := update_status "fetching" current_start end_block w in
      let '(self, w, results) :=
        _make_request self w current_start current_end in
      let line o := {| line_start := current_start; line_end := current_end;
                       line_outcome := o |} in
      match results with
      | None =>
        fetch_range fuel' self (print_line (line Failed) w)
          (current_end + 1) end_block block_range
      | Some results =>
        let count := length results in
        if capped count then
          if MIN_BLOCK_RANGE <? block_range then
            let new_range := Z.max (block_range / 2) MIN_BLOCK_RANGE in
            let w := print_line (line (HitLimit count new_range)) w in
            '(self, w, sub_results) ←
              fetch_range fuel' self w current_start current_end new_range;
            let self := add_fetched (length sub_results) self in
            '(self, w, more) ←
              fetch_range fuel' self w (current_end + 1) end_block block_range;
            Some (self, w, sub_results ++ more)
          else
            let w := print_line (line (AtMinimum count)) w in
            let self := add_fetched count self in
            '(self, w, more) ←
              fetch_range fuel' self w (current_end + 1) end_block block_range;
            Some (self, w, results ++ more)
        else
          let w := print_line (line (Fetched count)) w in
          let self := add_fetched count self in
          '(self, w, more) ←
            fetch_range fuel' self w (current_end + 1) end_block block_range;
          Some (self, w, results ++ more)
      end
  end.

(** Fuel that suffices for [fetch_range] on a positive window size:
    one unit per window of the interval, for each level of halving. *)
Definition halvings (block_range : Z) : nat :=
  if MIN_BLOCK_RANGE <? block_range
  then S (Z.to_nat (Z.log2 block_range)) else O.

Definition fetch_fuel (start_block end_block block_range : Z) : nat :=
  (S (Z.to_nat (end_block - start_block + 1)) * S (halvings block_range))%nat.

(** ** What the console shows of cap handling

    [windows r s e ls]: the lines [ls] are those of a traversal of
    [[s, e]] with window size [r] in which a plain line reports a
    count below the cap margin, a capped count at a window size above
    the minimum is answered by the lines of a traversal of the very
    same window from the same start with the halved size, and a capped
    count is taken as it is (and flagged) only at the minimum size. *)

Definition window_end (s e r : Z) : Z := Z.min (s + r - 1) e.

Definition line (s e : Z) (o : Outcome) : Line :=
  {| line_start := s; line_end := e; line_outcome := o |}.

Inductive windows : Z -> Z -> Z -> list Line -> Prop :=
| windows_done r s e :
    e < s -> windows r s e []
| windows_failed r s e ls :
    s <= e ->
    windows r (window_end s e r + 1) e ls ->
    windows r s e (line s (window_end s e r) Failed :: ls)
| windows_fetched r s e n ls :
    s <= e -> capped n = false ->
    windows r (window_end s e r + 1) e ls ->
    windows r s e (line s (window_end s e r) (Fetched n) :: ls)
| windows_at_minimum r s e n ls :
    s <= e -> capped n = true -> r <= MIN_BLOCK_RANGE ->
    windows r (window_end s e r + 1) e ls ->
    windows r s e (line s (window_end s e r) (AtMinimum n) :: ls)
| windows_hit_limit r s e n sub ls :
    s <= e -> capped n = true -> MIN_BLOCK_RANGE < r ->
    windows (Z.max (r / 2) MIN_BLOCK_RANGE) s (window_end s e r) sub ->
    windows r (window_end s e r + 1) e ls ->
    windows r s e
      (line s (window_end s e r)
         (HitLimit n (Z.max (r / 2) MIN_BLOCK_RANGE)) :: sub ++ ls).

(** The number of records of the batches a line sequence reports as
    taken into the result. *)
Fixpoint accepted (ls : list Line) : nat :=
  match ls with
  | [] => 0
  | l :: ls' =>
    match line_outcome l with
    | Fetched n | AtMinimum n => n + accepted ls'
    | Failed | HitLimit _ _ => accepted ls'
    end
  end%nat.

(** ** A walk of [fetch_range], answer by answer

    [traversal r s e x x' ls txs]: from the state [x] the interval
    [[s, e]] is walked in windows of [r] blocks, which ends in the
    state [x'] with the lines [ls] printed and the records [txs]
    returned.  Every window is asked for once, by [_make_request], and
    what the walk does next is decided by the answer:
    - no answer: the window is given up and nothing is taken for it;
    - an answer below the cap margin: its records are taken;
    - an answer at the cap margin, the window size above the minimum:
      the answer is discarded and the same window is walked again from
      the same start with the halved size (not below the minimum);
      what that walk returns is taken instead;
    - an answer at the cap margin at the minimum size: its records are
      taken, and the line flags it. *)
Inductive traversal :
  Z -> Z -> Z -> Self * World -> Self * World -> list Line -> list Tx -> Prop :=
| traversal_done r s e x :
    e < s -> traversal r s e x x [] []
| traversal_failed r s e self w self1 w1 x' ls txs :
    s <= e ->
    _make_request self (update_status "fetching" s e w) s (window_end s e r)
      = (self1, w1, None) ->
    traversal r (window_end s e r + 1) e
      (self1, print_line (line s (window_end s e r) Failed) w1) x' ls txs ->
    traversal r s e (self, w) x'
      (line s (window_end s e r) Failed :: ls) txs
| traversal_fetched r s e self w self1 w1 results x' ls txs :
    s <= e ->
    _make_request self (update_status "fetching" s e w) s (window_end s e r)
      = (self1, w1, Some results) ->
    capped (length results) = false ->
    traversal r (window_end s e r + 1) e
      (add_fetched (length results) self1,
       print_line (line s (window_end s e r) (Fetched (length results))) w1)
      x' ls txs ->
    traversal r s e (self, w) x'
      (line s (window_end s e r) (Fetched (length results)) :: ls)
      (results ++ txs)
| traversal_at_minimum r s e self w self1 w1 results x' ls txs :
    s <= e ->
    _make_request self (update_status "fetching" s e w) s (window_end s e r)
      = (self1, w1, Some results) ->
    capped (length results) = true -> r <= MIN_BLOCK_RANGE ->
    traversal r (window_end s e r + 1) e
      (add_fetched (length results) self1,
       print_line (line s (window_end s e r) (AtMinimum (length results))) w1)
      x' ls txs ->
    traversal r s e (self, w) x'
      (line s (window_end s e r) (AtMinimum (length results)) :: ls)
      (results ++ txs)
| traversal_hit_limit r s e self w self1 w1 results self2 w2 sub_ls sub
    x' ls txs :
    s <= e ->
    _make_request self (update_status "fetching" s e w) s (window_end s e r)
      = (self1, w1, Some results) ->
    capped (length results) = true -> MIN_BLOCK_RANGE < r ->
    traversal (Z.max (r / 2) MIN_BLOCK_RANGE) s (window_end s e r)
      (self1,
       print_line (line s (window_end s e r)
                     (HitLimit (length results)
                        (Z.max (r / 2) MIN_BLOCK_RANGE))) w1)
      (self2, w2) sub_ls sub ->
    traversal r (window_end s e r + 1) e
      (add_fetched (length sub) self2, w2) x' ls txs ->
    traversal r s e (self, w) x'
      (line s (window_end s e r)
         (HitLimit (length results) (Z.max (r / 2) MIN_BLOCK_RANGE))
       :: sub_ls ++ ls)
      (sub ++ txs).

(** ** Sample worlds *)

Definition make_world (p : nat -> Request -> Response * Z)
  (d : nat -> DiskFault) (now : Z) (store : option (list Tx)) : World :=
  {| clock := now; provider := p; served := 0; requests := [];
     disk := d; saves := 0;
     fs := {| canonical := store; temp := None |};
     statuses := []; lines := [] |}.

Definition sound_disk : nat -> DiskFault := fun _ => NoFault.

Definition ok_body (result : list Tx) : Body :=
  {| b_status := Some "1"; b_message := Some "OK";
     b_result := Some (Some result);
     b_block := None; b_rate_limit := false |}.

Definition head_body (hex : string) : Body :=
  {| b_status := None; b_message := None; b_result := None;
     b_block := Some hex; b_rate_limit := false |}.

(** A provider whose answer reaches the cap margin for every window
    wider than 2500 blocks and holds two records otherwise. *)
Definition dense_provider (n : nat) (req : Request) : Response * Z :=
  match req with
  | TokenTx s e _ =>
    if 2500 <? e - s + 1
    then (Http 200 (Some (ok_body (replicate 9990 (record "0xd" "1")))), 100)
    else (Http 200 (Some (ok_body [record "0xa" "1"; record "0xb" "2"])), 100)
  | BlockNumber _ => (NoResponse, 0)
  end.

Definition dense_world : World :=
  make_world dense_provider sound_disk 1700000000000 None.

(** A closed gap contains the block interval [[a, b]]. *)
Definition covers (g : Gap) (a b : Z) : Prop :=
  match g.2 with
  | Some e => g.1 <= a /\ b <= e
  | None => False
  end.

(** A provider that answers the window starting right after the origin
    block with five records, a thousand blocks apart, and every other
    window with HTTP 500 after 100 ms. *)
Definition five_records : list Tx :=
  [record "0x01" "38700339"; record "0x02" "38701339";
   record "0x03" "38702339"; record "0x04" "38703339";
   record "0x05" "38704339"].

Definition flaky_provider (n : nat) (req : Request) : Response * Z :=
  match req with
  | TokenTx s e _ =>
    if s =? TOKEN_START_BLOCK + 1
    then (Http 200 (Some (ok_body five_records)), 100)
    else (Http 500 None, 100)
  | BlockNumber _ => (Http 200 (Some (head_body "0x24e8208")), 100)
  end.

(** A store with records at the origin block and 5501 blocks later. *)
Definition holed_store : list Tx :=
  [record "0x00" "38699339"; record "0x06" "38704840"].

Definition flaky_world : World :=
  make_world flaky_provider sound_disk 1700000000000 (Some holed_store).

(** ** [get_current_block] (lines 227-243) *)

Definition get_current_block (self : Self) (w : World)
  : Self * World * option Z :=
  let '(self, w) := _rate_limit_wait self w in
  let '(resp, w) := requests_get (BlockNumber (_get_api_key self)) w in
  match resp with
  | Http status_code (Some data) =>
    if status_code =? 200 then
      match b_block data with
      | Some hex => (self, w, py_int_base 16 hex)  (* a ValueError is caught *)
      | None => (self, w, None)
      end
    else (self, w, None)
  | _ => (self, w, None)
  end.

(** ** [save_transactions] (lines 245-270)

    [[
        try:
            fd, temp_path = tempfile.mkstemp(suffix='.json', dir='.')
            with os.fdopen(fd, 'w') as f:
                json.dump(final_txs, f)
            shutil.move(temp_path, 'transactions.json')
        except Exception as e:
            print(f"Error saving: {e}")
            if os.path.exists(temp_path):
                os.remove(temp_path)
        return final_txs
    ]]
    The temporary file is created in the directory of the canonical
    file, so [shutil.move] is one [os.rename].  [save_steps] lists the
    states the two files pass through, one per file-system effect;
    a crash leaves the files in one of them. *)

Definition write_progress (f : FS) (final_txs : list Tx) (upto : nat)
  : list FS :=
  (fun k => {| canonical := canonical f; temp := Some (take k final_txs) |})
    <$> seq 0 (S upto).

Definition save_steps (fault : DiskFault) (f : FS) (final_txs : list Tx)
  : list FS :=
  let removed := [{| canonical := canonical f; temp := None |}] in
  match fault with
  | MkstempFails => []
  | WriteFails written remove_fails =>
    write_progress f final_txs (written `min` length final_txs)
    ++ (if remove_fails then [] else removed)
  | MoveFails remove_fails =>
    write_progress f final_txs (length final_txs)
    ++ (if remove_fails then [] else removed)
  | NoFault =>
    write_progress f final_txs (length final_txs)
    ++ [{| canonical := Some final_txs; temp := None |}]
  end.

(** What the call ends with.  An exception of the [try] block is
    printed and swallowed; one raised by the handler itself leaves the
    function: [temp_path] is unbound when [mkstemp] failed, and
    [os.remove] may fail. *)
Definition save_result (fault : DiskFault) (final_txs : list Tx)
  : res (list Tx) :=
  match fault with
  | MkstempFails => Raise UnboundLocalError
  | WriteFails _ true | MoveFails true => Raise OSError
  | WriteFails _ false | MoveFails false | NoFault => Ok final_txs
  end.

Definition save_transactions (w : World)
  (existing_txs new_transactions : list Tx) : World * res (list Tx) :=
  let final_txs := merge existing_txs new_transactions in
  let fault := disk w (saves w) in
  let f := default (fs w) (last (save_steps fault (fs w) final_txs)) in
  (set_fs f (count_save w), save_result fault final_txs).

(** ** One cycle of [run_continuous] (lines 282-377) *)

Inductive CycleEnd : Type :=
| CaughtUp              (* status "caught_up", then 60 s of sleep *)
| Continuing            (* 5 s of sleep *)
| Errored (e : exn).    (* status "error", then 30 s of sleep *)

(** [[
        existing_txs = []
        if os.path.exists('transactions.json'):
            existing_txs = json.load(f)
    ]] *)
Definition load_store (w : World) : list Tx :=
  default [] (canonical (fs w)).

(** [[
        current_block = self.get_current_block()
        if not current_block:
            current_block = 40600000
    ]] *)
Definition head_or_estimate (head : option Z) : Z :=
  match head with
  | Some b => if b =? 0 then 40600000 else b
  | None => 40600000
  end.

(** [max(...)] of a sequence of integers. *)
Definition py_max (l : list Z) : res Z :=
  match l with
  | [] => Raise ValueError
  | x :: l' => Ok (foldr Z.max x l')
  end.

(** [[
        if existing_txs:
            current_max = max(int(tx.get('blockNumber', 0))
                              for tx in existing_txs if tx.get('blockNumber'))
        else:
            current_max = TOKEN_START_BLOCK - 1
    ]] *)
Definition current_max_of (existing_txs : list Tx) : res Z :=
  match existing_txs with
  | [] => Ok (TOKEN_START_BLOCK - 1)
  | _ :: _ => bs ← block_numbers existing_txs; py_max bs
  end.

(** [[
        for tx in gap_txs:
            if tx.get('hash') and tx.get('hash') not in existing_hashes:
                new_transactions.append(tx)
                existing_hashes.add(tx.get('hash'))
    ]] *)
Fixpoint add_new (txs new_transactions : list Tx)
  (existing_hashes : gset string) : list Tx * gset string :=
  match txs with
  | [] => (new_transactions, existing_hashes)
  | tx :: rest =>
    match get_truthy tx "hash" with
    | Some h =>
      if decide (h ∈ existing_hashes)
      then add_new rest new_transactions existing_hashes
      else add_new rest (new_transactions ++ [tx]) ({[ h ]} ∪ existing_hashes)
    | None => add_new rest new_transactions existing_hashes
    end
  end.

(** The variables the gap loop carries from one gap to the next. *)
Record Batch : Type := {
  existing_txs : list Tx;
  new_transactions : list Tx;
  existing_hashes : gset string
}.

(** [for i, (start, end) in enumerate(gaps)] (lines 318-342); [i] is
    the index of the head of [gaps], [total] is [len(gaps)]. *)
Fixpoint fill_gaps (fuel : nat) (gaps : list Gap) (i total : nat)
  (current_max : Z) (self : Self) (w : World) (b : Batch)
  : option (Self * World * res Batch) :=
  match gaps with
  | [] => Some (self, w, Ok b)
  | (start, gap_end) :: gaps' =>
    let gap_end := default current_max gap_end in
    if gap_end <? start
    then fill_gaps fuel gaps' (S i) total current_max self w b
    else
      let self := set_gaps_remaining (total - i) self in
      let w := update_status "filling_gap" start gap_end w in
      '(self, w, gap_txs) ←
        fetch_range fuel self w start gap_end MAX_BLOCK_RANGE;
      let '(new, hashes) :=
        add_new gap_txs (new_transactions b) (existing_hashes b) in
      if 10000 <? Z.of_nat (length new) then
        let '(w, saved) := save_transactions w (existing_txs b) new in
        match saved with
        | Raise e => Some (self, w, Raise e)
        | Ok existing =>
          fill_gaps fuel gaps' (S i) total current_max self w
            {| existing_txs := existing; new_transactions := [];
               existing_hashes := hashes |}
        end
      else
        fill_gaps fuel gaps' (S i) total current_max self w
          {| existing_txs := existing_txs b; new_transactions := new;
             existing_hashes := hashes |}
  end.

(** Lines 344-357: extend to the chain head. *)
Definition fetch_new_blocks (fuel : nat) (current_max current_block : Z)
  (self : Self) (w : World) (b : Batch) : option (Self * World * Batch) :=
  if current_max <? current_block then
    let w := update_status "fetching_new" (current_max + 1) current_block w in
    '(self, w, new_txs) ←
      fetch_range fuel self w (current_max + 1) current_block MAX_BLOCK_RANGE;
    let '(new, hashes) :=
      add_new new_txs (new_transactions b) (existing_hashes b) in
    Some (self, w, {| existing_txs := existing_txs b;
                      new_transactions := new; existing_hashes := hashes |})
  else Some (self, w, b).

(** Lines 359-364: the final save. *)
Definition final_save (w : World) (b : Batch) : World * res (list Tx) :=
  match new_transactions b with
  | [] => (w, Ok (existing_txs b))
  | _ :: _ => save_transactions w (existing_txs b) (new_transactions b)
  end.

(** [[
        blocks = [int(tx.get('blockNumber', 0)) for tx in final_txs
                  if tx.get('blockNumber')]
        max_saved_block = max(blocks) if blocks else 0
    ]] *)
Definition max_saved_block_of (final_txs : list Tx) : res Z :=
  bs ← block_numbers final_txs;
  match bs with
  | [] => Ok 0
  | _ :: _ => py_max bs
  end.

(** Lines 366-377: caught up, or more work. *)
Definition check_caught_up (final_txs : list Tx) (current_block : Z)
  (w : World) : World * res CycleEnd :=
  match max_saved_block_of final_txs with
  | Raise e => (w, Raise e)
  | Ok max_saved_block =>
    if current_block - 100 <=? max_saved_block
    then (time_sleep 60000
            (update_status "caught_up" max_saved_block current_block w),
          Ok CaughtUp)
    else (time_sleep 5000 w, Ok Continuing)
  end.

(** The part of the cycle after the gap loop. *)
Definition extend_and_finish (fuel : nat) (current_max current_block : Z)
  (self : Self) (w : World) (b : Batch)
  : option (Self * World * res CycleEnd) :=
  '(self, w, b) ← fetch_new_blocks fuel current_max current_block self w b;
  let '(w, saved) := final_save w b in
  match saved with
  | Raise e => Some (self, w, Raise e)
  | Ok final_txs =>
    let '(w, r) := check_caught_up final_txs current_block w in
    Some (self, w, r)
  end.

(** The body of the [try] block. *)
Definition cycle_body (fuel : nat) (self : Self) (w : World)
  : option (Self * World * res CycleEnd) :=
  let existing := load_store w in
  let '(self, w, head) := get_current_block self w in
  let current_block := head_or_estimate head in
  let hashes := hashes_of existing in
  match identify_gaps existing with
  | Raise e => Some (self, w, Raise e)
  | Ok gaps =>
    let self := set_gaps_remaining (length gaps) self in
    match current_max_of existing with
    | Raise e => Some (self, w, Raise e)
    | Ok current_max =>
      '(self, w, filled) ←
        fill_gaps fuel gaps 0 (length gaps) current_max self w
          {| existing_txs := existing; new_transactions := [];
             existing_hashes := hashes |};
      match filled with
      | Raise e => Some (self, w, Raise e)
      | Ok b => extend_and_finish fuel current_max current_block self w b
      end
    end
  end.

(** One turn of the [while True] loop, with its [except Exception]. *)
Definition run_cycle (fuel : nat) (self : Self) (w : World)
  : option (Self * World * CycleEnd) :=
  '(self, w, r) ← cycle_body fuel self w;
  match r with
  | Ok ending => Some (self, w, ending)
  | Raise e =>
    Some (add_error (MainLoopError e) self,
          time_sleep 30000 (update_status "error" 0 0 w),
          Errored e)
  end.

(** The chain head a cycle works with. *)
Definition chain_head (self : Self) (w : World) : Z :=
  head_or_estimate (get_current_block self w).2.

(** A record carries a transaction identifier. *)
Definition has_hash (tx : Tx) : Prop := is_Some (get_truthy tx "hash").

(** The canonical file is left as it was, or holds identified records
    only. *)
Definition store_kept_or_hashed (w w' : World) : Prop :=
  canonical (fs w') = canonical (fs w) \/
  exists l, canonical (fs w') = Some l /\ Forall has_hash l.

(** A world in which the chain head is 150 blocks past the origin, the
    provider returns two recent records for any window, and the first
    write to the temporary file fails after one record. *)
Definition origin_store : list Tx := [record "0x00" "38699339"].

Definition recent_records : list Tx :=
  [record "0x07" "38699439"; record "0x08" "38699459"].

Definition recent_provider (n : nat) (req : Request) : Response * Z :=
  match req with
  | TokenTx _ _ _ => (Http 200 (Some (ok_body recent_records)), 100)
  | BlockNumber _ => (Http 200 (Some (head_body "0x24e81e1")), 100)
  end.



Definition sound_world : World :=
  make_world recent_provider sound_disk 1700000000000 (Some origin_store).



(** A world without a store file. *)
Definition fresh_world : World :=
  make_world recent_provider sound_disk 1700000000000 None.

(** Every line that reports a hit limit is directly followed by the
    line of a query from the same start, over the announced smaller
    window. *)
Fixpoint requeried (ls : list Line) : Prop :=
  match ls with
  | [] => True
  | a :: rest =>
    match line_outcome a with
    | HitLimit _ new_range =>
      match rest with
      | b :: _ =>
        line_start b = line_start a /\
        line_end b = window_end (line_start a) (line_end a) new_range
      | [] => False
      end
    | _ => True
    end /\ requeried rest
  end.

(** ** Further notions for the properties of Part II *)

(** A store as [save_transactions] leaves it: every record carries an
    identifier and no identifier occurs twice. *)
Definition clean (l : list Tx) : Prop :=
  Forall has_hash l /\ NoDup ((fun tx => tx !! "hash") <$> l).

(** The identifiers of the records that have one, with repetitions. *)
Definition identifiers (l : list Tx) : list string :=
  omap (fun tx => get_truthy tx "hash") l.

(** ** The merge of the callers (main.py, lines 72-83; fetch_backwards.py,
    lines 45-63)

    [[
        existing_hashes = {tx.get('hash') for tx in transactions}
        unique_new = [tx for tx in new_transactions
                      if tx.get('hash') not in existing_hashes]
        if unique_new:
            transactions.extend(unique_new)
            fetcher.save_transactions(transactions, transactions_file)
    ]]
    [tx.get('hash')] is not tested for truth here: a missing identifier
    is the member [None] of the set. *)

Module Main.

Definition existing_hashes (transactions : list Tx) : gset (option string) :=
  list_to_set ((fun tx => tx !! "hash") <$> transactions).

Definition unique_new (transactions new_transactions : list Tx) : list Tx :=
  filter (fun tx => tx !! "hash" ∉ existing_hashes transactions)
    new_transactions.

(** The list handed to [save_transactions] ([None]: nothing is saved). *)
Definition merged (transactions new_transactions : list Tx)
  : option (list Tx) :=
  match unique_new transactions new_transactions with
  | [] => None
  | (_ :: _) as fresh => Some (transactions ++ fresh)
  end.

End Main.

(** Consecutive requests of a trace leave at least [d] ms apart. *)
Fixpoint spaced (d : Z) (trace : list (Z * Request)) : Prop :=
  match trace with
  | p :: (q :: _) as rest => p.1 + d <= q.1 /\ spaced d rest
  | _ => True
  end.

(** The lines of the windows whose answer decided them: all but those
    that report a hit limit and are fetched again in smaller windows. *)
Fixpoint final_windows (ls : list Line) : list Line :=
  match ls with
  | [] => []
  | l :: ls' =>
    match line_outcome l with
    | HitLimit _ _ => final_windows ls'
    | _ => l :: final_windows ls'
    end
  end.

(** The windows of [ls] follow one another from [s] to [e] without a
    hole or an overlap. *)
Fixpoint tiles (s e : Z) (ls : list Line) : Prop :=
  match ls with
  | [] => e < s
  | l :: ls' =>
    line_start l = s /\ s <= line_end l /\ line_end l <= e /\
    tiles (line_end l + 1) e ls'
  end.

(** ** The effects of the fetcher

    What the fetcher does to its own fields and to the world, one
    step at a time. *)
Inductive effect : Self * World -> Self * World -> Prop :=
| effect_sleep self w d :
    0 <= d -> effect (self, w) (self, time_sleep d w)
| effect_request self w req :
    effect (self, w) (self, (requests_get req w).2)
| effect_print self w l :
    effect (self, w) (self, print_line l w)
| effect_status self w status current_block target_block :
    effect (self, w)
           (self, update_status status current_block target_block w)
| effect_save self w existing new :
    effect (self, w) (self, (save_transactions w existing new).1)
| effect_stamp self w :
    effect (self, w) (set_last_request_time (clock w) self, w)
| effect_count self w :
    effect (self, w) (count_request self, w)
| effect_error self w e :
    effect (self, w) (add_error e self, w)
| effect_rotate self w :
    effect (self, w) (_rotate_key self, w)
| effect_fetched self w n :
    effect (self, w) (add_fetched n self, w)
| effect_gaps self w n :
    effect (self, w) (set_gaps_remaining n self, w).

(** The sleep that ends a cycle, in ms. *)
Definition pause (ending : CycleEnd) : Z :=
  match ending with
  | CaughtUp => 60000
  | Continuing => 5000
  | Errored _ => 30000
  end.

(** What no effect undoes. *)
Definition grown (x y : Self * World) : Prop :=
  clock x.2 <= clock y.2 /\
  (request_count x.1 <= request_count y.1)%nat /\
  (transactions_fetched x.1 <= transactions_fetched y.1)%nat /\
  errors x.1 `prefix_of` errors y.1 /\
  requests x.2 `prefix_of` requests y.2 /\
  (served x.2 <= served y.2)%nat /\
  (saves x.2 <= saves y.2)%nat /\
  lines x.2 `prefix_of` lines y.2 /\
  statuses x.2 `prefix_of` statuses y.2.

(** The key index points into the key pool, and neither the recorded
    request time nor the time of a request sent is ahead of the
    clock. *)
Definition sound (x : Self * World) : Prop :=
  (current_key_index x.1 < length API_KEYS)%nat /\
  last_request_time x.1 <= clock x.2 /\
  Forall (fun p => p.1 <= clock x.2) (requests x.2).

(** A line that does not report a hit limit. *)
Definition decided (l : Line) : Prop :=
  match line_outcome l with
  | HitLimit _ _ => False
  | _ => True
  end.

(** A request of the log asks for the token transfers of a window
    inside [[s, e]]. *)
Definition asks_within (s e : Z) (p : Z * Request) : Prop :=
  exists a b key, p.2 = TokenTx a b key /\ s <= a /\ a <= b /\ b <= e.

(** The canonical file of [w'] is that of [w] with records appended,
    and it is clean. *)
Definition appended (w w' : World) : Prop :=
  load_store w `prefix_of` load_store w' /\ clean (load_store w').

(** ** [_convert_to_standard_format] (routescan_fetcher.py, lines 341-358)

    [[
        return {
            'hash': tx.get('hash', ''),
            'from': tx.get('from', '').lower(),
            'to': tx.get('to', '').lower(),
            'value': tx.get('value', '0'),
            'timeStamp': tx.get('timeStamp', '0'),
            'blockNumber': tx.get('blockNumber', '0'),
            'tokenName': tx.get('tokenName', ''),
            'tokenSymbol': tx.get('tokenSymbol', ''),
            'tokenDecimal': tx.get('tokenDecimal', '18'),
            'contractAddress': tx.get('contractAddress', '')
        }
    ]]
    On records whose fields are strings nothing here raises, so the
    [except] branch (which returns [None]) is not taken.  [str.lower]
    is a parameter; [ascii_lower] is that function on ASCII text, which
    is what an address is. *)

Definition lower_ascii (a : ascii) : ascii :=
  let n := nat_of_ascii a in
  if ((65 <=? n) && (n <=? 90))%nat then ascii_of_nat (n + 32) else a.

Fixpoint ascii_lower (s : string) : string :=
  match s with
  | EmptyString => EmptyString
  | String a s' => String (lower_ascii a) (ascii_lower s')
  end.

Definition _convert_to_standard_format (lower : string -> string) (tx : Tx)
  : Tx :=
  let get k d := default d (tx !! k) in
  {[ "hash" := get "hash" EmptyString;
     "from" := lower (get "from" EmptyString);
     "to" := lower (get "to" EmptyString);
     "value" := get "value" "0";
     "timeStamp" := get "timeStamp" "0";
     "blockNumber" := get "blockNumber" "0";
     "tokenName" := get "tokenName" EmptyString;
     "tokenSymbol" := get "tokenSymbol" EmptyString;
     "tokenDecimal" := get "tokenDecimal" "18";
     "contractAddress" := get "contractAddress" EmptyString ]}.

(** The keys of the standard format. *)
Definition standard_keys : list string :=
  ["hash"; "from"; "to"; "value"; "timeStamp"; "blockNumber";
   "tokenName"; "tokenSymbol"; "tokenDecimal"; "contractAddress"].

(** ** The network side of [RoutescanFetcher] (routescan_fetcher.py)

    The fetcher the callers [main.py] and [fetch_backwards.py] use.
    It shares the provider, the clock and the disk of [World].
    [data.get('result')] is a list of records in a tokentx answer and
    a string elsewhere, which are the two views [b_result] and
    [b_block] of a [Body]. *)

Module RoutescanNet.

(** The fields of [self] the requests depend on ([__init__], lines
    13-28). *)
Record Fetcher : Type := {
  api_keys : list string;
  current_key_index : nat;
  api_key : string;
  last_request_time : Z;
  consecutive_rate_limits : nat
}.

Definition set_last_request_time (t : Z) (self : Fetcher) : Fetcher :=
  {| api_keys := api_keys self; current_key_index := current_key_index self;
     api_key := api_key self; last_request_time := t;
     consecutive_rate_limits := consecutive_rate_limits self |}.

Definition set_consecutive_rate_limits (n : nat) (self : Fetcher) : Fetcher :=
  {| api_keys := api_keys self; current_key_index := current_key_index self;
     api_key := api_key self; last_request_time := last_request_time self;
     consecutive_rate_limits := n |}.

(** [[
        self.current_key_index = (self.current_key_index + 1) % len(self.api_keys)
        self.api_key = self.api_keys[self.current_key_index]
    ]]
    [__init__] builds [api_keys] with two keys, so neither the
    remainder nor the indexing raises. *)
Definition _rotate_api_key (self : Fetcher) : Fetcher :=
  let i := ((current_key_index self + 1) mod length (api_keys self))%nat in
  {| api_keys := api_keys self; current_key_index := i;
     api_key := default EmptyString (api_keys self !! i);
     last_request_time := last_request_time self;
     consecutive_rate_limits := consecutive_rate_limits self |}.

(** Lines 36-45, with [min_request_interval = 1.0]. *)
Definition _rate_limit_wait (self : Fetcher) (w : World) : Fetcher * World :=
  let current_time := clock w in
  let time_since_last := current_time - last_request_time self in
  let w := if time_since_last <? 1000
           then time_sleep (1000 - time_since_last) w else w in
  (set_last_request_time (clock w) self, w).

(** [data.get('result')] *)
Inductive Result : Type :=
| Null
| Records (l : list Tx)
| Text (s : string).

Definition result_of (data : Body) : option Result :=
  match b_result data, b_block data with
  | Some (Some l), _ => Some (Records l)
  | Some None, _ => Some Null
  | None, Some s => Some (Text s)
  | None, None => None
  end.

(** [not transactions] *)
Definition is_empty (r : Result) : bool :=
  match r with
  | Null | Records [] | Text EmptyString => true
  | _ => false
  end.

(** [_make_request] (lines 47-125) for the [params] that
    [fetch_all_transactions] passes: page 1, offset 10000 and the
    block window.  [None] is the [None] of the source. *)
Definition _make_request (lower : string -> string) (self : Fetcher)
  (w : World) (startblock endblock : Z) : Fetcher * World * option Body :=
  let '(self, w) := _rate_limit_wait self w in
  let '(resp, w) :=
    requests_get (TokenTx startblock endblock (api_key self)) w in
  match resp with
  | NoResponse => (self, w, None)
  | Http status_code json =>
    if status_code =? 200 then
      match json with
      | None => (self, w, None)
      | Some data =>
        let status := b_status data in
        let message := default EmptyString (b_message data) in
        if bool_decide (status = Some "1" /\ message = "OK")
        then (set_consecutive_rate_limits 0 self, w, Some data)
        else if bool_decide (message = "No transactions found")
        then (self, w, Some (ok_body []))
        else if bool_decide (status = Some "0") then
          let error_msg := default "Unknown error" (b_message data) in
          if str_contains "rate limit" (lower error_msg)
             || str_contains "max rate" (lower error_msg)
          then
            let self := _rotate_api_key self in
            let n := S (consecutive_rate_limits self) in
            let self := set_consecutive_rate_limits n self in
            let wait_time := Z.min (5 * Z.of_nat n) 60 in
            (self, time_sleep (1000 * wait_time) w, None)
          else (self, w, None)
        else
          match result_of data with
          | Some _ => (self, w, Some data)
          | None => (self, w, None)
          end
      end
    else if status_code =? 429 then
      let n := S (consecutive_rate_limits self) in
      let self := set_consecutive_rate_limits n self in
      let wait_time := Z.min (30 * Z.of_nat n) 300 in
      (_rotate_api_key self, time_sleep (1000 * wait_time) w, None)
    else (self, w, None)
  end.

(** The [for attempt in range(3)] loop of [_get_current_block] (lines
    132-157); [None]: no attempt returned. *)
Fixpoint block_attempts (remaining attempt : nat) (self : Fetcher)
  (w : World) : World * option Z :=
  match remaining with
  | O => (w, None)
  | S remaining' =>
    let retry := block_attempts remaining' (S attempt) self in
    let '(resp, w) := requests_get (BlockNumber (api_key self)) w in
    match resp with
    | NoResponse => retry (time_sleep 5000 w)
    | Http status_code json =>
      if status_code =? 200 then
        match json with
        | None => retry (time_sleep 5000 w)
        | Some data =>
          if bool_decide (b_status data = Some "1") then
            match result_of data with
            | None => (w, Some 0)                 (* int('0x0', 16) *)
            | Some (Text block_hex) =>
              match py_int_base 16 block_hex with
              | Some b => (w, Some b)
              | None => retry (time_sleep 5000 w) (* ValueError *)
              end
            | Some (Records _) | Some Null =>
              retry (time_sleep 5000 w)           (* TypeError *)
            end
          else
            match result_of data with
            | Some (Text hex) =>
              match py_int_base 16 hex with
              | Some b => (w, Some b)
              | None => retry w                   (* except: pass *)
              end
            | _ => retry w
            end
        end
      else if status_code =? 429
      then retry (time_sleep (30000 * (Z.of_nat attempt + 1)) w)
      else retry w
    end
  end.

Definition _get_current_block (self : Fetcher) (w : World)
  : Fetcher * World * Z :=
  let '(self, w) := _rate_limit_wait self w in
  let '(w, found) := block_attempts 3 0 self w in
  (self, w, default 42000000 found).

Definition block_range : Z := 50000.

(** Lines 218-229: up to three calls of [_make_request] for one
    window. *)
Fixpoint request_with_retries (lower : string -> string)
  (remaining attempt : nat) (self : Fetcher) (w : World)
  (from_block to_block : Z) : Fetcher * World * option Body :=
  match remaining with
  | O => (self, w, None)
  | S remaining' =>
    let '(self, w, data) := _make_request lower self w from_block to_block in
    match data with
    | Some d => (self, w, Some d)
    | None =>
      if (attempt <? 3 - 1)%nat then
        let wait_time := Z.min ((Z.of_nat attempt + 1) * 10) 120 in
        request_with_retries lower remaining' (S attempt)
          (set_last_request_time 0 self) (time_sleep (1000 * wait_time) w)
          from_block to_block
      else
        request_with_retries lower remaining' (S attempt) self w
          from_block to_block
    end
  end.

(** [[
        last_tx_block = max(int(tx.get('blockNumber', 0))
                            for tx in all_transactions if tx.get('blockNumber'))
        blocks_ahead = to_block - last_tx_block
        if blocks_ahead > 200000:
    ]] *)
Definition far_ahead (all_transactions : list Tx) (to_block : Z) : res bool :=
  bs ← block_numbers all_transactions;
  last_tx_block ← py_max bs;
  Ok (200000 <? to_block - last_tx_block).

(** The write of the progress file (lines 318-326), which nothing
    catches: a disk that fails raises [OSError]. *)
Definition write_progress_file (w : World) : World * res unit :=
  match disk w (saves w) with
  | NoFault => (count_save w, Ok tt)
  | _ => (count_save w, Raise OSError)
  end.

(** The [while] loop of [fetch_all_transactions] (lines 203-336);
    [fuel] bounds its iterations, [None] means it ran out. *)
Fixpoint fetch_loop (lower : string -> string) (fuel : nat)
  (self : Fetcher) (w : World)
  (target_block absolute_max_block from_block : Z)
  (query_count consecutive_empty : nat) (all_transactions : list Tx)
  : option (Fetcher * World * res (list Tx)) :=
  match fuel with
  | O => None
  | S fuel' =>
    if negb ((from_block <? target_block)
             && (from_block <? absolute_max_block))
    then Some (self, w, Ok all_transactions)
    else if target_block + 100000 <? from_block
    then Some (self, w, Ok all_transactions)
    else
      let query_count := S query_count in
      let to_block :=
        Z.min (Z.min (from_block + block_range - 1) target_block)
              absolute_max_block in
      let '(self, w, data) :=
        request_with_retries lower 3 0 self w from_block to_block in
      match data with
      | None =>
        let w := time_sleep 120000 w in
        let self := set_last_request_time 0 self in
        let self := _rotate_api_key self in
        let from_block := to_block + 1 in
        let consecutive_empty := S consecutive_empty in
        if (20 <=? consecutive_empty)%nat
        then fetch_loop lower fuel' self (time_sleep 600000 w)
               target_block absolute_max_block from_block query_count 0
               all_transactions
        else fetch_loop lower fuel' self w
               target_block absolute_max_block from_block query_count
               consecutive_empty all_transactions
      | Some data =>
        let transactions := default (Records []) (result_of data) in
        if is_empty transactions then
          let consecutive_empty := S consecutive_empty in
          if (0 <? target_block) && (target_block <=? to_block)
          then Some (self, w, Ok all_transactions)
          else
            let stale :=
              match all_transactions with
              | _ :: _ =>
                if (50 <? consecutive_empty)%nat
                then far_ahead all_transactions to_block else Ok false
              | [] => Ok false
              end in
            match stale with
            | Raise e => Some (self, w, Raise e)
            | Ok true => Some (self, w, Ok all_transactions)
            | Ok false =>
              if (500 <=? consecutive_empty)%nat then
                let stale :=
                  match all_transactions with
                  | _ :: _ => far_ahead all_transactions to_block
                  | [] => Ok false
                  end in
                match stale with
                | Raise e => Some (self, w, Raise e)
                | Ok true => Some (self, w, Ok all_transactions)
                | Ok false =>
                  fetch_loop lower fuel' self w target_block
                    absolute_max_block (to_block + 1) query_count 0
                    all_transactions
                end
              else
                fetch_loop lower fuel' self w target_block
                  absolute_max_block (to_block + 1) query_count
                  consecutive_empty all_transactions
            end
        else
          let converted :=
            match transactions with
            | Records l => _convert_to_standard_format lower <$> l
            | Text _ => []       (* a character converts to [None] *)
            | Null => []         (* not reached: [None] is empty *)
            end in
          let all_transactions := all_transactions ++ converted in
          match last converted with
          | None =>
            fetch_loop lower fuel' self w target_block absolute_max_block
              (to_block + 1) query_count 0 all_transactions
          | Some last_tx =>
            match py_int (default "0" (last_tx !! "blockNumber")) with
            | Raise e => Some (self, w, Raise e)
            | Ok last_block =>
              let '(w, written) := write_progress_file w in
              match written with
              | Raise e => Some (self, w, Raise e)
              | Ok _ =>
                fetch_loop lower fuel' self w target_block
                  absolute_max_block (to_block + 1) query_count 0
                  all_transactions
              end
            end
          end
      end
  end.

(** The block a run of [fetch_all_transactions] aims at, and the one it
    starts from. *)
Definition target_of (end_block : option Z) (current_block : Z) : Z :=
  match end_block with
  | Some e => if e =? 0 then current_block else e
  | None => current_block
  end.

Definition first_block (start_block : Z) : Z :=
  if 0 <? start_block then start_block else 0.

Definition fetch_all_transactions (lower : string -> string) (fuel : nat)
  (self : Fetcher) (w : World) (start_block : Z) (end_block : option Z)
  : option (Fetcher * World * res (list Tx)) :=
  let '(self, w, current_block) := _get_current_block self w in
  let target_block := target_of end_block current_block in
  let from_block := first_block start_block in
  let absolute_max_block := Z.min 43000000 (target_block + 1) in
  fetch_loop lower fuel self w target_block absolute_max_block from_block
    0 0 [].

(** A request of the log asks for a window of the run from [first]
    towards [target]. *)
Definition window_query (first target : Z) (p : Z * Request) : Prop :=
  exists a b key,
    p.2 = TokenTx a b key /\ first <= a /\ a <= b /\ b <= target /\
    b < a + block_range /\ (a - first) mod block_range = 0.

End RoutescanNet.

(** ** The phases of a cycle *)

(** The variables of the gap loop when the cycle enters it. *)
Definition initial_batch (existing : list Tx) : Batch :=
  {| existing_txs := existing; new_transactions := [];
     existing_hashes := hashes_of existing |}.

(** The world in which the extension to the chain head starts: the
    status is written only when there is a block to fetch. *)
Definition extension_start (m head : Z) (w : World) : World :=
  if m <? head then update_status "fetching_new" (m + 1) head w else w.

(** The filter of the cycle applied to fetched records. *)
Definition add_fetched_records (txs : list Tx) (b : Batch) : Batch :=
  {| existing_txs := existing_txs b;
     new_transactions :=
       (add_new txs (new_transactions b) (existing_hashes b)).1;
     existing_hashes :=
       (add_new txs (new_transactions b) (existing_hashes b)).2 |}.

(** The cycle that starts in [(self, w)] gets as far as its final
    save: the checkpoint is [m], the gap loop ends without an
    exception, and the extension to the chain head is a traversal of
    the blocks from [m + 1] to the chain head, from the state the gap
    loop ends in to [(selfN, wN)], which prints [ls] and returns
    [txs]; [bN] holds the records the final save is handed. *)
Definition extends_to_head (fuel : nat) (self : Self) (w : World) (m : Z)
  (selfN : Self) (wN : World) (bN : Batch) (ls : list Line)
  (txs : list Tx) : Prop :=
  exists gaps selfG wG bG,
    identify_gaps (load_store w) = Ok gaps /\
    current_max_of (load_store w) = Ok m /\
    fill_gaps fuel gaps 0 (length gaps) m
      (set_gaps_remaining (length gaps) (get_current_block self w).1.1)
      (get_current_block self w).1.2 (initial_batch (load_store w))
      = Some (selfG, wG, Ok bG) /\
    traversal MAX_BLOCK_RANGE (m + 1) (chain_head self w)
      (selfG, extension_start m (chain_head self w) wG) (selfN, wN) ls txs /\
    bN = add_fetched_records txs bG.

(** What follows the extension: the final save and the decision. *)
Definition finish (bN : Batch) (head : Z) (wN : World)
  : World * res CycleEnd :=
  let '(wS, saved) := final_save wN bN in
  match saved with
  | Raise e => (wS, Raise e)
  | Ok final_txs => check_caught_up final_txs head wS
  end.

(* ================================================================== *)
(** * Part II. Properties                                              *)
(* ================================================================== *)

Example str_contains_examples :
  str_contains "No transactions found" "No transactions found" = true /\
  str_contains "No transactions found" "NOTOK: No transactions found." = true /\
  str_contains "No transactions found" "OK" = false /\
  str_contains "No transactions found" EmptyString = false.
Proof. vm_compute. repeat split; reflexivity. Qed.

Example py_int_examples :
  py_int "38699339" = Ok 38699339 /\ py_int " -1_000 " = Ok (-1000) /\
  py_int "1__0" = Raise ValueError /\ py_int "0x10" = Raise ValueError /\
  py_int_base 16 "0x26b1a0b" = Some 40573451 /\ py_int_base 16 "0x" = None.
Proof. vm_compute. repeat split; reflexivity. Qed.

(** Beyond ASCII: Arabic-Indic digits, a no-break space as padding, a
    full-width letter; and the limit on the number of digits, which
    base 16 does not have. *)
Example py_int_unicode_examples :
  py_int "٣٨٦٩٩٣٣٩" = Ok 38699339 /\
  py_int (String "194" (String "160" "42")) = Ok 42 /\
  py_int "ａ" = Raise ValueError /\
  py_int (String "028" "42") = Raise ValueError /\
  py_int (string_of_list_ascii (repeat "1"%char 4301)) = Raise ValueError /\
  within_limit 10 (repeat "1"%char 4300) = true /\
  within_limit 16 (repeat "1"%char 4301) = true.
Proof. vm_compute. repeat split; reflexivity. Qed.

(** ** Deduplication *)

Section Dedup.

Implicit Types (tx : Tx) (l : list Tx) (seen : gset string) (h : string).

Lemma hashes_of_nil : hashes_of [] = ∅.
Proof. reflexivity. Qed.

Lemma hashes_of_cons tx l :
  hashes_of (tx :: l) =
  match get_truthy tx "hash" with
  | Some h => {[ h ]} ∪ hashes_of l
  | None => hashes_of l
  end.
Proof. unfold hashes_of. simpl. by destruct (get_truthy tx "hash"). Qed.

Lemma hashes_of_app l1 l2 : hashes_of (l1 ++ l2) = hashes_of l1 ∪ hashes_of l2.
Proof. unfold hashes_of. rewrite omap_app. apply list_to_set_app_L. Qed.

Lemma keep_first_app seen l1 l2 :
  keep_first seen (l1 ++ l2) =
  keep_first seen l1 ++ keep_first (hashes_of l1 ∪ seen) l2.
Proof.
  revert seen. induction l1 as [|tx l1 IH]; intros seen.
  - simpl. rewrite hashes_of_nil. f_equal. set_solver.
  - rewrite hashes_of_cons. simpl.
    destruct (get_truthy tx "hash") as [h|]; [|apply IH].
    destruct (decide (h ∈ seen)) as [Hin|Hout].
    + rewrite IH. do 2 f_equal. set_solver.
    + simpl. rewrite IH. do 3 f_equal. set_solver.
Qed.

Lemma keep_first_covered seen l : hashes_of l ⊆ seen -> keep_first seen l = [].
Proof.
  induction l as [|tx l IH]; [done|].
  rewrite hashes_of_cons. simpl.
  destruct (get_truthy tx "hash") as [h|]; intros Hsub; [|by apply IH].
  destruct (decide (h ∈ seen)); [apply IH|]; set_solver.
Qed.

Lemma keep_first_idem seen l :
  keep_first seen (keep_first seen l) = keep_first seen l.
Proof.
  revert seen. induction l as [|tx l IH]; intros seen; [done|].
  simpl. destruct (get_truthy tx "hash") as [h|] eqn:Hh; [|apply IH].
  destruct (decide (h ∈ seen)) as [Hin|Hout]; [apply IH|].
  simpl. rewrite Hh. destruct (decide (h ∈ seen)); [done|].
  by rewrite IH.
Qed.

Lemma hashes_of_keep_first seen l :
  hashes_of (keep_first seen l) ∪ seen = hashes_of l ∪ seen.
Proof.
  revert seen. induction l as [|tx l IH]; intros seen; [done|].
  rewrite hashes_of_cons. simpl.
  destruct (get_truthy tx "hash") as [h|] eqn:Hh; [|apply IH].
  destruct (decide (h ∈ seen)) as [Hin|Hout].
  - rewrite IH. set_solver.
  - rewrite hashes_of_cons, Hh.
    specialize (IH ({[ h ]} ∪ seen)).
    revert IH. generalize (hashes_of (keep_first ({[ h ]} ∪ seen) l)).
    generalize (hashes_of l). clear. intros A B IH.
    apply set_eq. intros x. apply set_eq with (x := x) in IH.
    rewrite !elem_of_union in IH. rewrite !elem_of_union. tauto.
Qed.

Lemma keep_first_hashed seen l :
  Forall (fun tx => exists h, get_truthy tx "hash" = Some h /\ h ∉ seen)
         (keep_first seen l).
Proof.
  revert seen. induction l as [|tx l IH]; intros seen; [constructor|].
  simpl. destruct (get_truthy tx "hash") as [h|] eqn:Hh; [|apply IH].
  destruct (decide (h ∈ seen)) as [Hin|Hout]; [apply IH|].
  constructor; [eauto|].
  eapply Forall_impl; [apply IH|].
  intros tx' (h' & Hh' & Hn). exists h'. split; [done|set_solver].
Qed.

Lemma get_truthy_lookup tx h : get_truthy tx "hash" = Some h -> tx !! "hash" = Some h.
Proof.
  unfold get_truthy, truthy. destruct (tx !! "hash") as [[|a s]|]; congruence.
Qed.

Lemma keep_first_NoDup seen l :
  NoDup ((fun tx => tx !! "hash") <$> keep_first seen l).
Proof.
  revert seen. induction l as [|tx l IH]; intros seen; [constructor|].
  simpl. destruct (get_truthy tx "hash") as [h|] eqn:Hh; [|apply IH].
  destruct (decide (h ∈ seen)) as [Hin|Hout]; [apply IH|].
  simpl. constructor; [|apply IH].
  rewrite list_elem_of_fmap. intros (tx' & Heq & Hin').
  pose proof (keep_first_hashed ({[ h ]} ∪ seen) l) as Hall.
  rewrite Forall_forall in Hall.
  destruct (Hall _ Hin') as (h' & Hh' & Hn).
  apply get_truthy_lookup in Hh, Hh'.
  assert (h' = h) as -> by congruence.
  apply Hn, elem_of_union_l, elem_of_singleton_2. done.
Qed.

Lemma first_with_hash_hash h l tx :
  first_with_hash h l = Some tx -> get_truthy tx "hash" = Some h.
Proof.
  induction l as [|tx' l IH]; [done|]. simpl.
  destruct (decide (get_truthy tx' "hash" = Some h)); [congruence|done].
Qed.

Lemma keep_first_elem seen l tx :
  tx ∈ keep_first seen l <->
  exists h, (h ∉ seen) /\ first_with_hash h l = Some tx.
Proof.
  revert seen. induction l as [|tx' l IH]; intros seen.
  - simpl. split; [by intros ?%elem_of_nil|by intros (? & ? & ?)].
  - simpl. destruct (get_truthy tx' "hash") as [h'|] eqn:Hh'.
    + destruct (decide (h' ∈ seen)) as [Hin|Hout].
      * rewrite IH. split; intros (h & Hn & Hf); exists h; (split; [done|]).
        -- destruct (decide (Some h' = Some h)); [|done]. set_solver.
        -- destruct (decide (Some h' = Some h)); [|done]. set_solver.
      * rewrite elem_of_cons, IH. split.
        -- intros [->|(h & Hn & Hf)].
           ++ exists h'. split; [done|]. by rewrite decide_True.
           ++ exists h. split; [set_solver|].
              rewrite decide_False; [done|]. set_solver.
        -- intros (h & Hn & Hf).
           destruct (decide (Some h' = Some h)) as [Heq|Hne].
           ++ left. congruence.
           ++ right. exists h. split; [|done].
              assert (h' <> h) by congruence. set_solver.
    + rewrite IH. split; intros (h & Hn & Hf); exists h; (split; [done|]).
      * by rewrite decide_False.
      * by destruct (decide (None = Some h)).
Qed.

(** The dictionary loop of robust_backfill_v2.py computes [keep_first]. *)

Lemma contains_keys {V} (k : string) (d : PyDict.t V) :
  PyDict.contains k d = true <-> k ∈ PyDict.keys d.
Proof.
  induction d as [|[k' v] d IH]; simpl.
  - split; [done|by intros ?%elem_of_nil].
  - rewrite elem_of_cons. destruct (decide (k = k')); simpl; [tauto|].
    rewrite IH. tauto.
Qed.

Lemma setitem_fresh {V} (k : string) (v : V) (d : PyDict.t V) :
  PyDict.contains k d = false -> PyDict.setitem k v d = d ++ [(k, v)].
Proof.
  induction d as [|[k' v'] d IH]; simpl; [done|].
  destruct (decide (k = k')); [done|]. intros H. by rewrite IH.
Qed.

Lemma fold_dedup_step l (d : PyDict.t Tx) :
  PyDict.values (fold_left dedup_step l d) =
  PyDict.values d ++ keep_first (list_to_set (PyDict.keys d)) l.
Proof.
  revert d. induction l as [|tx l IH]; intros d; simpl.
  - by rewrite app_nil_r.
  - unfold dedup_step at 2.
    destruct (get_truthy tx "hash") as [h|]; [|apply IH].
    destruct (PyDict.contains h d) eqn:Hc.
    + apply contains_keys in Hc.
      rewrite decide_True by (by apply elem_of_list_to_set). apply IH.
    + assert (h ∉ PyDict.keys d) as Hn.
      { rewrite <- contains_keys. congruence. }
      rewrite decide_False by (by rewrite elem_of_list_to_set).
      rewrite IH, setitem_fresh by done.
      unfold PyDict.values, PyDict.keys. rewrite !fmap_app. simpl.
      rewrite <- app_assoc. simpl. do 3 f_equal.
      rewrite list_to_set_app_L. set_solver.
Qed.

Lemma deduplicate_keep_first l : deduplicate l = keep_first ∅ l.
Proof. unfold deduplicate. by rewrite fold_dedup_step. Qed.

(** So does the seen-set loop of routescan_fetcher.py. *)

Lemma fold_routescan_step l (st : RoutescanFetcher.dedup_state) :
  RoutescanFetcher.unique_transactions (fold_left RoutescanFetcher.step l st) =
  RoutescanFetcher.unique_transactions st
    ++ keep_first (RoutescanFetcher.seen_hashes st) l.
Proof.
  revert st. induction l as [|tx l IH]; intros st; simpl.
  - by rewrite app_nil_r.
  - rewrite IH. unfold RoutescanFetcher.step.
    destruct (get_truthy tx "hash") as [h|]; [|done].
    destruct (decide (h ∈ RoutescanFetcher.seen_hashes st)); simpl; [done|].
    by rewrite <- app_assoc.
Qed.

Lemma routescan_keep_first l :
  RoutescanFetcher.save_transactions l = keep_first ∅ l.
Proof. unfold RoutescanFetcher.save_transactions. by rewrite fold_routescan_step. Qed.

Lemma merge_keep_first l1 l2 : merge l1 l2 = keep_first ∅ (l1 ++ l2).
Proof. apply deduplicate_keep_first. Qed.

Lemma merge_again_same l1 l2 : merge (merge l1 l2) l2 = merge l1 l2.
Proof.
  rewrite !merge_keep_first. rewrite (keep_first_app _ (keep_first _ _)).
  rewrite keep_first_idem, hashes_of_keep_first.
  rewrite (keep_first_covered _ l2); [by rewrite app_nil_r|].
  rewrite hashes_of_app. set_solver.
Qed.

End Dedup.

(** ** Gap detection *)

Section Gaps.

Implicit Types (b p n : Z) (l blocks : list Z) (txs : list Tx).

Lemma elem_of_insert_sorted b x l : x ∈ insert_sorted b l <-> x = b \/ x ∈ l.
Proof.
  induction l as [|y l IH]; simpl.
  - rewrite list_elem_of_singleton. rewrite elem_of_nil. tauto.
  - destruct (Z.ltb_spec b y); [by rewrite elem_of_cons|].
    destruct (Z.eqb_spec b y) as [->|Hne].
    + rewrite elem_of_cons. tauto.
    + rewrite !elem_of_cons, IH. tauto.
Qed.

Lemma elem_of_sorted_set b l : b ∈ sorted_set l <-> b ∈ l.
Proof.
  induction l as [|x l IH]; simpl; [done|].
  rewrite elem_of_insert_sorted, elem_of_cons, IH. tauto.
Qed.

Lemma insert_sorted_sorted b l :
  StronglySorted Z.lt l -> StronglySorted Z.lt (insert_sorted b l).
Proof.
  induction 1 as [|y l Hs IH Hall]; simpl.
  - repeat constructor.
  - destruct (Z.ltb_spec b y) as [Hlt|Hge].
    + constructor; [by constructor|].
      constructor; [done|]. eapply Forall_impl; [exact Hall|]. simpl. lia.
    + destruct (Z.eqb_spec b y) as [->|Hne]; [by constructor|].
      constructor; [done|].
      rewrite Forall_forall. intros x [->|Hx]%elem_of_insert_sorted; [lia|].
      rewrite Forall_forall in Hall. by apply Hall.
Qed.

Lemma sorted_set_sorted l : StronglySorted Z.lt (sorted_set l).
Proof.
  induction l as [|x l IH]; simpl; [constructor|].
  by apply insert_sorted_sorted.
Qed.

Lemma block_numbers_elem txs bs b :
  block_numbers txs = Ok bs ->
  b ∈ bs <-> exists tx, tx ∈ txs /\ block_of tx = Some (Ok b).
Proof.
  revert bs. induction txs as [|tx txs IH]; intros bs; simpl.
  - intros [= <-]. split; [by intros ?%elem_of_nil|].
    by intros (? & ?%elem_of_nil & _).
  - destruct (block_of tx) as [[b0|e]|] eqn:Hb; simpl.
    + destruct (block_numbers txs) as [bs'|e]; simpl; [|done].
      intros [= <-]. rewrite elem_of_cons, (IH bs' eq_refl). split.
      * intros [->|(tx' & Hin & Hb')].
        -- exists tx. split; [left|done].
        -- exists tx'. split; [by right|done].
      * intros (tx' & [->|Hin]%elem_of_cons & Hb').
        -- left. congruence.
        -- right. eauto.
    + done.
    + intros Hbs. rewrite (IH bs Hbs). split.
      * intros (tx' & Hin & Hb'). exists tx'. split; [by right|done].
      * intros (tx' & [->|Hin]%elem_of_cons & Hb'); [congruence|eauto].
Qed.

Lemma internal_gaps_cons tolerance prev next rest :
  internal_gaps tolerance (prev :: next :: rest) =
  (if tolerance <? next - prev then [(prev + 1, Some (next - 1))] else [])
  ++ internal_gaps tolerance (next :: rest).
Proof. reflexivity. Qed.

Lemma internal_gaps_elem tolerance blocks (g : Gap) :
  g ∈ internal_gaps tolerance blocks <->
  exists p n, adjacent p n blocks /\ tolerance < n - p /\
              g = (p + 1, Some (n - 1)).
Proof.
  induction blocks as [|prev rest IH]; simpl.
  - split; [by intros ?%elem_of_nil|].
    intros (p & n & (l1 & l2 & Heq) & _). by destruct l1.
  - destruct rest as [|next rest'].
    + split; [by intros ?%elem_of_nil|].
      intros (p & n & (l1 & l2 & Heq) & _).
      destruct l1 as [|? [|? ?]]; discriminate.
    + rewrite elem_of_app, IH. split.
      * intros [Hhere|(p & n & (l1 & l2 & Heq) & Hgt & ->)].
        -- destruct (Z.ltb_spec tolerance (next - prev)) as [Hlt|];
             [|by apply elem_of_nil in Hhere].
           apply list_elem_of_singleton in Hhere as ->.
           exists prev, next. split; [by exists [], rest'|done].
        -- exists p, n. split; [|done].
           exists (prev :: l1), l2. by rewrite Heq.
      * intros (p & n & (l1 & l2 & Heq) & Hgt & ->).
        destruct l1 as [|x l1]; simpl in Heq.
        -- injection Heq as -> -> ->. left.
           destruct (Z.ltb_spec tolerance (n - p)); [|lia].
           by apply list_elem_of_singleton.
        -- injection Heq as -> Heq. right.
           exists p, n. split; [by exists l1, l2|done].
Qed.

Lemma adjacent_bounds p n blocks lowest :
  StronglySorted Z.lt (lowest :: blocks) -> adjacent p n blocks ->
  lowest < p /\ p < n.
Proof.
  intros Hs (l1 & l2 & ->).
  apply StronglySorted_inv in Hs as [Hs Hall].
  rewrite Forall_forall in Hall. split.
  - apply Hall. rewrite elem_of_app. right. left.
  - clear Hall. induction l1 as [|x l1 IH]; simpl in Hs.
    + apply StronglySorted_inv in Hs as [_ Hall].
      by apply Forall_cons in Hall as [? _].
    + apply StronglySorted_inv in Hs as [Hs _]. by apply IH.
Qed.

Lemma internal_gaps_sorted tolerance blocks :
  StronglySorted Z.lt blocks ->
  StronglySorted gap_before (internal_gaps tolerance blocks).
Proof.
  induction blocks as [|prev rest IH]; intros Hs; [constructor|].
  destruct rest as [|next rest']; [constructor|].
  rewrite internal_gaps_cons.
  apply StronglySorted_inv in Hs as [Hs Hall].
  specialize (IH Hs).
  destruct (Z.ltb_spec tolerance (next - prev)); [|exact IH].
  change ([?x] ++ ?l) with (x :: l).
  constructor; [exact IH|].
  rewrite Forall_forall. intros g (p & n & Hadj & _ & ->)%internal_gaps_elem.
  unfold gap_before. simpl.
  destruct Hadj as (l1 & l2 & Heq). destruct l1 as [|x l1]; simpl in Heq.
  - injection Heq as <- _. lia.
  - injection Heq as <- ->.
    apply StronglySorted_inv in Hs as [_ Hall'].
    rewrite Forall_forall in Hall'.
    assert (next < p); [|lia]. apply Hall'. rewrite elem_of_app. right. left.
Qed.

Lemma internal_gaps_above tolerance lowest rest (g : Gap) :
  StronglySorted Z.lt (lowest :: rest) ->
  g ∈ internal_gaps tolerance (lowest :: rest) -> lowest < g.1.
Proof.
  intros Hs (p & n & (l1 & l2 & Heq) & _ & ->)%internal_gaps_elem. simpl.
  destruct l1 as [|x l1]; simpl in Heq.
  - injection Heq as <- _. lia.
  - injection Heq as <- ->.
    apply StronglySorted_inv in Hs as [_ Hall].
    rewrite Forall_forall in Hall.
    assert (lowest < p); [|lia]. apply Hall. rewrite elem_of_app. right. left.
Qed.

End Gaps.

(** C3. Dedup idempotence of merge: for every store state and every
    fetched batch, merging the same batch into the store twice yields
    the store obtained by merging it once; no two records of the merged
    result carry the same transaction identifier; and a record is in
    the merged result exactly when it is the first record of
    [existing ++ batch] with its (non-empty) identifier, later
    occurrences and records without identifier being dropped.  The
    seen-set loop of routescan_fetcher.py computes the same list. *)
Theorem merge_idempotent_first_wins (existing batch : list Tx) :
  merge (merge existing batch) batch = merge existing batch /\
  NoDup ((fun tx => tx !! "hash") <$> merge existing batch) /\
  (forall tx, tx ∈ merge existing batch <->
     exists h, get_truthy tx "hash" = Some h /\
               first_with_hash h (existing ++ batch) = Some tx) /\
  merge existing batch = keep_first ∅ (existing ++ batch) /\
  RoutescanFetcher.save_transactions (existing ++ batch) = merge existing batch.
Proof.
  split; [apply merge_again_same|].
  rewrite routescan_keep_first, merge_keep_first.
  split; [apply keep_first_NoDup|].
  split; [|done].
  intros tx. rewrite keep_first_elem. split.
  - intros (h & _ & Hf). exists h. split; [|done].
    by eapply first_with_hash_hash.
  - intros (h & _ & Hf). exists h. split; [|done]. apply not_elem_of_empty.
Qed.

Lemma find_gaps_spec origin tolerance txs bs lowest rest :
  block_numbers txs = Ok bs ->
  sorted_set bs = lowest :: rest ->
  StronglySorted Z.lt (lowest :: rest) /\
  (forall b, b ∈ lowest :: rest <->
     exists tx, tx ∈ txs /\ block_of tx = Some (Ok b)) /\
  exists gaps,
    find_gaps origin tolerance txs = Ok gaps /\
    (forall g, g ∈ gaps <->
       (origin < lowest /\ g = (origin, Some (lowest - 1))) \/
       (exists p n, adjacent p n (lowest :: rest) /\ tolerance < n - p /\
                    g = (p + 1, Some (n - 1)))) /\
    StronglySorted gap_before gaps.
Proof.
  intros Hbs Hsorted.
  assert (StronglySorted Z.lt (lowest :: rest)) as Hs.
  { rewrite <- Hsorted. apply sorted_set_sorted. }
  split; [exact Hs|]. split.
  { intros b. rewrite <- Hsorted, elem_of_sorted_set.
    by apply block_numbers_elem. }
  unfold find_gaps. destruct txs as [|tx txs'].
  { simpl in Hbs. injection Hbs as <-. discriminate. }
  rewrite Hbs. unfold mbind, res_bind. cbv beta iota. rewrite Hsorted.
  eexists. split; [reflexivity|]. split.
  - intros g. rewrite elem_of_app, internal_gaps_elem.
    destruct (Z.ltb_spec origin lowest).
    + rewrite list_elem_of_singleton. split.
      * intros [->|?]; [by left|by right].
      * intros [[_ ->]|?]; [by left|by right].
    + rewrite elem_of_nil. split.
      * intros [[]|?]. by right.
      * intros [[? _]|?]; [lia|by right].
  - destruct (Z.ltb_spec origin lowest) as [Hlt|Hge];
      [|by apply internal_gaps_sorted].
    change ([?x] ++ ?l) with (x :: l).
    constructor; [by apply internal_gaps_sorted|].
    rewrite Forall_forall. intros g Hg.
    apply (internal_gaps_above _ _ _ _ Hs) in Hg.
    unfold gap_before. simpl. lia.
Qed.

Lemma block_numbers_total (txs : list Tx) :
  Forall (fun tx => exists b, block_of tx = Some (Ok b)) txs ->
  exists bs, block_numbers txs = Ok bs /\ length bs = length txs.
Proof.
  induction 1 as [|tx txs (b & Hb) _ (bs & Hbs & Hlen)]; simpl.
  - by exists [].
  - rewrite Hb, Hbs. simpl. exists (b :: bs). simpl. by rewrite Hlen.
Qed.

(** C4. Gap detection: for every non-empty set of records (each with
    its block number), [identify_gaps] returns a list of gaps such
    that, [lowest :: rest] being the distinct block numbers present in
    ascending order, the list holds the leading gap
    [(origin, lowest - 1)] exactly when [lowest] exceeds the origin
    block, holds [(prev + 1, next - 1)] exactly for the consecutive
    observed blocks [prev], [next] that lie more than the tolerance
    (1000) apart, and is in ascending order.  Records at blocks 1000,
    1001 and 4000 give the single gap [(1002, 3999)], with the
    source's origin and tolerance as well as with origin 1000 and
    tolerance 500. *)
Theorem identify_gaps_spec (txs : list Tx) :
  txs <> [] ->
  Forall (fun tx => exists b, block_of tx = Some (Ok b)) txs ->
  (exists lowest rest gaps,
     StronglySorted Z.lt (lowest :: rest) /\
     (forall b, b ∈ lowest :: rest <->
        exists tx, tx ∈ txs /\ block_of tx = Some (Ok b)) /\
     identify_gaps txs = Ok gaps /\
     (forall g, g ∈ gaps <->
        (TOKEN_START_BLOCK < lowest /\
         g = (TOKEN_START_BLOCK, Some (lowest - 1))) \/
        (exists prev next, adjacent prev next (lowest :: rest) /\
                     1000 < next - prev /\
                     g = (prev + 1, Some (next - 1)))) /\
     StronglySorted gap_before gaps) /\
  identify_gaps sample_store = Ok [(1002, Some 3999)] /\
  find_gaps 1000 500 sample_store = Ok [(1002, Some 3999)].
Proof.
  intros Hne Hall. split.
  - destruct (block_numbers_total txs Hall) as (bs & Hbs & Hlen).
    destruct (sorted_set bs) as [|lowest rest] eqn:Hsorted.
    { destruct bs as [|b bs]; [by destruct txs|].
      assert (b ∈ sorted_set (b :: bs)) as Hb
        by (apply elem_of_sorted_set; left).
      rewrite Hsorted in Hb. by apply elem_of_nil in Hb. }
    destruct (find_gaps_spec TOKEN_START_BLOCK 1000 txs bs lowest rest
                Hbs Hsorted) as (Hs & Hblocks & gaps & Hrun & Hgaps & Hord).
    by exists lowest, rest, gaps.
  - split.
    + vm_cast_no_check (@eq_refl _ (@Ok (list Gap) [(1002, Some 3999)])).
    + vm_cast_no_check (@eq_refl _ (@Ok (list Gap) [(1002, Some 3999)])).
Qed.

Lemma identify_gaps_spec_witness :
  sample_store <> [] /\
  Forall (fun tx => exists b, block_of tx = Some (Ok b)) sample_store /\
  exists gaps, identify_gaps sample_store = Ok gaps /\
               StronglySorted gap_before gaps.
Proof.
  assert (sample_store <> []) as H1 by discriminate.
  assert (Forall (fun tx => exists b, block_of tx = Some (Ok b)) sample_store)
    as H2.
  { repeat constructor.
    - exists 1000. vm_cast_no_check (@eq_refl _ (Some (@Ok Z 1000))).
    - exists 1001. vm_cast_no_check (@eq_refl _ (Some (@Ok Z 1001))).
    - exists 4000. vm_cast_no_check (@eq_refl _ (Some (@Ok Z 4000))). }
  split; [exact H1|]. split; [exact H2|].
  destruct (identify_gaps_spec sample_store H1 H2)
    as [(lowest & rest & gaps & _ & _ & Hg & _ & Hord) _].
  exists gaps. split; assumption.
Defined.

(** A store none of whose records carries a block number: the list of
    observed blocks is empty and [blocks[0]] raises. *)
Example identify_gaps_without_blocks :
  identify_gaps [{[ "hash" := "0xa" ]}] = Raise IndexError.
Proof. vm_cast_no_check (@eq_refl (res (list Gap)) (Raise IndexError)). Qed.

(** ** The adaptive window fetcher *)

Section Fetcher.

Implicit Types (self : Self) (w : World) (s e r : Z) (fuel : nat).

(** What the request layer leaves alone. *)

Lemma requests_get_frame req w resp w' :
  requests_get req w = (resp, w') ->
  lines w' = lines w /\ statuses w' = statuses w /\ fs w' = fs w /\
  disk w' = disk w /\ saves w' = saves w /\ provider w' = provider w /\
  clock w <= clock w'.
Proof.
  unfold requests_get. destruct (provider w (served w) req) as [resp0 lat].
  intros [= <- <-]. simpl. repeat split; lia.
Qed.

Lemma backoff_frame attempt w :
  lines (backoff attempt w) = lines w /\
  statuses (backoff attempt w) = statuses w /\
  fs (backoff attempt w) = fs w /\ disk (backoff attempt w) = disk w /\
  saves (backoff attempt w) = saves w /\
  provider (backoff attempt w) = provider w /\
  clock w <= clock (backoff attempt w).
Proof.
  unfold backoff. destruct (attempt <? max_retries - 1)%nat; simpl;
    repeat split; lia.
Qed.

Lemma request_attempts_frame remaining attempt params start_block self w
    self' w' results :
  request_attempts remaining attempt params start_block self w
    = (self', w', results) ->
  lines w' = lines w /\ statuses w' = statuses w /\ fs w' = fs w /\
  disk w' = disk w /\ saves w' = saves w /\ provider w' = provider w /\
  clock w <= clock w' /\
  last_request_time self' = last_request_time self.
Proof.
  revert attempt self w.
  induction remaining as [|remaining IH]; intros attempt self w; simpl.
  - intros [= <- <- <-]. repeat split; lia.
  - destruct (requests_get params w) as [resp w1] eqn:Hget.
    apply requests_get_frame in Hget
      as (Hl & Hst & Hfs & Hd & Hsv & Hp & Hc).
    pose proof (backoff_frame attempt w1) as (Bl & Bst & Bfs & Bd & Bsv & Bp & Bc).
    destruct resp as [|code json].
    { intros H. apply IH in H as (-> & -> & -> & -> & -> & -> & ? & ->).
      simpl. repeat split; try congruence; lia. }
    destruct (code =? 429).
    { intros H. apply IH in H as (-> & -> & -> & -> & -> & -> & ? & ->).
      simpl in *. repeat split; try congruence; lia. }
    destruct (code =? 200).
    2:{ intros H. apply IH in H as (-> & -> & -> & -> & -> & -> & ? & ->).
        simpl. repeat split; try congruence; lia. }
    destruct json as [data|].
    2:{ intros H. apply IH in H as (-> & -> & -> & -> & -> & -> & ? & ->).
        simpl. repeat split; try congruence; lia. }
    destruct (bool_decide _).
    { intros [= <- <- <-]. simpl. repeat split; try congruence; lia. }
    destruct (str_contains _ _).
    { intros [= <- <- <-]. simpl. repeat split; try congruence; lia. }
    destruct (b_rate_limit data).
    { intros H. apply IH in H as (-> & -> & -> & -> & -> & -> & ? & ->).
      simpl in *. repeat split; try congruence; lia. }
    intros [= <- <- <-]. simpl. repeat split; try congruence; lia.
Qed.

Lemma rate_limit_wait_frame self w self' w' :
  _rate_limit_wait self w = (self', w') ->
  lines w' = lines w /\ statuses w' = statuses w /\ fs w' = fs w /\
  disk w' = disk w /\ saves w' = saves w /\ provider w' = provider w /\
  requests w' = requests w /\ served w' = served w /\
  clock w <= clock w'.
Proof.
  unfold _rate_limit_wait. intros [= <- <-].
  destruct (Z.ltb_spec (clock w - last_request_time self) 1000); simpl;
    repeat split; lia.
Qed.

Lemma make_request_frame self w s e self' w' results :
  _make_request self w s e = (self', w', results) ->
  lines w' = lines w /\ statuses w' = statuses w /\ fs w' = fs w /\
  disk w' = disk w /\ saves w' = saves w /\ provider w' = provider w /\
  clock w <= clock w'.
Proof.
  unfold _make_request.
  destruct (_rate_limit_wait self w) as [self1 w1] eqn:Hwait.
  apply rate_limit_wait_frame in Hwait
    as (Hl & Hst & Hfs & Hd & Hsv & Hp & _ & _ & Hc).
  intros H. apply request_attempts_frame in H
    as (-> & -> & -> & -> & -> & -> & ? & _).
  repeat split; try congruence; lia.
Qed.

(** Fuel. *)

Lemma halvings_halve r :
  MIN_BLOCK_RANGE < r ->
  (halvings (Z.max (r / 2) MIN_BLOCK_RANGE) < halvings r)%nat.
Proof.
  unfold halvings, MIN_BLOCK_RANGE. intros Hr.
  destruct (Z.ltb_spec 100 r); [|lia].
  destruct (Z.ltb_spec 100 (Z.max (r / 2) 100)); [|lia].
  assert (Z.max (r / 2) 100 = r / 2) as -> by lia.
  assert (r / 2 = Z.shiftr r 1) as ->.
  { rewrite Z.shiftr_div_pow2 by lia. reflexivity. }
  rewrite Z.log2_shiftr by lia.
  assert (6 <= Z.log2 r).
  { change 6 with (Z.log2 100). apply Z.log2_le_mono. lia. }
  lia.
Qed.

Lemma fetch_fuel_next s e r :
  s <= e -> 0 < r ->
  (fetch_fuel (window_end s e r + 1) e r < fetch_fuel s e r)%nat.
Proof.
  unfold fetch_fuel, window_end. intros Hse Hr.
  assert (Z.to_nat (e - (Z.min (s + r - 1) e + 1) + 1)
          < Z.to_nat (e - s + 1))%nat by lia.
  nia.
Qed.

Lemma fetch_fuel_halve s e r :
  s <= e -> MIN_BLOCK_RANGE < r ->
  (fetch_fuel s (window_end s e r) (Z.max (r / 2) MIN_BLOCK_RANGE)
   < fetch_fuel s e r)%nat.
Proof.
  unfold fetch_fuel, window_end. intros Hse Hr.
  pose proof (halvings_halve r Hr).
  assert (Z.to_nat (Z.min (s + r - 1) e - s + 1)
          <= Z.to_nat (e - s + 1))%nat by lia.
  nia.
Qed.

Lemma fetch_range_returns fuel self w s e r :
  0 < r -> (fetch_fuel s e r <= fuel)%nat ->
  is_Some (fetch_range fuel self w s e r).
Proof.
  revert self w s e r.
  induction fuel as [|fuel IH]; intros self w s e r Hr Hfuel.
  { unfold fetch_fuel in Hfuel. nia. }
  simpl. destruct (Z.ltb_spec e s) as [Hlt|Hle]; [eauto|].
  fold (window_end s e r).
  pose proof (fetch_fuel_next s e r Hle Hr) as Hnext.
  destruct (_make_request _ _ _ _) as [[self1 w1] [results|]].
  2:{ apply IH; [done|lia]. }
  assert (forall self2 w2 (txs : list Tx),
    is_Some ('(self3, w3, more) ←
       fetch_range fuel self2 w2 (window_end s e r + 1) e r;
       Some (self3, w3, txs ++ more))) as Hmore.
  { intros self2 w2 txs.
    destruct (IH self2 w2 (window_end s e r + 1) e r Hr) as [[[? ?] ?] ->];
      [lia|]. simpl. eauto. }
  destruct (capped (length results)); [|apply Hmore].
  destruct (Z.ltb_spec MIN_BLOCK_RANGE r) as [Hbig|Hsmall]; [|apply Hmore].
  pose proof (fetch_fuel_halve s e r Hle Hbig) as Hhalve.
  match goal with |- is_Some (mbind _ (fetch_range fuel ?a ?b ?c ?d ?f)) =>
    destruct (IH a b c d f) as [[[self2 w2] sub] ->] end.
  { unfold MIN_BLOCK_RANGE. lia. }
  { lia. }
  simpl. apply Hmore.
Qed.

Lemma fetch_range_more_fuel fuel fuel' self w s e r x :
  fetch_range fuel self w s e r = Some x -> (fuel <= fuel')%nat ->
  fetch_range fuel' self w s e r = Some x.
Proof.
  revert fuel' self w s e r x.
  induction fuel as [|fuel IH]; intros fuel' self w s e r x; [done|].
  intros H Hle. destruct fuel' as [|fuel']; [lia|].
  assert (fuel <= fuel')%nat as Hle' by lia.
  simpl in *. destruct (e <? s); [done|].
  destruct (_make_request _ _ _ _) as [[self1 w1] [results|]].
  2:{ by eapply IH. }
  assert (forall self2 w2 (txs : list Tx),
    ('(self3, w3, more) ←
       fetch_range fuel self2 w2 (Z.min (s + r - 1) e + 1) e r;
       Some (self3, w3, txs ++ more)) = Some x ->
    ('(self3, w3, more) ←
       fetch_range fuel' self2 w2 (Z.min (s + r - 1) e + 1) e r;
       Some (self3, w3, txs ++ more)) = Some x) as Hmore.
  { intros self2 w2 txs Hx.
    destruct (fetch_range fuel self2 w2 _ e r) as [y|] eqn:Hy; [|done].
    by rewrite (IH _ _ _ _ _ _ _ Hy Hle'). }
  destruct (capped (length results)); [|by apply Hmore].
  destruct (MIN_BLOCK_RANGE <? r); [|by apply Hmore].
  destruct (fetch_range fuel self1 _ s _ _) as [[[self2 w2] sub]|] eqn:Hsub;
    [|done].
  rewrite (IH _ _ _ _ _ _ _ Hsub Hle'). simpl in *. by apply Hmore.
Qed.

(** The lines printed, and the size of the result. *)

Lemma fetch_range_lines fuel self w s e r self' w' txs :
  fetch_range fuel self w s e r = Some (self', w', txs) ->
  exists ls, lines w' = lines w ++ ls /\ windows r s e ls /\
             length txs = accepted ls.
Proof.
  revert self w s e r self' w' txs.
  induction fuel as [|fuel IH]; intros self w s e r self' w' txs; [done|].
  simpl. destruct (Z.ltb_spec e s) as [Hlt|Hle].
  { intros [= <- <- <-]. exists []. rewrite app_nil_r.
    split; [done|]. split; [by constructor|done]. }
  fold (window_end s e r).
  destruct (_make_request _ _ _ _) as [[self1 w1] results] eqn:Hreq.
  apply make_request_frame in Hreq as (Hl & _).
  simpl in Hl.
  assert (forall self2 w2 o (batch : list Tx),
    lines w2 = lines w ++ [line s (window_end s e r) o] ->
    ('(self3, w3, more) ←
       fetch_range fuel self2 w2 (window_end s e r + 1) e r;
       Some (self3, w3, batch ++ more)) = Some (self', w', txs) ->
    exists ls more, lines w' = lines w ++ line s (window_end s e r) o :: ls /\
               windows r (window_end s e r + 1) e ls /\
               txs = batch ++ more /\ length more = accepted ls) as Hmore.
  { intros self2 w2 o batch Hw2 Hx.
    destruct (fetch_range fuel self2 w2 _ e r) as [[[self3 w3] more]|] eqn:Hy;
      [|done].
    simpl in Hx. injection Hx as <- <- <-.
    apply IH in Hy as (ls & Hls & Hwin & Hlen).
    exists ls, more. rewrite Hls, Hw2, <- app_assoc. done. }
  destruct results as [results|].
  2:{ intros H. apply IH in H as (ls & Hls & Hwin & Hlen).
      exists (line s (window_end s e r) Failed :: ls).
      simpl in Hls. rewrite Hl, <- app_assoc in Hls.
      split; [done|]. split; [by constructor|done]. }
  destruct (capped (length results)) eqn:Hcap.
  2:{ intros H. apply (Hmore _ _ (Fetched (length results))) in H
        as (ls & more & Hls & Hwin & -> & Hlen).
      2:{ simpl. by rewrite Hl. }
      eexists. split; [exact Hls|]. split; [by constructor|].
      rewrite length_app. simpl. lia. }
  destruct (Z.ltb_spec MIN_BLOCK_RANGE r) as [Hbig|Hsmall].
  2:{ intros H. apply (Hmore _ _ (AtMinimum (length results))) in H
        as (ls & more & Hls & Hwin & -> & Hlen).
      2:{ simpl. by rewrite Hl. }
      eexists. split; [exact Hls|]. split; [by constructor|].
      rewrite length_app. simpl. lia. }
  destruct (fetch_range fuel self1 _ s _ _) as [[[self2 w2] sub]|] eqn:Hsub;
    [|done].
  apply IH in Hsub as (ls1 & Hls1 & Hwin1 & Hlen1).
  simpl in Hls1. rewrite Hl in Hls1.
  intros H. simpl in H.
  destruct (fetch_range fuel _ w2 _ e r) as [[[self3 w3] more]|] eqn:Hy;
    [|done].
  simpl in H. injection H as <- <- <-.
  apply IH in Hy as (ls2 & Hls2 & Hwin2 & Hlen2).
  exists (line s (window_end s e r)
            (HitLimit (length results) (Z.max (r / 2) MIN_BLOCK_RANGE))
          :: ls1 ++ ls2).
  split.
  { rewrite Hls2, Hls1, <- !app_assoc. done. }
  split; [by constructor|].
  rewrite length_app. simpl.
  assert (forall l1 l2, accepted (l1 ++ l2) = (accepted l1 + accepted l2)%nat)
    as Happ.
  { clear. induction l1 as [|l l1 IH]; intros l2; [done|]. simpl.
    rewrite IH. destruct (line_outcome l); lia. }
  rewrite Happ. lia.
Qed.

End Fetcher.

Lemma windows_lines r s e ls :
  windows r s e ls ->
  Forall (fun l =>
    match line_outcome l with
    | Fetched n => capped n = false
    | AtMinimum n =>
      capped n = true /\ line_end l - line_start l + 1 <= MIN_BLOCK_RANGE
    | HitLimit n new_range =>
      capped n = true /\ MIN_BLOCK_RANGE <= new_range
    | Failed => True
    end) ls.
Proof.
  induction 1 as [| | | r s e n ls Hse Hcap Hr _ IH
                  | r s e n sub ls Hse Hcap Hr _ IH1 _ IH2];
    try (constructor; simpl; by eauto).
  - constructor; [|done]. simpl. split; [done|]. unfold window_end. lia.
  - constructor; [simpl; split; [done|lia]|].
    by apply Forall_app.
Qed.

Lemma requeried_app ls1 ls2 :
  requeried ls1 -> requeried ls2 -> requeried (ls1 ++ ls2).
Proof.
  induction ls1 as [|a ls1 IH]; [done|].
  intros [Ha H1] H2. split; [|by apply IH].
  destruct (line_outcome a); try done. by destruct ls1.
Qed.

Lemma windows_requeried r s e ls :
  0 < r -> windows r s e ls -> requeried ls.
Proof.
  intros Hr Hwin. revert Hr.
  induction Hwin as [| | | | r s e n sub ls Hse Hcap Hbig Hsub IH1 _ IH2];
    intros Hr; try (split; by auto).
  assert (0 < Z.max (r / 2) MIN_BLOCK_RANGE) as Hr'
    by (unfold MIN_BLOCK_RANGE; lia).
  split; [|apply requeried_app; auto].
  cbn [line line_outcome line_start line_end].
  assert (s <= window_end s e r) as Hle by (unfold window_end; lia).
  inversion Hsub; subst; try lia; simpl; done.
Qed.

(** [fetch_range] walks its interval as [traversal] says. *)

Lemma fetch_range_traversal fuel (self : Self) (w : World) s e r self' w' txs :
  fetch_range fuel self w s e r = Some (self', w', txs) ->
  exists ls, traversal r s e (self, w) (self', w') ls txs.
Proof.
  revert self w s e r self' w' txs.
  induction fuel as [|fuel IH]; intros self w s e r self' w' txs; [done|].
  simpl. destruct (Z.ltb_spec e s) as [Hlt|Hle].
  { intros [= <- <- <-]. exists []. by constructor. }
  fold (window_end s e r).
  destruct (_make_request _ _ _ _) as [[self1 w1] results] eqn:Hreq.
  destruct results as [results|].
  2:{ intros (ls & Ht)%IH. eexists. by eapply traversal_failed. }
  destruct (capped (length results)) eqn:Hcap.
  2:{ destruct (fetch_range fuel _ _ _ e r) as [[[self3 w3] more]|] eqn:Hy;
        [|done].
      simpl. intros [= <- <- <-]. apply IH in Hy as (ls & Ht).
      eexists. by eapply traversal_fetched. }
  destruct (Z.ltb_spec MIN_BLOCK_RANGE r) as [Hbig|Hsmall].
  2:{ destruct (fetch_range fuel _ _ _ e r) as [[[self3 w3] more]|] eqn:Hy;
        [|done].
      simpl. intros [= <- <- <-]. apply IH in Hy as (ls & Ht).
      eexists. by eapply traversal_at_minimum. }
  destruct (fetch_range fuel self1 _ s _ _) as [[[self2 w2] sub]|] eqn:Hsub;
    [|done].
  simpl.
  destruct (fetch_range fuel _ w2 _ e r) as [[[self3 w3] more]|] eqn:Hy;
    [|done].
  simpl. intros [= <- <- <-].
  apply IH in Hsub as (ls1 & Ht1). apply IH in Hy as (ls2 & Ht2).
  eexists. by eapply traversal_hit_limit.
Qed.

Lemma traversal_lines r s e x x' ls txs :
  traversal r s e x x' ls txs ->
  lines x'.2 = lines x.2 ++ ls /\ windows r s e ls /\
  length txs = accepted ls.
Proof.
  assert (forall l1 l2, accepted (l1 ++ l2) = (accepted l1 + accepted l2)%nat)
    as Happ.
  { induction l1 as [|l l1 IH]; intros l2; [done|]. simpl.
    rewrite IH. destruct (line_outcome l); lia. }
  induction 1 as [r s e x Hlt
    | r s e self w self1 w1 x' ls txs Hle Hreq _ (IHl & IHw & IHa)
    | r s e self w self1 w1 results x' ls txs Hle Hreq Hcap _ (IHl & IHw & IHa)
    | r s e self w self1 w1 results x' ls txs Hle Hreq Hcap Hsmall _
        (IHl & IHw & IHa)
    | r s e self w self1 w1 results self2 w2 sub_ls sub x' ls txs Hle Hreq
        Hcap Hbig _ (IH1l & IH1w & IH1a) _ (IH2l & IH2w & IH2a)].
  - rewrite app_nil_r. split; [done|]. split; [by constructor|done].
  - apply make_request_frame in Hreq as (Hl & _). simpl in *.
    rewrite IHl, Hl, <- app_assoc. split; [done|].
    split; [by constructor|done].
  - apply make_request_frame in Hreq as (Hl & _). simpl in *.
    rewrite IHl, Hl, <- app_assoc. split; [done|].
    split; [by constructor|]. rewrite length_app. lia.
  - apply make_request_frame in Hreq as (Hl & _). simpl in *.
    rewrite IHl, Hl, <- app_assoc. split; [done|].
    split; [by constructor|]. rewrite length_app. lia.
  - apply make_request_frame in Hreq as (Hl & _). simpl in *.
    rewrite IH2l, IH1l, Hl, <- !app_assoc. split; [done|].
    split; [by constructor|]. rewrite length_app, Happ. lia.
Qed.

(** C2. Cap handling in the adaptive window fetcher: [fetch_range]
    returns (given a positive window size and enough fuel), and what it
    does is a [traversal] of the target interval: every window is
    asked for once, and an answer whose count is at or within 10 of
    the cap, at a window size above the minimum, is discarded -- its
    records are not part of the result -- and the same window is
    walked again from the same start cursor with the window size
    halved (not below the minimum); the records of an answer are taken
    into the result only when its count is below the cap margin or,
    flagged, at the minimum window size.  The lines printed are those
    of the traversal: a line that reports a hit limit is directly
    followed by the query from the same start, and the result holds
    exactly as many records as the batches reported as taken. *)
Theorem fetch_range_cap_handling (fuel : nat) (self : Self) (w : World)
    (s e r : Z) :
  0 < r -> (fetch_fuel s e r <= fuel)%nat ->
  exists self' w' txs ls,
    fetch_range fuel self w s e r = Some (self', w', txs) /\
    traversal r s e (self, w) (self', w') ls txs /\
    lines w' = lines w ++ ls /\
    windows r s e ls /\
    length txs = accepted ls /\
    requeried ls /\
    Forall (fun l =>
      match line_outcome l with
      | Fetched n => capped n = false
      | AtMinimum n =>
        capped n = true /\ line_end l - line_start l + 1 <= MIN_BLOCK_RANGE
      | HitLimit n new_range =>
        capped n = true /\ MIN_BLOCK_RANGE <= new_range
      | Failed => True
      end) ls.
Proof.
  intros Hr Hfuel.
  destruct (fetch_range_returns fuel self w s e r Hr Hfuel)
    as [[[self' w'] txs] Hrun].
  destruct (fetch_range_traversal _ _ _ _ _ _ _ _ _ Hrun) as (ls & Htrav).
  destruct (traversal_lines _ _ _ _ _ _ _ Htrav) as (Hls & Hwin & Hlen).
  exists self', w', txs, ls.
  split; [done|]. split; [done|]. split; [done|]. split; [done|].
  split; [done|].
  split; [by eapply windows_requeried|by eapply windows_lines].
Qed.

(** The design document's cap-correctness scenario: the provider
    answers the wide window with a count at the cap margin and each
    half with two records. *)
Lemma fetch_range_cap_handling_witness :
  0 < MAX_BLOCK_RANGE /\
  (fetch_fuel 1 5000 MAX_BLOCK_RANGE
     <= fetch_fuel 1 5000 MAX_BLOCK_RANGE)%nat /\
  exists self' w' txs ls,
    fetch_range (fetch_fuel 1 5000 MAX_BLOCK_RANGE) init_self dense_world
      1 5000 MAX_BLOCK_RANGE = Some (self', w', txs) /\
    traversal MAX_BLOCK_RANGE 1 5000 (init_self, dense_world) (self', w')
      ls txs /\
    ls = [line 1 5000 (HitLimit 9990 2500);
          line 1 2500 (Fetched 2); line 2501 5000 (Fetched 2)] /\
    txs = [record "0xa" "1"; record "0xb" "2";
           record "0xa" "1"; record "0xb" "2"].
Proof.
  assert (0 < MAX_BLOCK_RANGE) as H1 by (unfold MAX_BLOCK_RANGE; lia).
  assert (fetch_fuel 1 5000 MAX_BLOCK_RANGE
            <= fetch_fuel 1 5000 MAX_BLOCK_RANGE)%nat as H2 by apply le_n.
  split; [exact H1|]. split; [exact H2|].
  destruct (fetch_range_cap_handling _ init_self dense_world 1 5000
              MAX_BLOCK_RANGE H1 H2)
    as (self' & w' & txs & ls & Hrun & Htrav & Hls & _).
  exists self', w', txs, ls. split; [exact Hrun|]. split; [exact Htrav|].
  assert ((fun x => (x.2, lines x.1.2)) <$>
            fetch_range (fetch_fuel 1 5000 MAX_BLOCK_RANGE) init_self
              dense_world 1 5000 MAX_BLOCK_RANGE
          = Some ([record "0xa" "1"; record "0xb" "2";
                   record "0xa" "1"; record "0xb" "2"],
                  [line 1 5000 (HitLimit 9990 2500);
                   line 1 2500 (Fetched 2); line 2501 5000 (Fetched 2)]))
    as Hvalue.
  { vm_compute. reflexivity. }
  rewrite Hrun in Hvalue. cbn [fmap option_fmap option_map fst snd] in Hvalue.
  rewrite Hls in Hvalue. cbn [lines dense_world make_world app] in Hvalue.
  injection Hvalue as -> ->. split; reflexivity.
Defined.

(** The design document's cap-correctness scenario, run: the capped
    answer for the wide window is dropped, the window is halved once,
    and only the two uncapped batches make up the result. *)
Example cap_correctness_run :
  (fun x => (x.2, lines x.1.2)) <$>
    fetch_range 10 init_self dense_world 1 5000 MAX_BLOCK_RANGE
  = Some ([record "0xa" "1"; record "0xb" "2";
           record "0xa" "1"; record "0xb" "2"],
          [line 1 5000 (HitLimit 9990 2500);
           line 1 2500 (Fetched 2); line 2501 5000 (Fetched 2)]).
Proof. vm_compute. reflexivity. Qed.

(** ** Abandoned windows and the gap detector *)

Section Recovery.

Implicit Types (b p n : Z) (blocks : list Z).

Lemma adjacent_iff blocks p n :
  StronglySorted Z.lt blocks ->
  adjacent p n blocks <->
  p ∈ blocks /\ n ∈ blocks /\ p < n /\
  forall b, b ∈ blocks -> b <= p \/ n <= b.
Proof.
  intros Hs. split.
  - intros (l1 & l2 & ->).
    assert (Forall (fun x => x < p) l1) as Hbelow.
    { rewrite Forall_forall. intros x Hx.
      apply (StronglySorted_app_1_elem_of _ _ _ _ _ Hs); [done|left]. }
    apply StronglySorted_app_1_r in Hs.
    apply StronglySorted_inv in Hs as [Hs Hp].
    apply StronglySorted_inv in Hs as [_ Hn].
    rewrite Forall_forall in Hbelow, Hp, Hn.
    assert (p < n) by (apply Hp; left).
    repeat split; [set_solver|set_solver|done|].
    intros b [Hb|[->|[->|Hb]%elem_of_cons]%elem_of_cons]%elem_of_app.
    + left. apply Hbelow in Hb. lia.
    + lia.
    + lia.
    + right. apply Hn in Hb. lia.
  - intros (Hp & Hn & Hlt & Hbetween).
    induction blocks as [|x blocks IH]; [by apply elem_of_nil in Hp|].
    apply StronglySorted_inv in Hs as [Hs Hall].
    rewrite Forall_forall in Hall.
    apply elem_of_cons in Hp as [->|Hp].
    + apply elem_of_cons in Hn as [->|Hn]; [lia|].
      destruct blocks as [|y blocks']; [by apply elem_of_nil in Hn|].
      assert (y = n) as ->.
      { assert (x < y) by (apply Hall; left).
        destruct (Hbetween y) as [?|?]; [right; left|lia|].
        apply elem_of_cons in Hn as [->|Hn]; [done|].
        apply StronglySorted_inv in Hs as [_ Hall'].
        rewrite Forall_forall in Hall'. apply Hall' in Hn. lia. }
      by exists [], blocks'.
    + assert (x < p) by by apply Hall.
      apply elem_of_cons in Hn as [->|Hn]; [lia|].
      destruct IH as (l1 & l2 & ->); [done..| |].
      { intros b Hb. apply Hbetween. by right. }
      by exists (x :: l1), l2.
Qed.

Lemma window_offered origin tolerance txs bs lowest rest a b :
  block_numbers txs = Ok bs ->
  sorted_set bs = lowest :: rest ->
  a <= b ->
  exists gaps,
    find_gaps origin tolerance txs = Ok gaps /\
    ((exists g, g ∈ gaps /\ covers g a b) <->
     (origin <= a /\ b < lowest) \/
     (exists p n, p ∈ lowest :: rest /\ n ∈ lowest :: rest /\
                  p < a /\ b < n /\
                  (forall x, x ∈ lowest :: rest -> x <= p \/ n <= x) /\
                  tolerance < n - p)).
Proof.
  intros Hbs Hsorted Hab.
  destruct (find_gaps_spec origin tolerance txs bs lowest rest Hbs Hsorted)
    as (Hs & _ & gaps & Hrun & Hgaps & _).
  exists gaps. split; [done|]. split.
  - intros (g & [[Hlow ->]|(p & n & Hadj & Htol & ->)]%Hgaps & Hcov);
      unfold covers in Hcov; simpl in Hcov.
    + left. lia.
    + right. exists p, n.
      apply (adjacent_iff _ _ _ Hs) in Hadj as (? & ? & ? & ?).
      repeat split; try done; lia.
  - intros [[Ha Hb]|(p & n & Hp & Hn & Hpa & Hbn & Hbetween & Htol)].
    + exists (origin, Some (lowest - 1)). split.
      * apply Hgaps. left. split; [lia|done].
      * unfold covers. simpl. lia.
    + exists (p + 1, Some (n - 1)). split.
      * apply Hgaps. right. exists p, n. split; [|done].
        apply adjacent_iff; [done|]. repeat split; try done. lia.
      * unfold covers. simpl. lia.
Qed.

Lemma request_attempts_served remaining attempt params start_block self w
    self' w' results :
  request_attempts remaining attempt params start_block self w
    = (self', w', results) ->
  (served w <= served w' <= served w + remaining)%nat.
Proof.
  revert attempt self w.
  induction remaining as [|remaining IH]; intros attempt self w; simpl.
  - intros [= <- <- <-]. lia.
  - unfold requests_get. destruct (provider w (served w) params) as [resp lat].
    assert (forall w0, served (backoff attempt w0) = served w0) as Hb.
    { intros w0. unfold backoff. by destruct (attempt <? max_retries - 1)%nat. }
    destruct resp as [|code json].
    { intros H%IH. rewrite Hb in H. simpl in H. lia. }
    destruct (code =? 429); [intros H%IH; simpl in H; lia|].
    destruct (code =? 200).
    2:{ intros H%IH. rewrite Hb in H. simpl in H. lia. }
    destruct json as [data|].
    2:{ intros H%IH. rewrite Hb in H. simpl in H. lia. }
    destruct (bool_decide _); [intros [= <- <- <-]; simpl; lia|].
    destruct (str_contains _ _); [intros [= <- <- <-]; simpl; lia|].
    destruct (b_rate_limit data); [intros H%IH; simpl in H; lia|].
    intros [= <- <- <-]. simpl. lia.
Qed.

Lemma make_request_served self w s e self' w' results :
  _make_request self w s e = (self', w', results) ->
  (served w <= served w' <= served w + max_retries)%nat.
Proof.
  unfold _make_request.
  destruct (_rate_limit_wait self w) as [self1 w1] eqn:Hwait.
  apply rate_limit_wait_frame in Hwait as (_ & _ & _ & _ & _ & _ & _ & Hsv & _).
  intros H%request_attempts_served. lia.
Qed.

End Recovery.

(** ** The cycle: what each phase leaves alone *)

Section Frames.

Implicit Types (self : Self) (w : World) (b : Batch).

Lemma fetch_range_frame fuel self w s e r self' w' txs :
  fetch_range fuel self w s e r = Some (self', w', txs) ->
  fs w' = fs w /\ disk w' = disk w /\ saves w' = saves w /\
  provider w' = provider w /\ clock w <= clock w'.
Proof.
  revert self w s e r self' w' txs.
  induction fuel as [|fuel IH]; intros self w s e r self' w' txs; [done|].
  simpl. destruct (e <? s).
  { intros [= <- <- <-]. repeat split; lia. }
  destruct (_make_request _ _ _ _) as [[self1 w1] results] eqn:Hreq.
  apply make_request_frame in Hreq as (_ & _ & Hfs & Hd & Hsv & Hp & Hc).
  simpl in *.
  assert (forall self2 w2 (batch : list Tx),
    fs w2 = fs w -> disk w2 = disk w -> saves w2 = saves w ->
    provider w2 = provider w -> clock w <= clock w2 ->
    ('(self3, w3, more) ←
       fetch_range fuel self2 w2 (Z.min (s + r - 1) e + 1) e r;
       Some (self3, w3, batch ++ more)) = Some (self', w', txs) ->
    fs w' = fs w /\ disk w' = disk w /\ saves w' = saves w /\
    provider w' = provider w /\ clock w <= clock w') as Hmore.
  { intros self2 w2 batch H1 H2 H3 H4 H5 Hx.
    destruct (fetch_range fuel self2 w2 _ e r) as [[[self3 w3] more]|] eqn:Hy;
      [|done].
    simpl in Hx. injection Hx as <- <- <-.
    apply IH in Hy as (-> & -> & -> & -> & ?). repeat split; try done. lia. }
  destruct results as [results|].
  2:{ intros H. apply IH in H as (-> & -> & -> & -> & ?). simpl in *.
      repeat split; try done. lia. }
  destruct (capped (length results)); [|by apply Hmore].
  destruct (MIN_BLOCK_RANGE <? r); [|by apply Hmore].
  destruct (fetch_range fuel self1 _ s _ _) as [[[self2 w2] sub]|] eqn:Hsub;
    [|done].
  apply IH in Hsub as (Hfs2 & Hd2 & Hsv2 & Hp2 & Hc2). simpl in *.
  apply Hmore; try congruence. lia.
Qed.

Lemma fetch_range_statuses fuel self w s e r self' w' txs :
  fetch_range fuel self w s e r = Some (self', w', txs) ->
  exists sts, statuses w' = statuses w ++ sts /\
              Forall (fun st => st_status st = "fetching") sts.
Proof.
  revert self w s e r self' w' txs.
  induction fuel as [|fuel IH]; intros self w s e r self' w' txs; [done|].
  simpl. destruct (e <? s).
  { intros [= <- <- <-]. exists []. by rewrite app_nil_r. }
  destruct (_make_request _ _ _ _) as [[self1 w1] results] eqn:Hreq.
  apply make_request_frame in Hreq as (_ & Hst & _).
  simpl in Hst.
  set (st0 := {| st_status := "fetching"; st_current_block := s;
                 st_target_block := e |}) in *.
  assert (forall self2 w2 sts2 (batch : list Tx),
    statuses w2 = statuses w ++ st0 :: sts2 ->
    Forall (fun st => st_status st = "fetching") sts2 ->
    ('(self3, w3, more) ←
       fetch_range fuel self2 w2 (Z.min (s + r - 1) e + 1) e r;
       Some (self3, w3, batch ++ more)) = Some (self', w', txs) ->
    exists sts, statuses w' = statuses w ++ sts /\
                Forall (fun st => st_status st = "fetching") sts) as Hmore.
  { intros self2 w2 sts2 batch H1 H2 Hx.
    destruct (fetch_range fuel self2 w2 _ e r) as [[[self3 w3] more]|] eqn:Hy;
      [|done].
    simpl in Hx. injection Hx as <- <- <-.
    apply IH in Hy as (sts3 & -> & H3). rewrite H1.
    exists (st0 :: sts2 ++ sts3). rewrite <- app_assoc. split; [done|].
    constructor; [done|]. by apply Forall_app. }
  destruct results as [results|].
  2:{ intros H. apply IH in H as (sts & -> & Hall). simpl. rewrite Hst.
      exists (st0 :: sts). rewrite <- app_assoc. split; [done|].
      by constructor. }
  destruct (capped (length results)).
  2:{ apply (Hmore _ _ []); [simpl; by rewrite Hst|done]. }
  destruct (MIN_BLOCK_RANGE <? r).
  2:{ apply (Hmore _ _ []); [simpl; by rewrite Hst|done]. }
  destruct (fetch_range fuel self1 _ s _ _) as [[[self2 w2] sub]|] eqn:Hsub;
    [|done].
  apply IH in Hsub as (sts2 & Hsts2 & Hall2). simpl in Hsts2.
  rewrite Hst in Hsts2. simpl.
  apply (Hmore _ _ sts2); [|done].
  rewrite Hsts2, <- app_assoc. done.
Qed.

Lemma get_current_block_frame self w self' w' head :
  get_current_block self w = (self', w', head) ->
  lines w' = lines w /\ statuses w' = statuses w /\ fs w' = fs w /\
  disk w' = disk w /\ saves w' = saves w /\ provider w' = provider w.
Proof.
  unfold get_current_block.
  destruct (_rate_limit_wait self w) as [self1 w1] eqn:Hwait.
  apply rate_limit_wait_frame in Hwait
    as (Hl & Hst & Hfs & Hd & Hsv & Hp & _).
  destruct (requests_get _ w1) as [resp w2] eqn:Hget.
  apply requests_get_frame in Hget as (Hl2 & Hst2 & Hfs2 & Hd2 & Hsv2 & Hp2 & _).
  assert (w' = w2 -> lines w' = lines w /\ statuses w' = statuses w /\
          fs w' = fs w /\ disk w' = disk w /\ saves w' = saves w /\
          provider w' = provider w) as Hdone.
  { intros ->. repeat split; congruence. }
  destruct resp as [|code [data|]]; try (intros [= _ <- _]; by apply Hdone).
  destruct (code =? 200); [|intros [= _ <- _]; by apply Hdone].
  destruct (b_block data); intros [= _ <- _]; by apply Hdone.
Qed.

Lemma merge_hashed existing new : Forall has_hash (merge existing new).
Proof.
  rewrite merge_keep_first.
  eapply Forall_impl; [apply keep_first_hashed|].
  intros tx (h & Hh & _). unfold has_hash. by rewrite Hh.
Qed.

Lemma save_steps_canonical fault f final_txs f' :
  f' ∈ save_steps fault f final_txs ->
  canonical f' = canonical f \/ canonical f' = Some final_txs.
Proof.
  assert (forall upto, f' ∈ write_progress f final_txs upto ->
                       canonical f' = canonical f) as Hwrite.
  { intros upto (k & -> & _)%list_elem_of_fmap. done. }
  destruct fault as [| |written [|]|[|]]; unfold save_steps;
    cbv beta iota zeta;
    rewrite ?app_nil_r, ?elem_of_app, ?list_elem_of_singleton.
  - intros [?%Hwrite| ->]; [by left|by right].
  - by intros ?%elem_of_nil.
  - intros ?%Hwrite. by left.
  - intros [?%Hwrite| ->]; by left.
  - intros ?%Hwrite. by left.
  - intros [?%Hwrite| ->]; by left.
Qed.

Lemma save_transactions_frame w existing new w' r :
  save_transactions w existing new = (w', r) ->
  lines w' = lines w /\ statuses w' = statuses w /\ disk w' = disk w /\
  provider w' = provider w /\ saves w' = S (saves w) /\
  clock w' = clock w /\
  (canonical (fs w') = canonical (fs w) \/
   canonical (fs w') = Some (merge existing new)).
Proof.
  unfold save_transactions. intros [= <- <-]. simpl.
  repeat split; try done.
  destruct (last _) as [f|] eqn:Hlast; simpl; [|by left].
  apply last_Some_elem_of in Hlast. by apply save_steps_canonical in Hlast.
Qed.

Lemma save_transactions_store w existing new w' r :
  save_transactions w existing new = (w', r) -> store_kept_or_hashed w w'.
Proof.
  intros (_ & _ & _ & _ & _ & _ & [H|H])%save_transactions_frame;
    [by left|right].
  eexists. split; [exact H|apply merge_hashed].
Qed.

Lemma save_transactions_no_fault w existing new :
  disk w (saves w) = NoFault ->
  save_transactions w existing new =
  (set_fs {| canonical := Some (merge existing new); temp := None |}
     (count_save w),
   Ok (merge existing new)).
Proof.
  intros H. unfold save_transactions. rewrite H. unfold save_steps.
  by rewrite last_snoc.
Qed.

Lemma store_kept_or_hashed_refl w : store_kept_or_hashed w w.
Proof. by left. Qed.

Lemma store_kept_or_hashed_trans w1 w2 w3 :
  store_kept_or_hashed w1 w2 -> store_kept_or_hashed w2 w3 ->
  store_kept_or_hashed w1 w3.
Proof.
  unfold store_kept_or_hashed.
  intros [H1|H1] [H2|H2]; [left; congruence|by right| |by right].
  right. by rewrite H2.
Qed.

Lemma store_kept_fs w w' : fs w' = fs w -> store_kept_or_hashed w w'.
Proof. intros H. left. by rewrite H. Qed.

End Frames.

(** ** Persisting the store *)





(** ** The cycle: its phases *)

Section Phases.

#[local] Arguments save_transactions : simpl never.
#[local] Arguments final_save : simpl never.
#[local] Arguments check_caught_up : simpl never.

Implicit Types (self : Self) (w : World) (b : Batch).

Lemma add_new_added txs new hashes new' hashes' :
  add_new txs new hashes = (new', hashes') ->
  exists added, new' = new ++ added /\ Forall has_hash added.
Proof.
  revert new hashes. induction txs as [|tx txs IH]; intros new hashes; simpl.
  - intros [= <- <-]. exists []. by rewrite app_nil_r.
  - destruct (get_truthy tx "hash") as [h|] eqn:Hh; [|apply IH].
    destruct (decide (h ∈ hashes)); [apply IH|].
    intros (added & -> & Hall)%IH. exists (tx :: added).
    rewrite <- app_assoc. split; [done|].
    constructor; [|done]. unfold has_hash. by rewrite Hh.
Qed.

Lemma add_new_hashed txs new hashes new' hashes' :
  add_new txs new hashes = (new', hashes') ->
  Forall has_hash new -> Forall has_hash new'.
Proof.
  intros (added & -> & Hall)%add_new_added Hnew. by apply Forall_app.
Qed.

Lemma fill_gaps_returns gaps current_max :
  exists fuel0, forall fuel, (fuel0 <= fuel)%nat ->
    forall i total self w b,
      is_Some (fill_gaps fuel gaps i total current_max self w b).
Proof.
  induction gaps as [|[start gap_end] gaps (fuel1 & IH)].
  { exists O. intros. simpl. eauto. }
  exists (fetch_fuel start (default current_max gap_end) MAX_BLOCK_RANGE
          `max` fuel1)%nat.
  intros fuel Hfuel i total self w b. cbn [fill_gaps].
  destruct (_ <? start); [apply IH; lia|].
  match goal with |- is_Some (mbind _ (fetch_range fuel ?a ?b ?c ?d ?f)) =>
    destruct (fetch_range_returns fuel a b c d f) as [[[self1 w1] txs] ->] end.
  { unfold MAX_BLOCK_RANGE. lia. }
  { lia. }
  cbn [mbind option_bind]. destruct (add_new _ _ _) as [new hashes].
  destruct (10000 <? _); [|apply IH; lia].
  destruct (save_transactions _ _ _) as [w2 [existing|e]]; [|eauto].
  apply IH. lia.
Qed.

Lemma extend_and_finish_returns current_max current_block :
  exists fuel0, forall fuel, (fuel0 <= fuel)%nat ->
    forall self w b,
      is_Some (extend_and_finish fuel current_max current_block self w b).
Proof.
  exists (fetch_fuel (current_max + 1) current_block MAX_BLOCK_RANGE).
  intros fuel Hfuel self w b. unfold extend_and_finish, fetch_new_blocks.
  assert (forall self1 w1 b1,
    is_Some (let '(w2, saved) := final_save w1 b1 in
             match saved with
             | Ok final_txs =>
               let '(w3, r) := check_caught_up final_txs current_block w2 in
               Some (self1, w3, r)
             | Raise e => Some (self1, w2, Raise e)
             end)) as Hrest.
  { intros self1 w1 b1. destruct (final_save w1 b1) as [w2 [final|e]]; [|eauto].
    destruct (check_caught_up _ _ _). eauto. }
  destruct (current_max <? current_block); [|simpl; apply Hrest].
  match goal with |- context [fetch_range fuel ?a ?b ?c ?d ?f] =>
    destruct (fetch_range_returns fuel a b c d f) as [[[self1 w1] txs] ->] end.
  { unfold MAX_BLOCK_RANGE. lia. }
  { lia. }
  simpl. destruct (add_new _ _ _). simpl. apply Hrest.
Qed.

Lemma run_cycle_returns self w :
  exists fuel0, forall fuel, (fuel0 <= fuel)%nat ->
    is_Some (run_cycle fuel self w).
Proof.
  assert (exists fuel0, forall fuel, (fuel0 <= fuel)%nat ->
            is_Some (cycle_body fuel self w)) as (fuel0 & Hbody).
  { unfold cycle_body.
    destruct (get_current_block self w) as [[self0 w0] head].
    destruct (identify_gaps _) as [gaps|e]; [|exists O; eauto].
    destruct (current_max_of _) as [m|e]; [|exists O; eauto].
    destruct (fill_gaps_returns gaps m) as (fuel1 & H1).
    destruct (extend_and_finish_returns m (head_or_estimate head))
      as (fuel2 & H2).
    exists (fuel1 `max` fuel2)%nat. intros fuel Hfuel.
    match goal with |- is_Some (mbind _ (fill_gaps fuel ?g ?i ?t ?m ?s ?w ?b)) =>
      destruct (H1 fuel ltac:(lia) i t s w b) as [[[selfG wG] [bG|e]] ->] end;
      simpl; [|eauto].
    apply H2. lia. }
  exists fuel0. intros fuel Hfuel. unfold run_cycle.
  destruct (Hbody fuel Hfuel) as [[[self1 w1] [ending|e]] ->]; simpl; eauto.
Qed.

(** The gap loop. *)
Lemma fill_gaps_facts fuel gaps i total current_max self w b selfG wG r :
  fill_gaps fuel gaps i total current_max self w b = Some (selfG, wG, r) ->
  (exists ls, lines wG = lines w ++ ls) /\
  disk wG = disk w /\ provider wG = provider w /\
  store_kept_or_hashed w wG /\
  (Forall has_hash (new_transactions b) ->
   forall bG, r = Ok bG -> Forall has_hash (new_transactions bG)) /\
  ((forall n, disk w n = NoFault) -> existing_txs b = load_store w ->
   exists bG, r = Ok bG /\ existing_txs bG = load_store wG).
Proof.
  revert i self w b.
  induction gaps as [|[start gap_end] gaps IH]; intros i self w b;
    cbn [fill_gaps].
  { intros [= <- <- <-]. split; [exists []; by rewrite app_nil_r|].
    repeat split; try done.
    - apply store_kept_or_hashed_refl.
    - by intros ? ? [= <-].
    - eauto. }
  destruct (_ <? start); [apply IH|].
  destruct (fetch_range fuel _ _ start _ _) as [[[self1 w1] txs]|] eqn:Hfetch;
    [|done].
  pose proof (fetch_range_frame _ _ _ _ _ _ _ _ _ Hfetch)
    as (Hfs & Hd & Hsv & Hp & _).
  apply fetch_range_lines in Hfetch as (ls1 & Hls1 & _).
  simpl in Hfs, Hd, Hsv, Hp, Hls1.
  cbn [mbind option_bind] in *.
  destruct (add_new _ _ _) as [new hashes] eqn:Hadd.
  destruct (10000 <? _).
  - destruct (save_transactions _ _ _) as [w2 saved] eqn:Hsave.
    pose proof (save_transactions_store _ _ _ _ _ Hsave) as Hstore.
    pose proof Hsave as Hsave'.
    apply save_transactions_frame in Hsave
      as (Hl2 & _ & Hd2 & Hp2 & Hsv2 & _ & _).
    assert (store_kept_or_hashed w w2) as Hkept.
    { eapply store_kept_or_hashed_trans; [|exact Hstore].
      by apply store_kept_fs. }
    destruct saved as [existing|e].
    + intros (( ls2 & Hls2) & Hd3 & Hp3 & Hst3 & Hh3 & Hnf3)%IH.
      cbn [existing_txs new_transactions] in *.
      split. { exists (ls1 ++ ls2). rewrite Hls2, Hl2, Hls1, <- app_assoc. done. }
      split; [congruence|]. split; [congruence|].
      split. { by eapply store_kept_or_hashed_trans. }
      split. { intros _. by apply Hh3. }
      intros Hnofault Hexisting. apply Hnf3.
      * intros n. rewrite Hd2, Hd. apply Hnofault.
      * rewrite save_transactions_no_fault in Hsave'
          by (rewrite Hd, Hsv; apply Hnofault).
        by injection Hsave' as <- <-.
    + intros [= <- <- <-].
      split. { exists ls1. by rewrite Hl2. }
      split; [congruence|]. split; [congruence|].
      split; [done|]. split; [done|].
      intros Hnofault _.
      rewrite save_transactions_no_fault in Hsave'
        by (rewrite Hd, Hsv; apply Hnofault).
      by injection Hsave'.
  - intros ((ls2 & Hls2) & Hd3 & Hp3 & Hst3 & Hh3 & Hnf3)%IH.
    cbn [existing_txs new_transactions] in *.
    split. { exists (ls1 ++ ls2). rewrite Hls2, Hls1, <- app_assoc. done. }
    split; [congruence|]. split; [congruence|].
    split. { eapply store_kept_or_hashed_trans; [|exact Hst3].
             by apply store_kept_fs. }
    split. { intros Hnew. apply Hh3. by eapply add_new_hashed. }
    intros Hnofault Hexisting. apply Hnf3.
    + intros n. rewrite Hd. apply Hnofault.
    + unfold load_store. by rewrite Hfs.
Qed.

(** Extending to the head. *)
Lemma fetch_new_blocks_facts fuel m head self w b selfN wN bN :
  fetch_new_blocks fuel m head self w b = Some (selfN, wN, bN) ->
  (exists ls, lines wN = lines w ++ ls /\
              windows MAX_BLOCK_RANGE (m + 1) head ls) /\
  fs wN = fs w /\ disk wN = disk w /\ saves wN = saves w /\
  provider wN = provider w /\
  existing_txs bN = existing_txs b /\
  (Forall has_hash (new_transactions b) -> Forall has_hash (new_transactions bN)).
Proof.
  unfold fetch_new_blocks. destruct (Z.ltb_spec m head) as [Hlt|Hge].
  2:{ intros [= <- <- <-]. split; [|done].
      exists []. rewrite app_nil_r. split; [done|]. constructor. lia. }
  destruct (fetch_range fuel _ _ _ _ _) as [[[self1 w1] txs]|] eqn:Hfetch;
    [|done].
  pose proof (fetch_range_frame _ _ _ _ _ _ _ _ _ Hfetch)
    as (Hfs & Hd & Hsv & Hp & _).
  apply fetch_range_lines in Hfetch as (ls & Hls & Hwin & _). simpl in *.
  destruct (add_new _ _ _) as [new hashes] eqn:Hadd.
  intros [= <- <- <-]. simpl. split; [eauto|].
  repeat split; try done. by eapply add_new_hashed.
Qed.

(** The final save. *)
Lemma final_save_facts w b wS r :
  final_save w b = (wS, r) ->
  lines wS = lines w /\ statuses wS = statuses w /\ disk wS = disk w /\
  provider wS = provider w /\ clock wS = clock w /\
  store_kept_or_hashed w wS /\
  ((forall n, disk w n = NoFault) -> existing_txs b = load_store w ->
   exists final_txs, r = Ok final_txs /\ final_txs = load_store wS).
Proof.
  unfold final_save. destruct (new_transactions b) as [|tx new] eqn:Hnew.
  { intros [= <- <-]. repeat split; try done.
    - apply store_kept_or_hashed_refl.
    - eauto. }
  intros Hsave.
  pose proof (save_transactions_store _ _ _ _ _ Hsave) as Hstore.
  pose proof (save_transactions_frame _ _ _ _ _ Hsave)
    as (Hl & Hst & Hd & Hp & _ & Hc & _).
  repeat split; try done.
  intros Hnofault _.
  rewrite save_transactions_no_fault in Hsave by apply Hnofault.
  injection Hsave as <- <-. eauto.
Qed.

(** Caught up, or not. *)
Lemma check_caught_up_facts final_txs head w w' r :
  check_caught_up final_txs head w = (w', r) ->
  lines w' = lines w /\ fs w' = fs w /\ disk w' = disk w /\
  provider w' = provider w /\
  match r with
  | Ok CaughtUp =>
    exists m, max_saved_block_of final_txs = Ok m /\ head - 100 <= m /\
              w' = time_sleep 60000 (update_status "caught_up" m head w)
  | Ok Continuing =>
    exists m, max_saved_block_of final_txs = Ok m /\ m < head - 100 /\
              w' = time_sleep 5000 w
  | Ok (Errored _) => False
  | Raise e => max_saved_block_of final_txs = Raise e /\ w' = w
  end.
Proof.
  unfold check_caught_up.
  destruct (max_saved_block_of final_txs) as [m|e].
  2:{ by intros [= <- <-]. }
  destruct (Z.leb_spec (head - 100) m); intros [= <- <-]; simpl;
    repeat split; eauto.
Qed.

End Phases.

(** ** The cycle as a whole *)

Section Cycle.

Implicit Types (self : Self) (w : World) (b : Batch).

#[local] Arguments save_transactions : simpl never.
#[local] Arguments final_save : simpl never.
#[local] Arguments check_caught_up : simpl never.
#[local] Arguments fill_gaps : simpl never.
#[local] Arguments fetch_new_blocks : simpl never.
#[local] Arguments get_current_block : simpl never.
#[local] Arguments identify_gaps : simpl never.
#[local] Arguments current_max_of : simpl never.

Lemma py_max_spec l m :
  py_max l = Ok m -> m ∈ l /\ forall x, x ∈ l -> x <= m.
Proof.
  destruct l as [|x l]; [done|]. simpl. intros [= <-].
  induction l as [|y l [IHin IHle]]; simpl.
  - split; [left|]. intros z Hz%list_elem_of_singleton. lia.
  - split.
    + destruct (Z.max_spec y (foldr Z.max x l)) as [[_ ->]|[_ ->]].
      * apply elem_of_cons in IHin as [->|?]; [left|right; by right].
      * right. left.
    + intros z Hz. apply elem_of_cons in Hz as [Hz|Hz].
      * specialize (IHle z). rewrite Hz in IHle.
        specialize (IHle ltac:(left)). lia.
      * apply elem_of_cons in Hz as [Hz|Hz]; [lia|].
        specialize (IHle z ltac:(by right)). lia.
Qed.

Lemma current_max_of_spec existing m :
  existing <> [] -> current_max_of existing = Ok m ->
  (exists tx, tx ∈ existing /\ block_of tx = Some (Ok m)) /\
  (forall tx x, tx ∈ existing -> block_of tx = Some (Ok x) -> x <= m).
Proof.
  unfold current_max_of. destruct existing as [|tx0 existing]; [done|].
  intros _. destruct (block_numbers (tx0 :: existing)) as [bs|e] eqn:Hbs;
    [|done].
  cbn [mbind res_bind]. intros [Hin Hle]%py_max_spec.
  pose proof (block_numbers_elem _ _ m Hbs) as Hm.
  split; [by apply Hm|].
  intros tx x Htx Hx. apply Hle.
  apply (block_numbers_elem _ _ x Hbs). eauto.
Qed.

(** What every cycle that returns leaves behind. *)
Lemma extend_and_finish_store fuel m head self w b self' w' r :
  extend_and_finish fuel m head self w b = Some (self', w', r) ->
  disk w' = disk w /\ store_kept_or_hashed w w'.
Proof.
  unfold extend_and_finish.
  destruct (fetch_new_blocks _ _ _ _ _ _) as [[[selfN wN] bN]|] eqn:Hnew;
    [|done].
  apply fetch_new_blocks_facts in Hnew as (_ & Hfs & Hd & _).
  cbn [mbind option_bind].
  destruct (final_save wN bN) as [wS saved] eqn:Hsave.
  apply final_save_facts in Hsave as (_ & _ & Hd2 & _ & _ & Hkept & _).
  assert (store_kept_or_hashed w wS) as Hk.
  { eapply store_kept_or_hashed_trans; [|exact Hkept]. by apply store_kept_fs. }
  destruct saved as [final|e].
  2:{ intros [= <- <- <-]. split; [congruence|done]. }
  destruct (check_caught_up _ _ _) as [w3 r3] eqn:Hcheck.
  apply check_caught_up_facts in Hcheck as (_ & Hfs3 & Hd3 & _).
  intros [= <- <- <-]. split; [congruence|].
  eapply store_kept_or_hashed_trans; [exact Hk|]. by apply store_kept_fs.
Qed.

Lemma cycle_body_store fuel self w self' w' r :
  cycle_body fuel self w = Some (self', w', r) ->
  store_kept_or_hashed w w'.
Proof.
  unfold cycle_body.
  destruct (get_current_block self w) as [[self0 w0] head] eqn:Hhead.
  apply get_current_block_frame in Hhead as (_ & _ & Hfs0 & _).
  assert (store_kept_or_hashed w w0) as H0 by by apply store_kept_fs.
  destruct (identify_gaps _) as [gaps|e]; [|by intros [= <- <- <-]].
  destruct (current_max_of _) as [m|e]; [|by intros [= <- <- <-]].
  destruct (fill_gaps _ _ _ _ _ _ _ _) as [[[selfG wG] filled]|] eqn:Hfill;
    [|done].
  apply fill_gaps_facts in Hfill as (_ & _ & _ & HkG & _).
  cbn [mbind option_bind].
  assert (store_kept_or_hashed w wG) as H1
    by by eapply store_kept_or_hashed_trans.
  destruct filled as [bG|e]; [|by intros [= <- <- <-]].
  intros (_ & Hk)%extend_and_finish_store.
  by eapply store_kept_or_hashed_trans.
Qed.

Lemma run_cycle_store fuel self w self' w' ending :
  run_cycle fuel self w = Some (self', w', ending) ->
  store_kept_or_hashed w w'.
Proof.
  unfold run_cycle.
  destruct (cycle_body fuel self w) as [[[self1 w1] r]|] eqn:Hbody; [|done].
  apply cycle_body_store in Hbody. cbn [mbind option_bind].
  destruct r as [e|e]; intros [= <- <- <-]; [done|].
  eapply store_kept_or_hashed_trans; [exact Hbody|]. by apply store_kept_fs.
Qed.

(** The anatomy of a cycle that reaches its end without an exception. *)
Lemma cycle_body_ok fuel self w self' w' ending :
  cycle_body fuel self w = Some (self', w', Ok ending) ->
  exists m ls_gaps ls_new wN bN wS final_txs m_saved,
    current_max_of (load_store w) = Ok m /\
    lines w' = lines w ++ ls_gaps ++ ls_new /\
    windows MAX_BLOCK_RANGE (m + 1) (chain_head self w) ls_new /\
    final_save wN bN = (wS, Ok final_txs) /\
    max_saved_block_of final_txs = Ok m_saved /\
    ((forall n, disk w n = NoFault) -> load_store w' = final_txs) /\
    ((ending = CaughtUp /\ chain_head self w - 100 <= m_saved /\
      w' = time_sleep 60000
             (update_status "caught_up" m_saved (chain_head self w) wS)) \/
     (ending = Continuing /\ m_saved < chain_head self w - 100 /\
      w' = time_sleep 5000 wS)).
Proof.
  unfold cycle_body, chain_head.
  destruct (get_current_block self w) as [[self0 w0] head] eqn:Hhead.
  apply get_current_block_frame in Hhead as (Hl0 & _ & Hfs0 & Hd0 & _).
  cbn [snd].
  destruct (identify_gaps _) as [gaps|e]; [|done].
  destruct (current_max_of _) as [m|e]; [|done].
  destruct (fill_gaps _ _ _ _ _ _ _ _) as [[[selfG wG] filled]|] eqn:Hfill;
    [|done].
  apply fill_gaps_facts in Hfill as ((lsG & HlG) & HdG & _ & _ & _ & HnfG).
  cbn [mbind option_bind existing_txs] in *.
  destruct filled as [bG|e]; [|done].
  unfold extend_and_finish.
  destruct (fetch_new_blocks _ _ _ _ _ _) as [[[selfN wN] bN]|] eqn:Hnew;
    [|done].
  apply fetch_new_blocks_facts in Hnew
    as ((lsN & HlN & Hwin) & HfsN & HdN & _ & _ & HexN & _).
  cbn [mbind option_bind].
  destruct (final_save wN bN) as [wS saved] eqn:Hsave.
  pose proof (final_save_facts _ _ _ _ Hsave) as (HlS & _ & HdS & _ & _ & _ & HnfS).
  destruct saved as [final|e]; [|done].
  destruct (check_caught_up _ _ _) as [w3 r3] eqn:Hcheck.
  apply check_caught_up_facts in Hcheck as (Hl3 & Hfs3 & _ & _ & Hr3).
  intros [= <- <- ->].
  exists m, lsG, lsN, wN, bN, wS, final.
  assert (lines w3 = lines w ++ lsG ++ lsN) as Hlines.
  { rewrite Hl3, HlS, HlN, HlG, Hl0, <- app_assoc. done. }
  assert ((forall n, disk w n = NoFault) -> load_store w3 = final) as Hpers.
  { intros Hnf.
    destruct HnfG as (bG' & [= <-] & HexG).
    { intros n. rewrite Hd0. apply Hnf. }
    { unfold load_store. by rewrite Hfs0. }
    destruct HnfS as (final' & [= <-] & ->).
    { intros n. rewrite HdN, HdG, Hd0. apply Hnf. }
    { rewrite HexN, HexG. unfold load_store. by rewrite HfsN. }
    unfold load_store. by rewrite Hfs3. }
  destruct ending as [| |e]; [| |done].
  - destruct Hr3 as (ms & Hms & Hle & ->).
    exists ms. repeat split; try done. left. done.
  - destruct Hr3 as (ms & Hms & Hlt & ->).
    exists ms. repeat split; try done. right. done.
Qed.

Lemma run_cycle_ok fuel self w self' w' ending :
  run_cycle fuel self w = Some (self', w', ending) ->
  (forall e, ending <> Errored e) ->
  cycle_body fuel self w = Some (self', w', Ok ending).
Proof.
  unfold run_cycle.
  destruct (cycle_body fuel self w) as [[[self1 w1] [ending1|e]]|]; [| |done];
    cbn [mbind option_bind]; intros [= <- <- <-] Hne; [done|].
  by destruct (Hne e).
Qed.

End Cycle.

(** ** The anatomy of a cycle *)

Section Anatomy.

#[local] Arguments save_transactions : simpl never.
#[local] Arguments final_save : simpl never.
#[local] Arguments check_caught_up : simpl never.
#[local] Arguments fill_gaps : simpl never.
#[local] Arguments get_current_block : simpl never.
#[local] Arguments identify_gaps : simpl never.
#[local] Arguments current_max_of : simpl never.

Implicit Types (self : Self) (w : World) (b : Batch).

Lemma add_new_keep_first txs new hs :
  add_new txs new hs = (new ++ keep_first hs txs, hashes_of txs ∪ hs).
Proof.
  revert new hs. induction txs as [|tx txs IH]; intros new hs; simpl.
  - rewrite app_nil_r, hashes_of_nil. f_equal. set_solver.
  - rewrite hashes_of_cons.
    destruct (get_truthy tx "hash") as [h|]; [|apply IH].
    destruct (decide (h ∈ hs)).
    + rewrite IH. f_equal. set_solver.
    + rewrite IH, <- app_assoc. f_equal. set_solver.
Qed.

Lemma fetch_new_blocks_traversal fuel m head self w b selfN wN bN :
  fetch_new_blocks fuel m head self w b = Some (selfN, wN, bN) ->
  exists ls txs,
    traversal MAX_BLOCK_RANGE (m + 1) head
      (self, extension_start m head w) (selfN, wN) ls txs /\
    bN = add_fetched_records txs b.
Proof.
  unfold fetch_new_blocks, extension_start.
  destruct (Z.ltb_spec m head) as [Hlt|Hge].
  2:{ intros [= <- <- <-]. exists [], []. split; [constructor; lia|].
      by destruct b. }
  destruct (fetch_range fuel _ _ _ _ _) as [[[self1 w1] txs]|] eqn:Hrun;
    [|done].
  apply fetch_range_traversal in Hrun as (ls & Htrav).
  cbn [mbind option_bind]. unfold add_fetched_records.
  destruct (add_new _ _ _) as [new hashes] eqn:Hadd. intros [= <- <- <-].
  exists ls, txs. split; [done|]. by rewrite Hadd.
Qed.

(** A cycle stops at an exception of gap detection, of the checkpoint
    or of a periodic save of the gap loop, or it extends to the head
    and finishes. *)
Lemma cycle_body_anatomy fuel self w self' w' r :
  cycle_body fuel self w = Some (self', w', r) ->
  (exists e, r = Raise e /\
     (identify_gaps (load_store w) = Raise e \/
      current_max_of (load_store w) = Raise e \/
      exists gaps m selfG wG,
        identify_gaps (load_store w) = Ok gaps /\
        current_max_of (load_store w) = Ok m /\
        fill_gaps fuel gaps 0 (length gaps) m
          (set_gaps_remaining (length gaps) (get_current_block self w).1.1)
          (get_current_block self w).1.2 (initial_batch (load_store w))
          = Some (selfG, wG, Raise e))) \/
  (exists m selfN wN bN ls txs,
     extends_to_head fuel self w m selfN wN bN ls txs /\
     self' = selfN /\
     (w', r) = finish bN (chain_head self w) wN).
Proof.
  unfold cycle_body, extends_to_head, chain_head.
  destruct (get_current_block self w) as [[self0 w0] head]. cbn [fst snd].
  destruct (identify_gaps (load_store w)) as [gaps|e].
  2:{ intros [= <- <- <-]. left. exists e. split; [done|]. by left. }
  destruct (current_max_of (load_store w)) as [m|e].
  2:{ intros [= <- <- <-]. left. exists e. split; [done|]. right. by left. }
  fold (initial_batch (load_store w)).
  destruct (fill_gaps fuel gaps _ _ _ _ _ _)
    as [[[selfG wG] filled]|] eqn:Hfill; [|done].
  cbn [mbind option_bind].
  destruct filled as [bG|e].
  2:{ intros [= <- <- <-]. left. exists e. split; [done|]. right. right.
      by exists gaps, m, selfG, wG. }
  unfold extend_and_finish.
  destruct (fetch_new_blocks fuel m _ selfG wG bG)
    as [[[selfN wN] bN]|] eqn:Hnew; [|done].
  apply fetch_new_blocks_traversal in Hnew as (ls & txs & Htrav & HbN).
  cbn [mbind option_bind]. intros Hrest. right.
  exists m, selfN, wN, bN, ls, txs. split.
  { by exists gaps, selfG, wG, bG. }
  unfold finish. destruct (final_save wN bN) as [wS [final|e]].
  - destruct (check_caught_up final _ wS) as [w3 r3].
    by injection Hrest as <- <- <-.
  - by injection Hrest as <- <- <-.
Qed.

(** From the state the gap loop ends in to the end of the cycle, the
    console shows the lines of the extension and nothing else. *)
Lemma finish_facts bN head wN w' r :
  finish bN head wN = (w', r) ->
  lines w' = lines wN /\
  (canonical (fs w') = canonical (fs wN) \/
   canonical (fs w') =
     Some (merge (existing_txs bN) (new_transactions bN))) /\
  ((forall n, disk wN n = NoFault) ->
   load_store w' = match new_transactions bN with
                   | [] => load_store wN
                   | _ :: _ => merge (existing_txs bN) (new_transactions bN)
                   end).
Proof.
  unfold finish, final_save.
  assert (forall final wS w3 r3,
    check_caught_up final head wS = (w3, r3) ->
    lines w3 = lines wS /\ fs w3 = fs wS) as Hcheck.
  { intros final wS w3 r3 (Hl & Hfs & _)%check_caught_up_facts. done. }
  destruct (new_transactions bN) as [|tx new] eqn:Hnew.
  { intros H. apply Hcheck in H as [Hl Hfs]. rewrite Hl, Hfs.
    split; [done|]. split; [by left|]. intros _. unfold load_store.
    by rewrite Hfs. }
  destruct (save_transactions wN (existing_txs bN) (tx :: new))
    as [wS saved] eqn:Hsave.
  pose proof (save_transactions_frame _ _ _ _ _ Hsave)
    as (HlS & _ & _ & _ & _ & _ & Hcanon).
  assert ((forall n, disk wN n = NoFault) ->
          load_store wS = merge (existing_txs bN) (tx :: new)) as Hsound.
  { intros Hnf. rewrite save_transactions_no_fault in Hsave by apply Hnf.
    by injection Hsave as <- <-. }
  destruct saved as [final|e].
  - intros H. apply Hcheck in H as [Hl Hfs]. rewrite Hl, Hfs.
    split; [done|]. split; [done|]. intros Hnf. unfold load_store.
    rewrite Hfs. by apply Hsound.
  - intros [= <- <-]. split; [done|]. split; [done|]. done.
Qed.

End Anatomy.

Section Outcome.

#[local] Arguments save_transactions : simpl never.
#[local] Arguments final_save : simpl never.
#[local] Arguments check_caught_up : simpl never.
#[local] Arguments fill_gaps : simpl never.
#[local] Arguments get_current_block : simpl never.
#[local] Arguments identify_gaps : simpl never.
#[local] Arguments current_max_of : simpl never.

Implicit Types (self : Self) (w : World) (b : Batch).

Lemma traversal_frame r s e x x' ls txs :
  traversal r s e x x' ls txs ->
  fs x'.2 = fs x.2 /\ disk x'.2 = disk x.2.
Proof.
  induction 1 as [r s e x Hlt
    | r s e self w self1 w1 x' ls txs Hle Hreq _ (IHf & IHd)
    | r s e self w self1 w1 results x' ls txs Hle Hreq Hcap _ (IHf & IHd)
    | r s e self w self1 w1 results x' ls txs Hle Hreq Hcap Hsmall _
        (IHf & IHd)
    | r s e self w self1 w1 results self2 w2 sub_ls sub x' ls txs Hle Hreq
        Hcap Hbig _ (IH1f & IH1d) _ (IH2f & IH2d)];
    [done|..];
    apply make_request_frame in Hreq as (_ & _ & Hfs & Hd & _);
    simpl in *; split; congruence.
Qed.





(** How a cycle ends. *)
Lemma run_cycle_anatomy fuel self w self' w' ending :
  run_cycle fuel self w = Some (self', w', ending) ->
  (exists e, ending = Errored e /\
     (identify_gaps (load_store w) = Raise e \/
      current_max_of (load_store w) = Raise e \/
      exists gaps m selfG wG,
        identify_gaps (load_store w) = Ok gaps /\
        current_max_of (load_store w) = Ok m /\
        fill_gaps fuel gaps 0 (length gaps) m
          (set_gaps_remaining (length gaps) (get_current_block self w).1.1)
          (get_current_block self w).1.2 (initial_batch (load_store w))
          = Some (selfG, wG, Raise e))) \/
  (exists m selfN wN bN ls txs w1 r,
     extends_to_head fuel self w m selfN wN bN ls txs /\
     finish bN (chain_head self w) wN = (w1, r) /\
     lines w' = lines w1 /\ fs w' = fs w1 /\
     match r with
     | Ok ending1 => ending = ending1 /\ w' = w1 /\ self' = selfN
     | Raise e => ending = Errored e
     end).
Proof.
  unfold run_cycle.
  destruct (cycle_body fuel self w) as [[[self1 w1] r]|] eqn:Hbody; [|done].
  cbn [mbind option_bind].
  apply cycle_body_anatomy in Hbody
    as [(e & -> & Hstop)|(m & selfN & wN & bN & ls & txs & Hext & -> & Hfin)].
  { intros [= <- <- <-]. left. by exists e. }
  intros Hend. right. exists m, selfN, wN, bN, ls, txs, w1, r.
  split; [done|]. split; [done|].
  destruct r as [ending1|e]; injection Hend as <- <- <-; done.
Qed.

End Outcome.




(** On a disk that does not fail, run: the two fetched records are
    persisted behind the stored one and the cycle ends caught up. *)
Example sound_cycle_run :
  (fun x => (x.2, bool_decide (canonical (fs x.1.2)
                               = Some (origin_store ++ recent_records)),
             max_saved_block_of (load_store x.1.2))) <$>
    run_cycle 10 init_self sound_world
  = Some (CaughtUp, true, Ok 38699459).
Proof.
  vm_cast_no_check (@eq_refl _ (Some (CaughtUp, true, @Ok Z 38699459))).
Qed.


(** C9. Records without a transaction identifier are never merged:
    the in-cycle filter appends identified records only, the merge of
    [save_transactions] yields identified records only, and whatever a
    call of [save_transactions] or a whole cycle does to the canonical
    file, it either leaves it as it was or leaves it holding identified
    records only. *)
Theorem unidentified_records_dropped :
  (forall txs new hashes,
     exists added, (add_new txs new hashes).1 = new ++ added /\
                   Forall has_hash added) /\
  (forall existing new, Forall has_hash (merge existing new)) /\
  (forall w existing new,
     store_kept_or_hashed w (save_transactions w existing new).1) /\
  (forall self w, exists fuel0, forall fuel, (fuel0 <= fuel)%nat ->
     exists self' w' ending,
       run_cycle fuel self w = Some (self', w', ending) /\
       store_kept_or_hashed w w').
Proof.
  split.
  { intros txs new hashes.
    destruct (add_new txs new hashes) as [new' hashes'] eqn:Hadd.
    by apply add_new_added in Hadd. }
  split; [apply merge_hashed|]. split.
  { intros w existing new.
    destruct (save_transactions w existing new) as [w' r] eqn:Hsave.
    by apply save_transactions_store in Hsave. }
  intros self w. destruct (run_cycle_returns self w) as (fuel0 & Hret).
  exists fuel0. intros fuel Hfuel.
  destruct (Hret fuel Hfuel) as [[[self' w'] ending] Hrun].
  exists self', w', ending. split; [done|]. by eapply run_cycle_store.
Qed.

(** C10. Empty store: [identify_gaps] returns the single open-ended gap
    [(origin, None)]; the checkpoint is the origin minus one, so the
    gap, its end resolved to the checkpoint, is empty and the gap loop
    leaves everything as it is; and the cycle fetches the entire
    history by the extension alone: right from the state in which the
    head query ends, it is a traversal of the interval from the origin
    block to the chain head, each window of which is asked of the
    provider; the lines of that traversal are all the cycle prints,
    and on a disk that does not fail the store the cycle leaves holds
    the records that traversal returned, deduplicated. *)
Theorem empty_store_cycle (self : Self) (w : World) :
  load_store w = [] ->
  identify_gaps (load_store w) = Ok [(TOKEN_START_BLOCK, None)] /\
  current_max_of (load_store w) = Ok (TOKEN_START_BLOCK - 1) /\
  (forall fuel i total self1 w1 b,
     fill_gaps fuel [(TOKEN_START_BLOCK, None)] i total
       (TOKEN_START_BLOCK - 1) self1 w1 b = Some (self1, w1, Ok b)) /\
  exists fuel0, forall fuel, (fuel0 <= fuel)%nat ->
    exists self' w' ending selfN wN ls txs,
      run_cycle fuel self w = Some (self', w', ending) /\
      traversal MAX_BLOCK_RANGE TOKEN_START_BLOCK (chain_head self w)
        (set_gaps_remaining 1 (get_current_block self w).1.1,
         extension_start (TOKEN_START_BLOCK - 1) (chain_head self w)
           (get_current_block self w).1.2)
        (selfN, wN) ls txs /\
      lines w' = lines w ++ ls /\
      windows MAX_BLOCK_RANGE TOKEN_START_BLOCK (chain_head self w) ls /\
      ((forall n, disk w n = NoFault) -> load_store w' = deduplicate txs).
Proof.
  intros Hempty.
  assert (forall fuel i total self1 w1 b,
    fill_gaps fuel [(TOKEN_START_BLOCK, None)] i total
      (TOKEN_START_BLOCK - 1) self1 w1 b = Some (self1, w1, Ok b)) as Hskip
    by done.
  rewrite Hempty.
  split; [done|]. split; [done|]. split; [exact Hskip|].
  destruct (run_cycle_returns self w) as (fuel0 & Hret).
  exists fuel0. intros fuel Hfuel.
  destruct (Hret fuel Hfuel) as [[[self' w'] ending] Hrun].
  apply run_cycle_anatomy in Hrun as Hcase. rewrite Hempty in Hcase.
  destruct Hcase
    as [(e & _ & Hstop)
       |(m & selfN & wN & bN & ls & txs & w1 & r & Hext & Hfin & Hl & Hfs & _)].
  { exfalso. destruct Hstop as [H|[H|H]]; [done..|].
    destruct H as (gaps & m & selfG & wG & [= <-] & [= <-] & Hfill).
    cbn [length] in Hfill. by rewrite Hskip in Hfill. }
  destruct Hext as (gaps & selfG & wG & bG & Hgaps & Hm & Hfill & Htrav & HbN).
  rewrite Hempty in Hgaps, Hm, Hfill.
  injection Hgaps as <-. injection Hm as <-.
  cbn [length] in Hfill. rewrite Hskip in Hfill.
  injection Hfill as <- <- <-.
  replace (TOKEN_START_BLOCK - 1 + 1) with TOKEN_START_BLOCK in Htrav by lia.
  exists self', w', ending, selfN, wN, ls, txs.
  split; [done|]. split; [exact Htrav|].
  pose proof (traversal_lines _ _ _ _ _ _ _ Htrav) as (HlN & Hwin & _).
  pose proof (traversal_frame _ _ _ _ _ _ _ Htrav) as (HfsN & HdN).
  cbn [fst snd] in HlN, HfsN, HdN.
  destruct (get_current_block self w) as [[self0 w0] head] eqn:Hhead.
  apply get_current_block_frame in Hhead as (Hl0 & _ & Hfs0 & Hd0 & _).
  cbn [fst snd] in *.
  assert (lines (extension_start (TOKEN_START_BLOCK - 1)
                   (chain_head self w) w0) = lines w0
          /\ fs (extension_start (TOKEN_START_BLOCK - 1)
                   (chain_head self w) w0) = fs w0
          /\ disk (extension_start (TOKEN_START_BLOCK - 1)
                     (chain_head self w) w0) = disk w0)
    as (Hel & Hefs & Hed).
  { unfold extension_start. by destruct (_ <? _). }
  pose proof (finish_facts _ _ _ _ _ Hfin) as (Hl1 & _ & Hstore).
  split. { rewrite Hl, Hl1, HlN, Hel, Hl0. done. }
  split; [exact Hwin|].
  intros Hnf.
  assert (load_store w' = load_store w1) as ->
    by (unfold load_store; by rewrite Hfs).
  rewrite Hstore by (intros n; rewrite HdN, Hed, Hd0; apply Hnf).
  subst bN. unfold add_fetched_records, initial_batch.
  cbn [existing_txs new_transactions existing_hashes].
  rewrite add_new_keep_first, hashes_of_nil. cbn [fst app].
  rewrite (deduplicate_keep_first txs).
  destruct (keep_first ∅ txs) as [|tx new] eqn:Hnew.
  - unfold load_store. rewrite HfsN, Hefs, Hfs0.
    fold (load_store w). exact Hempty.
  - rewrite merge_keep_first. cbn [app]. rewrite <- Hnew.
    apply keep_first_idem.
Qed.

Lemma empty_store_cycle_witness :
  load_store fresh_world = [] /\
  identify_gaps (load_store fresh_world) = Ok [(TOKEN_START_BLOCK, None)] /\
  current_max_of (load_store fresh_world) = Ok (TOKEN_START_BLOCK - 1).
Proof.
  split; [reflexivity|].
  destruct (empty_store_cycle init_self fresh_world eq_refl) as (H1 & H2 & _).
  split; assumption.
Defined.

(** A first cycle on a fresh directory, run: one window from the origin
    block to the head, announced as new blocks, none as a gap. *)
Example first_cycle_run :
  (fun x => (x.2, lines x.1.2, st_status <$> statuses x.1.2)) <$>
    run_cycle 10 init_self fresh_world
  = Some (CaughtUp, [line 38699339 38699489 (Fetched 2)],
          ["fetching_new"; "fetching"; "caught_up"]).
Proof.
  vm_cast_no_check
    (@eq_refl _ (Some (CaughtUp, [line 38699339 38699489 (Fetched 2)],
                       ["fetching_new"; "fetching"; "caught_up"]))).
Qed.

(** C5 (as amended). Skipped-window recovery: when the query of a
    window comes back empty-handed after at most [max_retries]
    requests, [fetch_range] prints the failure and goes on behind that
    window, taking no record for it.  On a later store, the gap
    detector returns an interval that contains a window [[a, b]]
    exactly when the window lies between the origin block and the
    lowest stored block, or between two consecutive stored blocks that
    are more than 1000 apart. *)
Theorem abandoned_window_recovery (fuel : nat) (self : Self) (w : World)
    (s e r : Z) :
  let attempt :=
    _make_request self (update_status "fetching" s e w) s (window_end s e r) in
  s <= e ->
  attempt.2 = None ->
  (served attempt.1.2 <= served w + max_retries)%nat /\
  fetch_range (S fuel) self w s e r =
    fetch_range fuel attempt.1.1
      (print_line (line s (window_end s e r) Failed) attempt.1.2)
      (window_end s e r + 1) e r /\
  forall txs bs lowest rest a b,
    block_numbers txs = Ok bs -> sorted_set bs = lowest :: rest -> a <= b ->
    exists gaps,
      identify_gaps txs = Ok gaps /\
      ((exists g, g ∈ gaps /\ covers g a b) <->
       (TOKEN_START_BLOCK <= a /\ b < lowest) \/
       (exists prev next,
          prev ∈ lowest :: rest /\ next ∈ lowest :: rest /\
          prev < a /\ b < next /\
          (forall x, x ∈ lowest :: rest -> x <= prev \/ next <= x) /\
          1000 < next - prev)).
Proof.
  intros attempt Hse Hnone.
  destruct attempt as [[self1 w1] results] eqn:Hreq. simpl in Hnone.
  subst results. cbn [fst snd]. split.
  { apply make_request_served in Hreq. simpl in Hreq. lia. }
  split.
  { cbn [fetch_range]. destruct (Z.ltb_spec e s); [lia|].
    fold (window_end s e r). subst attempt. by rewrite Hreq. }
  intros txs bs lowest rest a b. apply window_offered.
Qed.

Lemma abandoned_window_recovery_witness :
  let attempt :=
    _make_request init_self
      (update_status "fetching" 38704340 38704839 flaky_world)
      38704340 (window_end 38704340 38704839 5000) in
  38704340 <= 38704839 /\
  attempt.2 = None /\
  (served attempt.1.2 <= served flaky_world + max_retries)%nat.
Proof.
  intros attempt.
  assert (38704340 <= 38704839) as H1 by lia.
  assert (attempt.2 = None) as H2
    by (vm_cast_no_check (@eq_refl (option (list Tx)) None)).
  split; [exact H1|]. split; [exact H2|].
  exact (proj1 (abandoned_window_recovery 0 init_self flaky_world
                  38704340 38704839 5000 H1 H2)).
Defined.

(** C5, as stated, fails.  The store has records at the origin block
    and 5501 blocks later, so the gap between them is being filled.
    The first window yields five records, the second,
    [[38704340, 38704839]], is abandoned.  After the merge no record
    lies in the abandoned window, yet the gap detector returns no gap
    at all, and whatever is stored later it never returns a gap that
    contains that window. *)
Lemma abandoned_window_never_offered :
  identify_gaps holed_store = Ok [(38699340, Some 38704839)] /\
  (fun x => (x.2, lines x.1.2)) <$>
    fetch_range 20 init_self flaky_world 38699340 38704839 MAX_BLOCK_RANGE
  = Some (five_records,
          [line 38699340 38704339 (Fetched 5);
           line 38704340 38704839 Failed]) /\
  block_numbers (merge holed_store five_records)
  = Ok [38699339; 38704840; 38700339; 38701339; 38702339; 38703339;
        38704339] /\
  identify_gaps (merge holed_store five_records) = Ok [] /\
  (forall later gaps g,
     identify_gaps (merge holed_store five_records ++ later) = Ok gaps ->
     g ∈ gaps -> ~ covers g 38704340 38704839).
Proof.
  assert (block_numbers (merge holed_store five_records)
          = Ok [38699339; 38704840; 38700339; 38701339; 38702339; 38703339;
                38704339]) as Hblocks.
  { vm_cast_no_check
      (@eq_refl _ (@Ok (list Z) [38699339; 38704840; 38700339; 38701339;
                                 38702339; 38703339; 38704339])). }
  split.
  { vm_cast_no_check (@eq_refl _ (@Ok (list Gap) [(38699340, Some 38704839)])). }
  split.
  { vm_cast_no_check
      (@eq_refl _ (Some (five_records,
                         [line 38699340 38704339 (Fetched 5);
                          line 38704340 38704839 Failed]))). }
  split; [exact Hblocks|]. split.
  { vm_cast_no_check (@eq_refl _ (@Ok (list Gap) [])). }
  intros later gaps g Hgaps Hg Hcov.
  set (txs := merge holed_store five_records ++ later) in *.
  destruct (block_numbers txs) as [bs|err] eqn:Hbs.
  2:{ unfold identify_gaps, find_gaps in Hgaps. rewrite Hbs in Hgaps.
      by destruct txs. }
  assert (forall x, x ∈ [38704339; 38704840] -> x ∈ sorted_set bs) as Hin.
  { intros x Hx. apply elem_of_sorted_set.
    apply (block_numbers_elem _ _ x Hbs).
    assert (x ∈ [38699339; 38704840; 38700339; 38701339; 38702339;
                 38703339; 38704339]) as Hx'.
    { rewrite !elem_of_cons in Hx. rewrite !elem_of_cons.
      rewrite elem_of_nil in Hx. lia. }
    apply (block_numbers_elem _ _ x Hblocks) in Hx' as (tx & Htx & Hb).
    exists tx. split; [|done]. unfold txs. rewrite elem_of_app. by left. }
  destruct (sorted_set bs) as [|lowest rest] eqn:Hsorted.
  { specialize (Hin 38704339 ltac:(left)). by apply elem_of_nil in Hin. }
  destruct (window_offered TOKEN_START_BLOCK 1000 txs bs lowest rest
              38704340 38704839 Hbs Hsorted ltac:(lia))
    as (gaps' & Hgaps' & Hiff).
  unfold identify_gaps in Hgaps. rewrite Hgaps in Hgaps'.
  injection Hgaps' as <-.
  destruct (proj1 Hiff (ex_intro _ g (conj Hg Hcov)))
    as [[Ha Hb]|(p & n & _ & _ & Hp & Hn & Hbetween & Hfar)].
  - assert (StronglySorted Z.lt (lowest :: rest)) as Hs.
    { rewrite <- Hsorted. apply sorted_set_sorted. }
    specialize (Hin 38704339 ltac:(left)).
    apply elem_of_cons in Hin as [Heq|Hin]; [lia|].
    apply StronglySorted_inv in Hs as [_ Hall].
    rewrite Forall_forall in Hall. apply Hall in Hin. lia.
  - destruct (Hbetween 38704339 (Hin _ ltac:(left))) as [?|?]; [|lia].
    destruct (Hbetween 38704840 (Hin _ ltac:(right; left))) as [?|?]; lia.
Qed.

(** ** The rate budget *)

Lemma rate_limit_wait_spec self w :
  let self' := (_rate_limit_wait self w).1 in
  let w' := (_rate_limit_wait self w).2 in
  last_request_time self + 1000 <= clock w' /\
  clock w <= clock w' /\
  last_request_time self' = clock w' /\
  requests w' = requests w /\
  current_key_index self' = current_key_index self.
Proof.
  unfold _rate_limit_wait. cbn [fst snd].
  destruct (Z.ltb_spec (clock w - last_request_time self) 1000); simpl;
    repeat split; lia.
Qed.

Lemma rotate_key_round_robin self :
  current_key_index (_rotate_key self) =
  ((current_key_index self + 1) mod length API_KEYS)%nat /\
  (current_key_index (_rotate_key self) < length API_KEYS)%nat.
Proof.
  unfold _rotate_key. cbn [current_key_index set_key_index].
  split; [done|]. apply Nat.mod_upper_bound. simpl. lia.
Qed.

(** After HTTP 429 the key is rotated, 30 seconds pass, and the next
    attempt follows. *)
Lemma rate_limited_rotates remaining attempt params start_block self w json
    latency :
  provider w (served w) params = (Http 429 json, latency) ->
  request_attempts (S remaining) attempt params start_block self w =
  request_attempts remaining (S attempt) params start_block
    (_rotate_key (add_error (RateLimitedAt start_block) (count_request self)))
    (time_sleep 30000 (requests_get params w).2).
Proof.
  intros Hp. cbn [request_attempts]. unfold requests_get. rewrite Hp.
  reflexivity.
Qed.

Lemma request_attempts_requests n a params s selfx wx selfy wy results :
  request_attempts n a params s selfx wx = (selfy, wy, results) ->
  exists more,
    requests wy = requests wx ++ more /\
    (n <> O -> exists more', more = (clock wx, params) :: more').
Proof.
  revert a selfx wx.
  induction n as [|n IH]; intros a selfx wx; cbn [request_attempts].
  - intros [= <- <- <-]. exists []. by rewrite app_nil_r.
  - unfold requests_get.
    destruct (provider wx (served wx) params) as [resp lat].
    assert (forall wz, requests (backoff a wz) = requests wz) as Hb.
    { intros wz. unfold backoff. by destruct (a <? max_retries - 1)%nat. }
    assert (forall selfz wz,
      requests wz = requests wx ++ [(clock wx, params)] ->
      request_attempts n (S a) params s selfz wz = (selfy, wy, results) ->
      exists more,
        requests wy = requests wx ++ more /\
        (S n <> O -> exists more', more = (clock wx, params) :: more'))
      as Hgo.
    { intros selfz wz Hwz (more & -> & _)%IH. rewrite Hwz, <- app_assoc.
      eexists. split; [reflexivity|]. simpl. eauto. }
    assert (forall wz,
      requests wz = requests wx ++ [(clock wx, params)] ->
      exists more,
        requests wz = requests wx ++ more /\
        (S n <> O -> exists more', more = (clock wx, params) :: more'))
      as Hstop.
    { intros wz ->. eexists. split; [reflexivity|]. eauto. }
    destruct resp as [|code json].
    { apply Hgo. by rewrite Hb. }
    destruct (code =? 429); [by apply Hgo|].
    destruct (code =? 200); [|apply Hgo; by rewrite Hb].
    destruct json as [data|]; [|apply Hgo; by rewrite Hb].
    destruct (bool_decide _); [intros [= _ <- _]; by apply Hstop|].
    destruct (str_contains _ _); [intros [= _ <- _]; by apply Hstop|].
    destruct (b_rate_limit data); [by apply Hgo|].
    intros [= _ <- _]. by apply Hstop.
Qed.

(** Every [_make_request] sends its first request no sooner than one
    second after the time recorded by the previous wait, and records
    the time of that request. *)
Lemma make_request_first_request self w s e :
  exists t more,
    requests (_make_request self w s e).1.2 =
      requests w ++ (t, TokenTx s e (_get_api_key self)) :: more /\
    last_request_time self + 1000 <= t /\
    last_request_time (_make_request self w s e).1.1 = t.
Proof.
  unfold _make_request.
  pose proof (rate_limit_wait_spec self w) as (Hgap & _ & Hlast & Hreqs & Hkey).
  destruct (_rate_limit_wait self w) as [self1 w1]. cbn [fst snd] in *.
  exists (clock w1).
  assert (_get_api_key self1 = _get_api_key self) as ->.
  { unfold _get_api_key. by rewrite Hkey. }
  destruct (request_attempts _ _ _ _ _ _) as [[self2 w2] results] eqn:Hrun.
  pose proof (request_attempts_frame _ _ _ _ _ _ _ _ _ Hrun)
    as (_ & _ & _ & _ & _ & _ & _ & Hlast2).
  apply request_attempts_requests in Hrun as (more & Hmore & Hfirst).
  destruct Hfirst as (more' & ->); [done|].
  exists more'. cbn [fst snd]. rewrite Hmore, Hreqs.
  repeat split; [done|congruence].
Qed.

(** C7 fails on the code at this input: the provider answers every
    attempt for two consecutive windows with HTTP 500 after 100 ms.
    The fifth, last attempt for the first window is not followed by a
    sleep, and the wait before the first request for the second window
    measures from the time recorded before the first attempt, 50
    seconds earlier: the sixth request leaves 100 ms after the
    fifth. *)
Lemma requests_closer_than_interval :
  (fun x => fst <$> requests x.1.2) <$>
    fetch_range 20 init_self flaky_world 38704340 38714339 MAX_BLOCK_RANGE
  = Some [1700000000000; 1700000005100; 1700000015200; 1700000030300;
          1700000050400; 1700000050500; 1700000055600; 1700000065700;
          1700000080800; 1700000100900] /\
  1700000050500 - 1700000050400 < 1000.
Proof.
  split; [|lia].
  vm_cast_no_check
    (@eq_refl _
       (Some [1700000000000; 1700000005100; 1700000015200; 1700000030300;
              1700000050400; 1700000050500; 1700000055600; 1700000065700;
              1700000080800; 1700000100900])).
Qed.

(* ================================================================== *)
(** * Part III. Further properties of the code                         *)
(* ================================================================== *)

(** ** Gap detection: what the gaps are made of *)

Lemma find_gaps_ok_inv origin tolerance txs gaps :
  txs <> [] -> find_gaps origin tolerance txs = Ok gaps ->
  exists bs lowest rest,
    block_numbers txs = Ok bs /\ sorted_set bs = lowest :: rest.
Proof.
  unfold find_gaps. destruct txs as [|tx txs]; [done|]. intros _.
  destruct (block_numbers (tx :: txs)) as [bs|e]; [|done].
  cbn [mbind res_bind].
  destruct (sorted_set bs) as [|lowest rest] eqn:Hsorted; [done|].
  intros _. by exists bs, lowest, rest.
Qed.

Lemma block_of_raises tx e : block_of tx = Some (Raise e) -> e = ValueError.
Proof.
  unfold block_of. destruct (get_truthy tx "blockNumber") as [s|]; [|done].
  simpl. unfold py_int. destruct (py_int_base 10 s); congruence.
Qed.

Lemma block_numbers_raises txs e :
  block_numbers txs = Raise e <->
  e = ValueError /\ exists tx, tx ∈ txs /\ block_of tx = Some (Raise ValueError).
Proof.
  induction txs as [|tx txs IH]; simpl.
  - split; [done|]. by intros (_ & tx & ?%elem_of_nil & _).
  - destruct (block_of tx) as [[b|e']|] eqn:Hb; simpl.
    + destruct (block_numbers txs) as [bs|e'']; simpl.
      * split; [done|]. intros (-> & tx' & [->|Hin]%elem_of_cons & Hb');
          [congruence|].
        assert (Ok bs = Raise ValueError) as H; [|done].
        apply IH. eauto.
      * split.
        -- intros [= ->]. destruct (proj1 IH eq_refl) as (-> & tx' & Hin & Hb').
           split; [done|]. exists tx'. split; [by right|done].
        -- intros (-> & tx' & [->|Hin]%elem_of_cons & Hb'); [congruence|].
           f_equal. symmetry.
           assert (Raise e'' = Raise ValueError :> res (list Z)) as H
             by (apply IH; eauto).
           congruence.
    + pose proof (block_of_raises _ _ Hb) as ->. split.
      * intros [= <-]. split; [done|]. exists tx. split; [left|done].
      * by intros (-> & _).
    + rewrite IH. split.
      * intros (-> & tx' & Hin & Hb'). split; [done|].
        exists tx'. split; [by right|done].
      * intros (-> & tx' & [->|Hin]%elem_of_cons & Hb'); [congruence|].
        split; [done|]. eauto.
Qed.

Lemma block_numbers_nil txs :
  block_numbers txs = Ok [] <-> Forall (fun tx => block_of tx = None) txs.
Proof.
  induction txs as [|tx txs IH]; simpl.
  - split; [constructor|done].
  - destruct (block_of tx) as [[b|e']|] eqn:Hb; simpl.
    + split.
      * by destruct (block_numbers txs).
      * intros H. apply Forall_cons in H as [? _]. congruence.
    + split; [done|]. intros H. apply Forall_cons in H as [? _]. congruence.
    + rewrite IH. split; [by constructor|]. intros H.
      by apply Forall_cons in H as [_ ?].
Qed.

Lemma sorted_set_nil l : sorted_set l = [] <-> l = [].
Proof.
  split; [|by intros ->]. destruct l as [|x l]; [done|]. intros H.
  assert (x ∈ sorted_set (x :: l)) as Hx by (apply elem_of_sorted_set; left).
  rewrite H in Hx. by apply elem_of_nil in Hx.
Qed.

(** X1. The gaps [identify_gaps] returns for a non-empty store are
    closed and not empty, and none of them contains the block of a
    stored record. *)
Theorem gaps_hold_no_stored_block (txs : list Tx) (gaps : list Gap) :
  txs <> [] ->
  identify_gaps txs = Ok gaps ->
  forall g, g ∈ gaps ->
    exists e, g.2 = Some e /\ g.1 <= e /\
      forall tx b, tx ∈ txs -> block_of tx = Some (Ok b) ->
                   b < g.1 \/ e < b.
Proof.
  intros Hne Hrun g Hg.
  destruct (find_gaps_ok_inv _ _ _ _ Hne Hrun) as (bs & lowest & rest & Hbs & Hsorted).
  destruct (find_gaps_spec TOKEN_START_BLOCK 1000 txs bs lowest rest Hbs Hsorted)
    as (Hs & Hblocks & gaps' & Hrun' & Hgaps & _).
  unfold identify_gaps in Hrun. rewrite Hrun in Hrun'. injection Hrun' as <-.
  apply Hgaps in Hg as [[Hlow ->]|(p & n & Hadj & Hfar & ->)]; simpl.
  - exists (lowest - 1). split; [done|]. split; [lia|].
    intros tx b Htx Hb. right.
    assert (b ∈ lowest :: rest) as Hin by (apply Hblocks; eauto).
    apply elem_of_cons in Hin as [->|Hin]; [lia|].
    apply StronglySorted_inv in Hs as [_ Hall].
    rewrite Forall_forall in Hall. apply Hall in Hin. lia.
  - exists (n - 1). split; [done|]. split; [lia|].
    intros tx b Htx Hb.
    assert (b ∈ lowest :: rest) as Hin by (apply Hblocks; eauto).
    apply (adjacent_iff _ _ _ Hs) in Hadj as (_ & _ & _ & Hbetween).
    destruct (Hbetween b Hin); lia.
Qed.

Lemma gaps_hold_no_stored_block_witness :
  holed_store <> [] /\
  identify_gaps holed_store = Ok [(38699340, Some 38704839)] /\
  exists e, Some 38704839 = Some e /\ 38699340 <= e.
Proof.
  assert (holed_store <> []) as H1 by discriminate.
  assert (identify_gaps holed_store = Ok [(38699340, Some 38704839)]) as H2.
  { vm_cast_no_check (@eq_refl _ (@Ok (list Gap) [(38699340, Some 38704839)])). }
  split; [exact H1|]. split; [exact H2|].
  destruct (gaps_hold_no_stored_block holed_store _ H1 H2
              (38699340, Some 38704839) ltac:(left)) as (e & He & Hle & _).
  exists e. split; assumption.
Defined.

(** X2. When [identify_gaps] raises: [ValueError] exactly when some
    record has a block number that is no numeral, [IndexError] exactly
    when the store is not empty and no record has a block number; it
    raises nothing else. *)
Theorem identify_gaps_raises (txs : list Tx) :
  (identify_gaps txs = Raise ValueError <->
   exists tx, tx ∈ txs /\ block_of tx = Some (Raise ValueError)) /\
  (identify_gaps txs = Raise IndexError <->
   txs <> [] /\ Forall (fun tx => block_of tx = None) txs) /\
  (forall e, identify_gaps txs = Raise e -> e = ValueError \/ e = IndexError).
Proof.
  unfold identify_gaps, find_gaps. destruct txs as [|tx0 txs].
  { split; [|split; [|done]].
    - split; [done|]. by intros (tx & ?%elem_of_nil & _).
    - split; [done|]. by intros [? _]. }
  set (l := tx0 :: txs).
  pose proof (block_numbers_raises l) as Hraise.
  pose proof (block_numbers_nil l) as Hnil.
  destruct (block_numbers l) as [bs|e0] eqn:Hbs; cbn [mbind res_bind].
  - destruct (sorted_set bs) as [|lowest rest] eqn:Hsorted.
    + apply sorted_set_nil in Hsorted as ->.
      split; [|split; [|intros e [= <-]; by right]].
      * split; [done|]. intros Hex.
        assert (Ok [] = Raise ValueError :> res (list Z)) as H; [|done].
        apply Hraise. by split.
      * split; [|done]. intros _. split; [done|]. by apply Hnil.
    + split; [|split; [|done]].
      * split; [done|]. intros Hex.
        assert (Ok bs = Raise ValueError :> res (list Z)) as H; [|done].
        apply Hraise. by split.
      * split; [done|]. intros [_ Hall%Hnil]. injection Hall as ->. done.
  - destruct (proj1 (Hraise e0) eq_refl) as (-> & Hex).
    split; [|split; [|intros e [= <-]; by left]].
    + split; [by intros _|done].
    + split; [done|]. by intros [_ Hall%Hnil].
Qed.

(** ** Merging: nothing invented, nothing lost *)

Lemma keep_first_sublist seen l : keep_first seen l `sublist_of` l.
Proof.
  revert seen. induction l as [|tx l IH]; intros seen; simpl; [done|].
  destruct (get_truthy tx "hash") as [h|]; [|by apply sublist_cons].
  destruct (decide (h ∈ seen)); [by apply sublist_cons|by apply sublist_skip].
Qed.

Lemma keep_first_clean seen l :
  clean l -> (forall h, h ∈ hashes_of l -> h ∉ seen) -> keep_first seen l = l.
Proof.
  intros [Hall Hnodup]. revert seen.
  induction l as [|tx l IH]; intros seen Hseen; simpl; [done|].
  apply Forall_cons in Hall as [[h Hh] Hall].
  simpl in Hnodup. apply NoDup_cons in Hnodup as [Hfresh Hnodup].
  rewrite Hh. rewrite hashes_of_cons, Hh in Hseen.
  rewrite decide_False by (apply Hseen; set_solver).
  f_equal. apply IH; [done..|].
  intros h' Hh' [->%elem_of_singleton|Hin]%elem_of_union.
  - apply Hfresh. unfold hashes_of in Hh'.
    apply elem_of_list_to_set, list_elem_of_omap in Hh' as (tx' & Htx' & Hh'').
    apply list_elem_of_fmap. exists tx'. split; [|done].
    by rewrite (get_truthy_lookup _ _ Hh), (get_truthy_lookup _ _ Hh'').
  - apply (Hseen h'); [|done]. set_solver.
Qed.

Lemma merge_clean existing new : clean (merge existing new).
Proof.
  split; [apply merge_hashed|]. rewrite merge_keep_first. apply keep_first_NoDup.
Qed.

(** X3. [save_transactions] never invents or reorders records: what
    it merges is a subsequence of [existing_txs + new_transactions],
    and it is clean (every record identified, no identifier twice)
    whatever went in. *)
Theorem merge_subsequence_clean (existing new : list Tx) :
  merge existing new `sublist_of` existing ++ new /\
  clean (merge existing new).
Proof.
  split; [|apply merge_clean].
  rewrite merge_keep_first. apply keep_first_sublist.
Qed.

(** X4. A store that is already clean is kept whole and in place by
    the merge of [save_transactions]: the result is the store followed
    by records of the new batch, each with an identifier the store
    does not have. *)
Theorem merge_keeps_clean_store (existing new : list Tx) :
  clean existing ->
  exists added, merge existing new = existing ++ added /\
                added `sublist_of` new /\
                Forall (fun tx => exists h, get_truthy tx "hash" = Some h /\
                                            h ∉ hashes_of existing) added.
Proof.
  intros Hclean. exists (keep_first (hashes_of existing) new).
  rewrite merge_keep_first, keep_first_app.
  rewrite keep_first_clean by (done || set_solver).
  split; [do 2 f_equal; set_solver|].
  split; [apply keep_first_sublist|apply keep_first_hashed].
Qed.

Lemma merge_keeps_clean_store_witness :
  clean holed_store /\
  exists added, merge holed_store five_records = holed_store ++ added /\
                added `sublist_of` five_records.
Proof.
  assert (clean holed_store) as H.
  { split.
    - repeat constructor; by eexists.
    - vm_compute. repeat constructor; rewrite ?elem_of_cons, ?elem_of_nil;
        intros Hin; repeat destruct Hin as [Hin|Hin]; done. }
  split; [exact H|].
  destruct (merge_keeps_clean_store holed_store five_records H)
    as (added & Hmerge & Hsub & _).
  exists added. split; assumption.
Defined.

(** X5. The filter of the cycle and the merge of [save_transactions]
    agree: the records the cycle collects from two fetched batches are
    the first occurrences, among both, of the identifiers the store
    does not have, and merging them gives what merging the unfiltered
    batches would give. *)
Theorem filter_then_merge (existing batch1 batch2 : list Tx) :
  let collected :=
    (add_new batch2 (add_new batch1 [] (hashes_of existing)).1
                    (add_new batch1 [] (hashes_of existing)).2).1 in
  collected = keep_first (hashes_of existing) (batch1 ++ batch2) /\
  merge existing collected = merge existing (batch1 ++ batch2).
Proof.
  assert (forall txs new hs,
    add_new txs new hs = (new ++ keep_first hs txs, hashes_of txs ∪ hs))
    as Hadd.
  { induction txs as [|tx txs IH]; intros new hs; simpl.
    - rewrite app_nil_r, hashes_of_nil. f_equal. set_solver.
    - rewrite hashes_of_cons.
      destruct (get_truthy tx "hash") as [h|]; [|apply IH].
      destruct (decide (h ∈ hs)).
      + rewrite IH. f_equal. set_solver.
      + rewrite IH, <- app_assoc. f_equal. set_solver. }
  intros collected. subst collected. rewrite !Hadd. cbn [fst snd app].
  assert (keep_first (hashes_of existing) batch1
            ++ keep_first (hashes_of batch1 ∪ hashes_of existing) batch2
          = keep_first (hashes_of existing) (batch1 ++ batch2)) as ->.
  { by rewrite keep_first_app. }
  split; [done|].
  rewrite !merge_keep_first, !(keep_first_app _ existing).
  f_equal. assert (hashes_of existing ∪ ∅ = hashes_of existing) as ->
    by set_solver.
  apply keep_first_idem.
Qed.

(** ** The callers' merge *)

Lemma unique_new_keep_first transactions new seen :
  hashes_of transactions ⊆ seen ->
  keep_first seen (Main.unique_new transactions new) = keep_first seen new.
Proof.
  unfold Main.unique_new. revert seen.
  induction new as [|tx new IH]; intros seen Hsub; [done|].
  rewrite filter_cons. destruct (decide _) as [Hfresh|Hold].
  - simpl. destruct (get_truthy tx "hash") as [h|]; [|by apply IH].
    destruct (decide (h ∈ seen)); [by apply IH|].
    f_equal. apply IH. set_solver.
  - simpl. rewrite IH by done.
    destruct (get_truthy tx "hash") as [h|] eqn:Hh; [|done].
    rewrite decide_True; [done|]. apply Hsub.
    apply dec_stable in Hold. unfold Main.existing_hashes in Hold.
    apply elem_of_list_to_set, list_elem_of_fmap in Hold as (tx' & Heq & Hin).
    unfold hashes_of. apply elem_of_list_to_set, list_elem_of_omap.
    exists tx'. split; [done|].
    unfold get_truthy in *. by rewrite <- Heq.
Qed.

(** X6. The filter of the callers ([main.py], [fetch_backwards.py])
    does not change what is written: when a caller saves, the
    deduplicated list is that of the stored records followed by the
    whole fetched batch; when it does not save, nothing of the batch
    would have been kept. *)
Theorem caller_filter_redundant (transactions new : list Tx) :
  match Main.merged transactions new with
  | Some l =>
    RoutescanFetcher.save_transactions l =
      RoutescanFetcher.save_transactions (transactions ++ new) /\
    deduplicate l = deduplicate (transactions ++ new)
  | None =>
    RoutescanFetcher.save_transactions (transactions ++ new) =
      RoutescanFetcher.save_transactions transactions /\
    deduplicate (transactions ++ new) = deduplicate transactions
  end.
Proof.
  assert (keep_first ∅ (transactions ++ Main.unique_new transactions new)
          = keep_first ∅ (transactions ++ new)) as Heq.
  { rewrite !keep_first_app. f_equal.
    apply unique_new_keep_first. set_solver. }
  unfold Main.merged.
  destruct (Main.unique_new transactions new) as [|tx fresh] eqn:Hnew.
  - rewrite app_nil_r in Heq.
    rewrite !routescan_keep_first, !deduplicate_keep_first.
    split; congruence.
  - rewrite !routescan_keep_first, !deduplicate_keep_first.
    split; congruence.
Qed.

(** ** The duplicate count of [RoutescanFetcher.save_transactions] *)

Lemma fold_routescan_count l (st : RoutescanFetcher.dedup_state) :
  let st' := fold_left RoutescanFetcher.step l st in
  (length (RoutescanFetcher.unique_transactions st')
   + RoutescanFetcher.duplicates_removed st'
   = length (RoutescanFetcher.unique_transactions st)
     + RoutescanFetcher.duplicates_removed st + length (identifiers l))%nat /\
  RoutescanFetcher.seen_hashes st' =
    hashes_of l ∪ RoutescanFetcher.seen_hashes st.
Proof.
  revert st. induction l as [|tx l IH]; intros st; cbn [fold_left].
  - cbv zeta. unfold identifiers. rewrite hashes_of_nil. simpl.
    split; [lia|set_solver].
  - cbv zeta in *. destruct (IH (RoutescanFetcher.step st tx)) as [-> ->].
    unfold RoutescanFetcher.step. rewrite hashes_of_cons.
    assert (identifiers (tx :: l) =
            match get_truthy tx "hash" with
            | Some h => h :: identifiers l
            | None => identifiers l
            end) as ->.
    { unfold identifiers. simpl. by destruct (get_truthy tx "hash"). }
    destruct (get_truthy tx "hash") as [h|]; [|by split].
    destruct (decide (h ∈ _)); simpl.
    + split; [lia|set_solver].
    + rewrite length_app. simpl. split; [lia|set_solver].
Qed.

(** X7. The count [RoutescanFetcher.save_transactions] reports as
    removed duplicates, added to the number of records it writes, is
    the number of records that carry an identifier: a record without
    one is dropped without being counted. *)
Theorem duplicates_removed_count (transactions : list Tx) :
  let final :=
    fold_left RoutescanFetcher.step transactions
      {| RoutescanFetcher.seen_hashes := ∅;
         RoutescanFetcher.unique_transactions := [];
         RoutescanFetcher.duplicates_removed := 0 |} in
  (length (RoutescanFetcher.save_transactions transactions)
   + RoutescanFetcher.duplicates_removed final
   = length (identifiers transactions))%nat /\
  RoutescanFetcher.seen_hashes final = hashes_of transactions.
Proof.
  intros final. unfold RoutescanFetcher.save_transactions. fold final.
  subst final.
  destruct (fold_routescan_count transactions
    {| RoutescanFetcher.seen_hashes := ∅;
       RoutescanFetcher.unique_transactions := [];
       RoutescanFetcher.duplicates_removed := 0 |}) as [Hcount Hseen].
  cbv zeta in *. rewrite Hcount, Hseen. simpl. split; [lia|set_solver].
Qed.

(** ** The requests of one [_make_request] *)

Lemma request_attempts_trace n a params s selfx wx selfy wy results :
  (n + a = max_retries)%nat ->
  request_attempts n a params s selfx wx = (selfy, wy, results) ->
  exists more,
    requests wy = requests wx ++ more /\
    Forall (fun p => p.2 = params /\ clock wx <= p.1) more /\
    spaced 5000 more /\ (length more <= n)%nat /\
    (n <> O -> exists more', more = (clock wx, params) :: more').
Proof.
  revert a selfx wx.
  induction n as [|n IH]; intros a selfx wx Hna; cbn [request_attempts].
  - intros [= <- <- <-]. exists []. rewrite app_nil_r.
    repeat split; done.
  - unfold requests_get.
    destruct (provider wx (served wx) params) as [resp lat].
    assert (forall wz, requests (backoff a wz) = requests wz) as Hb.
    { intros wz. unfold backoff. by destruct (a <? max_retries - 1)%nat. }
    assert (forall wz, n <> O -> clock wz + 5000 <= clock (backoff a wz))
      as Hbc.
    { intros wz Hn. unfold backoff, max_retries in *.
      destruct (Nat.ltb_spec a (5 - 1)); [simpl; lia|lia]. }
    assert (forall selfz wz,
      requests wz = requests wx ++ [(clock wx, params)] ->
      (n <> O -> clock wx + 5000 <= clock wz) ->
      request_attempts n (S a) params s selfz wz = (selfy, wy, results) ->
      exists more,
        requests wy = requests wx ++ more /\
        Forall (fun p => p.2 = params /\ clock wx <= p.1) more /\
        spaced 5000 more /\ (length more <= S n)%nat /\
        (S n <> O -> exists more', more = (clock wx, params) :: more'))
      as Hgo.
    { intros selfz wz Hwz Hclock Hrun.
      apply IH in Hrun as (more & -> & Hall & Hsp & Hlen & Hhead); [|lia].
      exists ((clock wx, params) :: more).
      rewrite Hwz, <- app_assoc. split; [done|].
      destruct more as [|q more].
      { repeat split; simpl; try lia; eauto.
        constructor; [|constructor]. simpl. split; [done|lia]. }
      assert (n <> O) as Hn by (simpl in Hlen; lia).
      specialize (Hclock Hn).
      split.
      { constructor; [simpl; split; [done|lia]|].
        eapply Forall_impl; [exact Hall|]. simpl. intros p [? ?].
        split; [done|lia]. }
      split.
      { split; [|exact Hsp]. apply Forall_cons in Hall as [[_ Hq] _].
        simpl in *. lia. }
      split; [simpl in *; lia|]. eauto. }
    assert (forall wz,
      requests wz = requests wx ++ [(clock wx, params)] ->
      exists more,
        requests wz = requests wx ++ more /\
        Forall (fun p => p.2 = params /\ clock wx <= p.1) more /\
        spaced 5000 more /\ (length more <= S n)%nat /\
        (S n <> O -> exists more', more = (clock wx, params) :: more'))
      as Hstop.
    { intros wz ->. eexists. split; [reflexivity|].
      repeat split; simpl; try lia; eauto.
      constructor; [|constructor]. simpl. split; [done|lia]. }
    destruct resp as [|code json].
    { apply Hgo; [by rewrite Hb|]. intros Hn.
      pose proof (Hbc {| clock := clock wx + Z.max 0 lat;
        provider := provider wx; served := S (served wx);
        requests := requests wx ++ [(clock wx, params)];
        disk := disk wx; saves := saves wx; fs := fs wx;
        statuses := statuses wx; lines := lines wx |} Hn) as Hc.
      simpl in Hc. lia. }
    destruct (code =? 429); [apply Hgo; [done|simpl; lia]|].
    destruct (code =? 200).
    2:{ apply Hgo; [by rewrite Hb|]. intros Hn.
        pose proof (Hbc {| clock := clock wx + Z.max 0 lat;
          provider := provider wx; served := S (served wx);
          requests := requests wx ++ [(clock wx, params)];
          disk := disk wx; saves := saves wx; fs := fs wx;
          statuses := statuses wx; lines := lines wx |} Hn) as Hc.
        simpl in Hc. lia. }
    destruct json as [data|].
    2:{ apply Hgo; [by rewrite Hb|]. intros Hn.
        pose proof (Hbc {| clock := clock wx + Z.max 0 lat;
          provider := provider wx; served := S (served wx);
          requests := requests wx ++ [(clock wx, params)];
          disk := disk wx; saves := saves wx; fs := fs wx;
          statuses := statuses wx; lines := lines wx |} Hn) as Hc.
        simpl in Hc. lia. }
    destruct (bool_decide _); [intros [= _ <- _]; by apply Hstop|].
    destruct (str_contains _ _); [intros [= _ <- _]; by apply Hstop|].
    destruct (b_rate_limit data); [apply Hgo; [done|simpl; lia]|].
    intros [= _ <- _]. by apply Hstop.
Qed.

(** X8. One call of [_make_request] sends at least one and at most
    five requests.  All of them are the same query, with the key that
    was active on entry (a key rotated to after HTTP 429 is first used
    by the next call); the first leaves no sooner than one second
    after the recorded time of the previous call, and that time is
    what the call records; each retry leaves at least five seconds
    after the attempt before it. *)
Theorem make_request_trace (self : Self) (w : World) (s e : Z) :
  let run := _make_request self w s e in
  let query := TokenTx s e (_get_api_key self) in
  exists t more,
    requests run.1.2 = requests w ++ (t, query) :: more /\
    last_request_time self + 1000 <= t /\ clock w <= t /\
    last_request_time run.1.1 = t /\
    (length more < max_retries)%nat /\
    Forall (fun p => p.2 = query) more /\
    spaced 5000 ((t, query) :: more).
Proof.
  intros run query. subst run query. unfold _make_request.
  assert (let self' := (_rate_limit_wait self w).1 in
          let w' := (_rate_limit_wait self w).2 in
          last_request_time self + 1000 <= clock w' /\
          clock w <= clock w' /\
          last_request_time self' = clock w' /\
          requests w' = requests w /\
          current_key_index self' = current_key_index self)
    as (Hgap & Hmono & Hlast & Hreqs & Hkey).
  { unfold _rate_limit_wait. cbn [fst snd].
    destruct (Z.ltb_spec (clock w - last_request_time self) 1000); simpl;
      repeat split; lia. }
  destruct (_rate_limit_wait self w) as [self1 w1]. cbn [fst snd] in *.
  exists (clock w1).
  assert (_get_api_key self1 = _get_api_key self) as ->.
  { unfold _get_api_key. by rewrite Hkey. }
  destruct (request_attempts _ _ _ _ _ _) as [[self2 w2] results] eqn:Hrun.
  pose proof (request_attempts_frame _ _ _ _ _ _ _ _ _ Hrun)
    as (_ & _ & _ & _ & _ & _ & _ & Hlast2).
  apply request_attempts_trace in Hrun
    as (more & Hmore & Hall & Hsp & Hlen & Hfirst); [|done].
  destruct Hfirst as (more' & ->); [done|].
  exists more'. cbn [fst snd]. rewrite Hmore, Hreqs.
  split; [done|]. split; [done|]. split; [done|].
  split; [congruence|]. split; [simpl in Hlen; lia|].
  split; [|exact Hsp].
  apply Forall_cons in Hall as [_ Hall].
  eapply Forall_impl; [exact Hall|]. by intros p [? _].
Qed.

(** ** The windows of [fetch_range] *)

Lemma final_windows_app ls1 ls2 :
  final_windows (ls1 ++ ls2) = final_windows ls1 ++ final_windows ls2.
Proof.
  induction ls1 as [|l ls1 IH]; [done|]. simpl.
  destruct (line_outcome l); by rewrite ?IH.
Qed.

Lemma tiles_app s m e ls1 ls2 :
  s <= m + 1 -> m <= e ->
  tiles s m ls1 -> tiles (m + 1) e ls2 -> tiles s e (ls1 ++ ls2).
Proof.
  revert s. induction ls1 as [|l ls1 IH]; intros s Hsm Hme; simpl.
  - intros Hs. by replace s with (m + 1) by lia.
  - intros (Hstart & Hle & Hend & Hrest) H2.
    repeat split; [done|done|lia|]. apply IH; [lia|done..].
Qed.

Lemma windows_tiles r s e ls :
  0 < r -> s <= e + 1 -> windows r s e ls -> tiles s e (final_windows ls).
Proof.
  intros Hr Hse Hwin. revert Hr Hse.
  induction Hwin as [r s e Hlt
                    | r s e ls Hle _ IH
                    | r s e n ls Hle Hcap _ IH
                    | r s e n ls Hle Hcap Hsmall _ IH
                    | r s e n sub ls Hle Hcap Hbig _ IH1 _ IH2];
    intros Hr Hse.
  - done.
  - simpl. unfold window_end in *. repeat split; [lia..|]. apply IH; lia.
  - simpl. unfold window_end in *. repeat split; [lia..|]. apply IH; lia.
  - simpl. unfold window_end in *. repeat split; [lia..|]. apply IH; lia.
  - cbn [final_windows line line_outcome]. rewrite final_windows_app.
    assert (0 < Z.max (r / 2) MIN_BLOCK_RANGE) as Hr'
      by (unfold MIN_BLOCK_RANGE; lia).
    unfold window_end in *.
    eapply tiles_app; [| |apply IH1|apply IH2]; lia.
Qed.

(** X9. The windows [fetch_range] decides on (those fetched, taken at
    the minimum size, or given up) tile the target range: the first
    starts at [start_block], each next one starts right after the one
    before, none is empty, and the last ends at [end_block]. *)
Theorem fetch_range_tiles (fuel : nat) (self : Self) (w : World)
    (s e r : Z) :
  0 < r -> s <= e + 1 -> (fetch_fuel s e r <= fuel)%nat ->
  exists self' w' txs ls,
    fetch_range fuel self w s e r = Some (self', w', txs) /\
    lines w' = lines w ++ ls /\
    tiles s e (final_windows ls).
Proof.
  intros Hr Hse Hfuel.
  destruct (fetch_range_returns fuel self w s e r Hr Hfuel)
    as [[[self' w'] txs] Hrun].
  destruct (fetch_range_lines _ _ _ _ _ _ _ _ _ Hrun) as (ls & Hls & Hwin & _).
  exists self', w', txs, ls.
  split; [done|]. split; [done|]. by eapply windows_tiles.
Qed.

Lemma fetch_range_tiles_witness :
  0 < MAX_BLOCK_RANGE /\ 1 <= 10 + 1 /\
  (fetch_fuel 1 10 MAX_BLOCK_RANGE <= 200)%nat /\
  exists self' w' txs ls,
    fetch_range 200 init_self dense_world 1 10 MAX_BLOCK_RANGE
      = Some (self', w', txs) /\
    lines w' = lines dense_world ++ ls /\
    tiles 1 10 (final_windows ls).
Proof.
  assert (0 < MAX_BLOCK_RANGE) as H1 by (unfold MAX_BLOCK_RANGE; lia).
  assert (1 <= 10 + 1) as H2 by lia.
  assert (fetch_fuel 1 10 MAX_BLOCK_RANGE <= 200)%nat as H3.
  { apply Nat.leb_le. vm_compute. reflexivity. }
  split; [exact H1|]. split; [exact H2|]. split; [exact H3|].
  exact (fetch_range_tiles 200 init_self dense_world 1 10
           MAX_BLOCK_RANGE H1 H2 H3).
Defined.

(** ** The cycle as a sequence of effects *)

Section Effects.

#[local] Arguments save_transactions : simpl never.
#[local] Arguments final_save : simpl never.
#[local] Arguments check_caught_up : simpl never.
#[local] Arguments get_current_block : simpl never.
#[local] Arguments identify_gaps : simpl never.
#[local] Arguments current_max_of : simpl never.
#[local] Arguments _make_request : simpl never.
#[local] Arguments time_sleep : simpl never.
#[local] Arguments update_status : simpl never.
#[local] Arguments print_line : simpl never.

Implicit Types (self : Self) (w : World) (b : Batch).

Lemma rate_limit_wait_effects self w :
  rtc effect (self, w) (_rate_limit_wait self w).
Proof.
  unfold _rate_limit_wait. cbv zeta.
  destruct (Z.ltb_spec (clock w - last_request_time self) 1000).
  - eapply rtc_l;
      [apply (effect_sleep _ _ (1000 - (clock w - last_request_time self)));
       lia|].
    apply rtc_once, effect_stamp.
  - apply rtc_once, effect_stamp.
Qed.

Lemma request_attempts_effects n a params s self w :
  rtc effect (self, w) (request_attempts n a params s self w).1.
Proof.
  revert a self w. induction n as [|n IH]; intros a self w;
    cbn [request_attempts]; [reflexivity|].
  destruct (requests_get params w) as [resp w1] eqn:Hget.
  assert (effect (self, w) (self, w1)) as H0.
  { replace w1 with (requests_get params w).2 by (by rewrite Hget).
    constructor. }
  assert (forall selfz wz, rtc effect (self, w1) (selfz, wz) ->
            rtc effect (self, w)
              (request_attempts n (S a) params s selfz wz).1) as Hgo.
  { intros selfz wz Hz. eapply rtc_l; [exact H0|].
    etrans; [exact Hz|apply IH]. }
  assert (forall selfz, rtc effect (selfz, w1) (selfz, backoff a w1)) as Hb.
  { intros selfz. unfold backoff.
    destruct (a <? max_retries - 1)%nat; [|reflexivity].
    apply rtc_once, effect_sleep. lia. }
  destruct resp as [|code json].
  { apply Hgo. eapply rtc_l; [apply effect_error|]. apply Hb. }
  cbv zeta.
  destruct (code =? 429).
  { apply Hgo. eapply rtc_l; [apply effect_count|].
    eapply rtc_l; [apply effect_error|].
    eapply rtc_l; [apply effect_rotate|].
    apply rtc_once, effect_sleep. lia. }
  destruct (code =? 200).
  2:{ apply Hgo. eapply rtc_l; [apply effect_count|].
      eapply rtc_l; [apply effect_error|]. apply Hb. }
  destruct json as [data|].
  2:{ apply Hgo. eapply rtc_l; [apply effect_count|].
      eapply rtc_l; [apply effect_error|]. apply Hb. }
  destruct (bool_decide _).
  { cbn [fst]. eapply rtc_l; [exact H0|]. apply rtc_once, effect_count. }
  destruct (str_contains _ _).
  { cbn [fst]. eapply rtc_l; [exact H0|]. apply rtc_once, effect_count. }
  destruct (b_rate_limit data).
  { apply Hgo. eapply rtc_l; [apply effect_count|].
    eapply rtc_l; [apply effect_rotate|].
    apply rtc_once, effect_sleep. lia. }
  cbn [fst]. eapply rtc_l; [exact H0|].
  eapply rtc_l; [apply effect_count|]. apply rtc_once, effect_error.
Qed.

Lemma make_request_effects self w s e :
  rtc effect (self, w) (_make_request self w s e).1.
Proof.
  unfold _make_request.
  pose proof (rate_limit_wait_effects self w) as Hwait.
  destruct (_rate_limit_wait self w) as [self1 w1].
  etrans; [exact Hwait|apply request_attempts_effects].
Qed.

Lemma fetch_range_effects fuel self w s e r self' w' txs :
  fetch_range fuel self w s e r = Some (self', w', txs) ->
  rtc effect (self, w) (self', w').
Proof.
  revert self w s e r self' w' txs.
  induction fuel as [|fuel IH]; intros self w s e r self' w' txs; [done|].
  cbn [fetch_range]. destruct (e <? s).
  { intros [= <- <- <-]. reflexivity. }
  cbv zeta.
  match goal with |- context [_make_request self ?wq s ?ce] =>
    pose proof (make_request_effects self wq s ce) as Hreq;
    destruct (_make_request self wq s ce) as [[self1 w1] results] end.
  cbn [fst] in Hreq.
  assert (rtc effect (self, w) (self1, w1)) as H1.
  { eapply rtc_l; [apply effect_status|exact Hreq]. }
  clear Hreq.
  assert (forall self2 w2 (batch : list Tx),
    rtc effect (self1, w1) (self2, w2) ->
    ('(self3, w3, more) ←
       fetch_range fuel self2 w2 (Z.min (s + r - 1) e + 1) e r;
       Some (self3, w3, batch ++ more)) = Some (self', w', txs) ->
    rtc effect (self, w) (self', w')) as Hmore.
  { intros self2 w2 batch H2 Hx.
    destruct (fetch_range fuel self2 w2 _ e r) as [[[self3 w3] more]|] eqn:Hy;
      [|done].
    cbn in Hx. injection Hx as <- <- <-.
    apply IH in Hy. etrans; [exact H1|]. etrans; [exact H2|exact Hy]. }
  assert (forall self0 w0 l n,
    rtc effect (self0, w0) (add_fetched n self0, print_line l w0)) as Hpf.
  { intros self0 w0 l n. eapply rtc_l; [apply effect_print|].
    apply rtc_once, effect_fetched. }
  destruct results as [results|].
  2:{ intros H. apply IH in H. etrans; [exact H1|].
      eapply rtc_l; [apply effect_print|exact H]. }
  destruct (capped (length results)); [|apply Hmore, Hpf].
  destruct (MIN_BLOCK_RANGE <? r); [|apply Hmore, Hpf].
  destruct (fetch_range fuel self1 _ s _ _) as [[[self2 w2] sub]|] eqn:Hsub;
    [|done].
  apply IH in Hsub. cbn [mbind option_bind].
  apply Hmore. eapply rtc_l; [apply effect_print|].
  etrans; [exact Hsub|]. apply rtc_once, effect_fetched.
Qed.

Lemma get_current_block_effects self w :
  rtc effect (self, w) (get_current_block self w).1.
Proof.
  unfold get_current_block.
  pose proof (rate_limit_wait_effects self w) as Hwait.
  destruct (_rate_limit_wait self w) as [self1 w1].
  destruct (requests_get _ w1) as [resp w2] eqn:Hget.
  assert (rtc effect (self, w) (self1, w2)) as H.
  { etrans; [exact Hwait|]. apply rtc_once.
    replace w2 with (requests_get (BlockNumber (_get_api_key self1)) w1).2
      by (by rewrite Hget).
    constructor. }
  destruct resp as [|code [data|]]; try exact H.
  destruct (code =? 200); [|exact H].
  destruct (b_block data); exact H.
Qed.

Lemma fill_gaps_effects fuel gaps i total current_max self w b selfG wG r :
  fill_gaps fuel gaps i total current_max self w b = Some (selfG, wG, r) ->
  rtc effect (self, w) (selfG, wG).
Proof.
  revert i self w b.
  induction gaps as [|[start gap_end] gaps IH]; intros i self w b;
    cbn [fill_gaps].
  { intros [= <- <- <-]. reflexivity. }
  destruct (_ <? start); [apply IH|]. cbv zeta.
  destruct (fetch_range fuel _ _ start _ _) as [[[self1 w1] txs]|] eqn:Hrun;
    [|done].
  apply fetch_range_effects in Hrun. cbn [mbind option_bind].
  assert (rtc effect (self, w) (self1, w1)) as H1.
  { eapply rtc_l; [apply effect_gaps|].
    eapply rtc_l; [apply effect_status|exact Hrun]. }
  destruct (add_new _ _ _) as [new hashes].
  destruct (10000 <? _).
  2:{ intros H. apply IH in H. etrans; [exact H1|exact H]. }
  destruct (save_transactions w1 (existing_txs b) new) as [w2 saved] eqn:Hsave.
  assert (rtc effect (self1, w1) (self1, w2)) as H2.
  { apply rtc_once.
    replace w2 with (save_transactions w1 (existing_txs b) new).1
      by (by rewrite Hsave).
    constructor. }
  destruct saved as [existing|ex].
  - intros H. apply IH in H. etrans; [exact H1|]. etrans; [exact H2|exact H].
  - intros [= <- <- <-]. etrans; [exact H1|exact H2].
Qed.

Lemma fetch_new_blocks_effects fuel m head self w b selfN wN bN :
  fetch_new_blocks fuel m head self w b = Some (selfN, wN, bN) ->
  rtc effect (self, w) (selfN, wN).
Proof.
  unfold fetch_new_blocks. destruct (m <? head).
  2:{ intros [= <- <- <-]. reflexivity. }
  destruct (fetch_range fuel _ _ _ _ _) as [[[self1 w1] txs]|] eqn:Hrun;
    [|done].
  apply fetch_range_effects in Hrun. cbn [mbind option_bind].
  destruct (add_new _ _ _) as [new hashes]. intros [= <- <- <-].
  eapply rtc_l; [apply effect_status|exact Hrun].
Qed.

Lemma final_save_effects self w b :
  rtc effect (self, w) (self, (final_save w b).1).
Proof.
  unfold final_save. destruct (new_transactions b); [reflexivity|].
  apply rtc_once. constructor.
Qed.

Lemma check_caught_up_effects self final_txs head w :
  rtc effect (self, w) (self, (check_caught_up final_txs head w).1) /\
  (forall ending, (check_caught_up final_txs head w).2 = Ok ending ->
     clock w + pause ending <= clock (check_caught_up final_txs head w).1 /\
     forall ex, ending <> Errored ex).
Proof.
  unfold check_caught_up.
  destruct (max_saved_block_of final_txs) as [newest|ex];
    [|split; [reflexivity|done]].
  destruct (head - 100 <=? newest); cbn [fst snd].
  - split.
    + eapply rtc_l; [apply effect_status|].
      apply rtc_once, effect_sleep. lia.
    + intros ending [= <-]. unfold time_sleep, update_status. simpl.
      split; [lia|done].
  - split; [apply rtc_once, effect_sleep; lia|].
    intros ending [= <-]. unfold time_sleep. simpl. split; [lia|done].
Qed.

Lemma effect_grown x y : effect x y -> grown x y.
Proof.
  assert (forall {A} (l k : list A), l `prefix_of` l ++ k) as Hp
    by (intros; by eexists).
  unfold grown.
  destruct 1 as [self w d Hd|self w req| | |self w existing new| | | | | |];
    cbn [fst snd];
    [unfold time_sleep
    |unfold requests_get; destruct (provider w (served w) req) as [resp lat]
    |unfold print_line|unfold update_status|unfold save_transactions
    |idtac..];
    simpl; repeat split; done || lia || apply Hp.
Qed.

Lemma effects_grown x y : rtc effect x y -> grown x y.
Proof.
  induction 1 as [x|x y z Hxy _ IH].
  - unfold grown. repeat split; done.
  - apply effect_grown in Hxy. unfold grown in *.
    destruct Hxy as (? & ? & ? & ? & ? & ? & ? & ? & ?).
    destruct IH as (? & ? & ? & ? & ? & ? & ? & ? & ?).
    repeat split; try lia; by etrans.
Qed.

Lemma effect_sound x y : effect x y -> sound x -> sound y.
Proof.
  unfold sound.
  destruct 1 as [self w d Hd|self w req| | |self w existing new| | | | | |];
    cbn [fst snd]; intros (Hkey & Hlast & Hreqs);
    [unfold time_sleep
    |unfold requests_get; destruct (provider w (served w) req) as [resp lat]
    |unfold print_line|unfold update_status|unfold save_transactions
    |idtac..];
    simpl; (split; [|split]); try (done || lia).
  - eapply Forall_impl; [exact Hreqs|]. simpl. intros; lia.
  - apply Forall_app. split.
    + eapply Forall_impl; [exact Hreqs|]. simpl. intros; lia.
    + repeat constructor. simpl. lia.
Qed.

Lemma effects_sound x y : rtc effect x y -> sound x -> sound y.
Proof. induction 1; eauto using effect_sound. Qed.

Lemma extend_and_finish_effects fuel m head self w b self' w' r :
  extend_and_finish fuel m head self w b = Some (self', w', r) ->
  rtc effect (self, w) (self', w') /\
  (forall ending, r = Ok ending ->
     clock w + pause ending <= clock w' /\ forall ex, ending <> Errored ex).
Proof.
  unfold extend_and_finish.
  destruct (fetch_new_blocks fuel m head self w b)
    as [[[selfN wN] bN]|] eqn:Hnew; [|done].
  apply fetch_new_blocks_effects in Hnew. cbn [mbind option_bind].
  pose proof (final_save_effects selfN wN bN) as Hsave.
  destruct (final_save wN bN) as [wS saved]. cbn [fst] in Hsave.
  destruct saved as [final_txs|ex].
  2:{ intros [= <- <- <-]. split; [by etrans|done]. }
  pose proof (check_caught_up_effects selfN final_txs head wS) as [Hc Hclock].
  destruct (check_caught_up final_txs head wS) as [wC rC].
  cbn [fst snd] in *. intros [= <- <- <-].
  assert (rtc effect (self, w) (selfN, wS)) as H by (by etrans).
  split; [by etrans|]. intros ending Hend.
  apply effects_grown in H as (Hmono & _). cbn [fst snd] in Hmono.
  destruct (Hclock ending Hend) as [Hp Hne]. split; [lia|done].
Qed.

Lemma cycle_body_effects fuel self w self' w' r :
  cycle_body fuel self w = Some (self', w', r) ->
  rtc effect (self, w) (self', w') /\
  (forall ending, r = Ok ending ->
     clock w + pause ending <= clock w' /\ forall ex, ending <> Errored ex).
Proof.
  unfold cycle_body.
  pose proof (get_current_block_effects self w) as Hhead.
  destruct (get_current_block self w) as [[self0 w0] head].
  cbn [fst] in Hhead.
  destruct (identify_gaps (load_store w)) as [gaps|ex].
  2:{ intros [= <- <- <-]. split; [done|done]. }
  destruct (current_max_of (load_store w)) as [m|ex].
  2:{ intros [= <- <- <-]. split; [|done].
      etrans; [exact Hhead|]. apply rtc_once, effect_gaps. }
  destruct (fill_gaps fuel gaps _ _ _ _ _ _) as [[[selfG wG] filled]|] eqn:Hfill;
    [|done].
  apply fill_gaps_effects in Hfill. cbn [mbind option_bind].
  assert (rtc effect (self, w) (selfG, wG)) as HG.
  { etrans; [exact Hhead|]. eapply rtc_l; [apply effect_gaps|exact Hfill]. }
  destruct filled as [bG|ex].
  2:{ intros [= <- <- <-]. split; [done|done]. }
  intros (Heff & Hclock)%extend_and_finish_effects.
  split; [by etrans|]. intros ending Hend.
  apply effects_grown in HG as (Hmono & _). cbn [fst snd] in Hmono.
  destruct (Hclock ending Hend) as [Hp Hne]. split; [lia|done].
Qed.

Lemma run_cycle_effects fuel self w self' w' ending :
  run_cycle fuel self w = Some (self', w', ending) ->
  rtc effect (self, w) (self', w') /\
  clock w + pause ending <= clock w'.
Proof.
  unfold run_cycle.
  destruct (cycle_body fuel self w) as [[[self1 w1] r]|] eqn:Hbody; [|done].
  apply cycle_body_effects in Hbody as [Heff Hclock].
  cbn [mbind option_bind]. destruct r as [ending1|ex].
  - intros [= <- <- <-]. split; [done|].
    by destruct (Hclock ending1 eq_refl).
  - intros [= <- <- <-].
    apply effects_grown in Heff as Hg. destruct Hg as (Hmono & _).
    cbn [fst snd] in Hmono. split.
    + etrans; [exact Heff|]. eapply rtc_l; [apply effect_error|].
      eapply rtc_l; [apply effect_status|].
      apply rtc_once, effect_sleep. lia.
    + unfold time_sleep, update_status. simpl. lia.
Qed.

End Effects.

(** ** What a cycle never undoes *)

(** X10. Whatever a cycle does and however it ends, it ends with its
    sleep (60 s caught up, 5 s with more work, 30 s after an
    exception), so it takes at least five seconds; the clock never
    goes back, the counters of requests, fetched records and saves
    never decrease, and the error list, the request log, the console
    lines and the status writes are only appended to. *)
Theorem cycle_pause_and_growth (self : Self) (w : World) :
  exists fuel0, forall fuel, (fuel0 <= fuel)%nat ->
    exists self' w' ending,
      run_cycle fuel self w = Some (self', w', ending) /\
      clock w + pause ending <= clock w' /\
      clock w + 5000 <= clock w' /\
      grown (self, w) (self', w').
Proof.
  destruct (run_cycle_returns self w) as (fuel0 & Hret).
  exists fuel0. intros fuel Hfuel.
  destruct (Hret fuel Hfuel) as [[[self' w'] ending] Hrun].
  exists self', w', ending. split; [done|].
  apply run_cycle_effects in Hrun as [Heff Hpause].
  split; [done|]. split; [destruct ending; simpl in Hpause; lia|].
  by apply effects_grown.
Qed.

(** X11. A cycle keeps the fetcher sound: if the key index points
    into the key pool and no recorded time is ahead of the clock, the
    same holds after the cycle, whatever its end; so [_get_api_key]
    returns a key of the pool. *)
Theorem cycle_keeps_sound (self : Self) (w : World) :
  sound (self, w) ->
  exists fuel0, forall fuel, (fuel0 <= fuel)%nat ->
    exists self' w' ending,
      run_cycle fuel self w = Some (self', w', ending) /\
      sound (self', w') /\
      _get_api_key self' ∈ API_KEYS.
Proof.
  intros Hsound.
  destruct (run_cycle_returns self w) as (fuel0 & Hret).
  exists fuel0. intros fuel Hfuel.
  destruct (Hret fuel Hfuel) as [[[self' w'] ending] Hrun].
  exists self', w', ending. split; [done|].
  apply run_cycle_effects in Hrun as [Heff _].
  pose proof (effects_sound _ _ Heff Hsound) as Hs'.
  split; [done|]. destruct Hs' as (Hkey & _). cbn [fst] in Hkey.
  unfold _get_api_key.
  destruct (API_KEYS !! current_key_index self') as [key|] eqn:Hk.
  - simpl. by eapply list_elem_of_lookup_2.
  - apply lookup_ge_None in Hk. lia.
Qed.

Lemma cycle_keeps_sound_witness :
  sound (init_self, sound_world) /\
  exists fuel0, forall fuel, (fuel0 <= fuel)%nat ->
    exists self' w' ending,
      run_cycle fuel init_self sound_world = Some (self', w', ending) /\
      sound (self', w').
Proof.
  assert (sound (init_self, sound_world)) as H.
  { unfold sound. simpl. repeat split; try lia. constructor. }
  split; [exact H|].
  destruct (cycle_keeps_sound init_self sound_world H) as (fuel0 & Hrun).
  exists fuel0. intros fuel Hfuel.
  destruct (Hrun fuel Hfuel) as (self' & w' & ending & Hc & Hs & _).
  exists self', w', ending. split; assumption.
Defined.

(** ** What [fetch_range] asks for, and what it counts *)

Section Queries.

Implicit Types (self : Self) (w : World) (s e r : Z) (fuel : nat).

Lemma asks_within_weaken s e s' e' more :
  s' <= s -> e <= e' ->
  Forall (asks_within s e) more -> Forall (asks_within s' e') more.
Proof.
  intros Hs He Hall. eapply Forall_impl; [exact Hall|].
  intros p (a & b & key & Hp & ? & ? & ?).
  exists a, b, key. repeat split; try done; lia.
Qed.

Lemma request_attempts_fetched n a params s0 self w :
  transactions_fetched (request_attempts n a params s0 self w).1.1 =
  transactions_fetched self.
Proof.
  revert a self w. induction n as [|n IH]; intros a self w;
    cbn [request_attempts]; [done|].
  destruct (requests_get params w) as [resp w1].
  destruct resp as [|code json]; [by rewrite IH|]. cbv zeta.
  destruct (code =? 429); [by rewrite IH|].
  destruct (code =? 200); [|by rewrite IH].
  destruct json as [data|]; [|by rewrite IH].
  destruct (bool_decide _); [done|].
  destruct (str_contains _ _); [done|].
  destruct (b_rate_limit data); [by rewrite IH|done].
Qed.

Lemma make_request_queries self w s e self' w' results :
  _make_request self w s e = (self', w', results) ->
  transactions_fetched self' = transactions_fetched self /\
  exists more, requests w' = requests w ++ more /\
               Forall (fun p => exists key, p.2 = TokenTx s e key) more.
Proof.
  unfold _make_request, _rate_limit_wait. cbv zeta.
  set (w0 := if _ <? _ then _ else _).
  assert (requests w0 = requests w) as Hw0.
  { subst w0. by destruct (_ <? _). }
  intros Hrun. split.
  { pose proof (request_attempts_fetched max_retries 0
      (TokenTx s e (_get_api_key (set_last_request_time (clock w0) self)))
      s (set_last_request_time (clock w0) self) w0) as H.
    rewrite Hrun in H. exact H. }
  apply request_attempts_trace in Hrun as (more & Hmore & Hall & _); [|done].
  exists more. rewrite Hmore, Hw0. split; [done|].
  eapply Forall_impl; [exact Hall|]. intros p [-> _]. by eexists.
Qed.

Lemma fetch_range_queries fuel self w s e r self' w' txs :
  0 < r ->
  fetch_range fuel self w s e r = Some (self', w', txs) ->
  exists more, requests w' = requests w ++ more /\
               Forall (asks_within s e) more.
Proof.
  revert self w s e r self' w' txs.
  induction fuel as [|fuel IH]; intros self w s e r self' w' txs Hr; [done|].
  simpl. destruct (Z.ltb_spec e s) as [Hlt|Hle].
  { intros [= <- <- <-]. exists []. by rewrite app_nil_r. }
  destruct (_make_request _ _ _ _) as [[self1 w1] results] eqn:Hreq.
  apply make_request_queries in Hreq as (_ & more0 & Hw1 & Hall0).
  simpl in Hw1.
  assert (Forall (asks_within s e) more0) as Hin0.
  { eapply Forall_impl; [exact Hall0|]. intros p [key Hp].
    exists s, (Z.min (s + r - 1) e), key. repeat split; [done|lia..]. }
  clear Hall0.
  assert (forall self2 w2 more1 (batch : list Tx),
    requests w2 = requests w ++ more1 -> Forall (asks_within s e) more1 ->
    ('(self3, w3, more) ←
       fetch_range fuel self2 w2 (Z.min (s + r - 1) e + 1) e r;
       Some (self3, w3, batch ++ more)) = Some (self', w', txs) ->
    exists more, requests w' = requests w ++ more /\
                 Forall (asks_within s e) more) as Hmore.
  { intros self2 w2 more1 batch Hw2 Hin1 Hx.
    destruct (fetch_range fuel self2 w2 _ e r) as [[[self3 w3] more]|] eqn:Hy;
      [|done].
    simpl in Hx. injection Hx as <- <- <-.
    apply IH in Hy as (more2 & -> & Hin2); [|done].
    exists (more1 ++ more2). rewrite Hw2, <- app_assoc. split; [done|].
    apply Forall_app. split; [done|].
    eapply asks_within_weaken; [| |exact Hin2]; lia. }
  destruct results as [results|].
  2:{ intros H. apply IH in H as (more2 & -> & Hin2); [|done].
      exists (more0 ++ more2). simpl. rewrite Hw1, <- app_assoc.
      split; [done|]. apply Forall_app. split; [done|].
      eapply asks_within_weaken; [| |exact Hin2]; lia. }
  destruct (capped (length results)); [|by apply (Hmore _ _ more0)].
  destruct (Z.ltb_spec MIN_BLOCK_RANGE r); [|by apply (Hmore _ _ more0)].
  destruct (fetch_range fuel self1 _ s _ _) as [[[self2 w2] sub]|] eqn:Hsub;
    [|done].
  apply IH in Hsub as (more1 & Hw2 & Hin1);
    [|unfold MIN_BLOCK_RANGE in *; lia].
  simpl in Hw2. rewrite Hw1, <- app_assoc in Hw2.
  apply (Hmore _ _ (more0 ++ more1)); [done|].
  apply Forall_app. split; [done|].
  eapply asks_within_weaken; [| |exact Hin1]; lia.
Qed.

Lemma fetch_range_counts fuel self w s e r self' w' txs :
  fetch_range fuel self w s e r = Some (self', w', txs) ->
  exists ls, lines w' = lines w ++ ls /\
    (transactions_fetched self + length txs
       <= transactions_fetched self')%nat /\
    (Forall decided ls ->
     transactions_fetched self' =
       (transactions_fetched self + length txs)%nat).
Proof.
  revert self w s e r self' w' txs.
  induction fuel as [|fuel IH]; intros self w s e r self' w' txs; [done|].
  simpl. destruct (e <? s).
  { intros [= <- <- <-]. exists []. rewrite app_nil_r. simpl.
    split; [done|]. split; lia. }
  destruct (_make_request _ _ _ _) as [[self1 w1] results] eqn:Hreq.
  pose proof (make_request_frame _ _ _ _ _ _ _ Hreq) as (Hl & _).
  apply make_request_queries in Hreq as (Htf & _). simpl in Hl.
  set (ce := Z.min (s + r - 1) e) in *.
  assert (forall o (batch : list Tx),
    decided (line s ce o) ->
    ('(self3, w3, more) ←
       fetch_range fuel (add_fetched (length batch) self1)
         (print_line (line s ce o) w1) (ce + 1) e r;
       Some (self3, w3, batch ++ more)) = Some (self', w', txs) ->
    exists ls, lines w' = lines w ++ ls /\
      (transactions_fetched self + length txs
         <= transactions_fetched self')%nat /\
      (Forall decided ls ->
       transactions_fetched self' =
         (transactions_fetched self + length txs)%nat)) as Hmore.
  { intros o batch Hdec Hx.
    destruct (fetch_range fuel _ _ _ e r) as [[[self3 w3] more]|] eqn:Hy;
      [|done].
    simpl in Hx. injection Hx as <- <- <-.
    apply IH in Hy as (ls & Hls & Hge & Heq). simpl in Hls, Hge, Heq.
    exists (line s ce o :: ls). rewrite Hls, Hl, <- app_assoc.
    split; [done|]. rewrite length_app. split; [lia|].
    intros Hall. apply Forall_cons in Hall as [_ Hall].
    rewrite (Heq Hall). lia. }
  destruct results as [results|].
  2:{ intros H. apply IH in H as (ls & Hls & Hge & Heq). simpl in Hls.
      exists (line s ce Failed :: ls). rewrite Hls, Hl, <- app_assoc.
      split; [done|]. split; [lia|].
      intros Hall. apply Forall_cons in Hall as [_ Hall].
      rewrite (Heq Hall). lia. }
  destruct (capped (length results)); [|by apply Hmore].
  destruct (MIN_BLOCK_RANGE <? r); [|by apply Hmore].
  destruct (fetch_range fuel self1 _ s _ _) as [[[self2 w2] sub]|] eqn:Hsub;
    [|done].
  apply IH in Hsub as (ls1 & Hls1 & Hge1 & _). simpl in Hls1.
  intros H. simpl in H.
  destruct (fetch_range fuel _ w2 _ e r) as [[[self3 w3] more]|] eqn:Hy;
    [|done].
  simpl in H. injection H as <- <- <-.
  apply IH in Hy as (ls2 & Hls2 & Hge2 & _). simpl in Hge2.
  eexists (line s ce (HitLimit (length results) _) :: ls1 ++ ls2).
  split.
  { rewrite Hls2, Hls1, Hl, <- !app_assoc. done. }
  rewrite length_app. split; [lia|].
  intros Hall. by apply Forall_cons in Hall as [? _].
Qed.

End Queries.

(** X12. [fetch_range] asks the provider only for token transfers of
    windows inside its target range, each window non-empty, and leaves
    the store files, the disk and the provider as they are. *)
Theorem fetch_range_stays_in_range (fuel : nat) (self : Self) (w : World)
    (s e r : Z) :
  0 < r -> (fetch_fuel s e r <= fuel)%nat ->
  exists self' w' txs more,
    fetch_range fuel self w s e r = Some (self', w', txs) /\
    requests w' = requests w ++ more /\
    Forall (asks_within s e) more /\
    fs w' = fs w /\ saves w' = saves w.
Proof.
  intros Hr Hfuel.
  destruct (fetch_range_returns fuel self w s e r Hr Hfuel)
    as [[[self' w'] txs] Hrun].
  destruct (fetch_range_queries _ _ _ _ _ _ _ _ _ Hr Hrun)
    as (more & Hmore & Hall).
  apply fetch_range_frame in Hrun as Hframe.
  destruct Hframe as (Hfs & _ & Hsaves & _).
  by exists self', w', txs, more.
Qed.

Lemma fetch_range_stays_in_range_witness :
  0 < MAX_BLOCK_RANGE /\
  (fetch_fuel 1 10 MAX_BLOCK_RANGE <= 200)%nat /\
  exists self' w' txs more,
    fetch_range 200 init_self dense_world 1 10 MAX_BLOCK_RANGE
      = Some (self', w', txs) /\
    requests w' = requests dense_world ++ more /\
    Forall (asks_within 1 10) more.
Proof.
  assert (0 < MAX_BLOCK_RANGE) as H1 by (unfold MAX_BLOCK_RANGE; lia).
  assert (fetch_fuel 1 10 MAX_BLOCK_RANGE <= 200)%nat as H2.
  { apply Nat.leb_le. vm_compute. reflexivity. }
  split; [exact H1|]. split; [exact H2|].
  destruct (fetch_range_stays_in_range 200 init_self dense_world 1 10
              MAX_BLOCK_RANGE H1 H2)
    as (self' & w' & txs & more & Hrun & Hmore & Hall & _).
  exists self', w', txs, more. repeat split; assumption.
Defined.

(** X13. The counter [transactions_fetched] grows in [fetch_range] by
    at least the number of records returned, and by exactly that
    number when no window hit the limit (the records fetched again for
    a window that did are counted by the inner call and once more by
    the outer one). *)
Theorem transactions_fetched_counts (fuel : nat) (self : Self) (w : World)
    (s e r : Z) :
  0 < r -> (fetch_fuel s e r <= fuel)%nat ->
  exists self' w' txs ls,
    fetch_range fuel self w s e r = Some (self', w', txs) /\
    lines w' = lines w ++ ls /\
    (transactions_fetched self + length txs
       <= transactions_fetched self')%nat /\
    (Forall decided ls ->
     transactions_fetched self' =
       (transactions_fetched self + length txs)%nat).
Proof.
  intros Hr Hfuel.
  destruct (fetch_range_returns fuel self w s e r Hr Hfuel)
    as [[[self' w'] txs] Hrun].
  destruct (fetch_range_counts _ _ _ _ _ _ _ _ _ Hrun)
    as (ls & Hls & Hge & Heq).
  by exists self', w', txs, ls.
Qed.

Lemma transactions_fetched_counts_witness :
  0 < MAX_BLOCK_RANGE /\
  (fetch_fuel 1 10 MAX_BLOCK_RANGE <= 200)%nat /\
  exists self' w' txs,
    fetch_range 200 init_self dense_world 1 10 MAX_BLOCK_RANGE
      = Some (self', w', txs) /\
    (transactions_fetched init_self + length txs
       <= transactions_fetched self')%nat.
Proof.
  assert (0 < MAX_BLOCK_RANGE) as H1 by (unfold MAX_BLOCK_RANGE; lia).
  assert (fetch_fuel 1 10 MAX_BLOCK_RANGE <= 200)%nat as H2.
  { apply Nat.leb_le. vm_compute. reflexivity. }
  split; [exact H1|]. split; [exact H2|].
  destruct (transactions_fetched_counts 200 init_self dense_world 1 10
              MAX_BLOCK_RANGE H1 H2)
    as (self' & w' & txs & ls & Hrun & _ & Hge & _).
  exists self', w', txs. split; assumption.
Defined.

(** The count on the cap-correctness scenario: four records are
    returned, eight are counted. *)
Example transactions_fetched_twice :
  (fun x => (transactions_fetched x.1.1, length x.2)) <$>
    fetch_range 10 init_self dense_world 1 5000 MAX_BLOCK_RANGE
  = Some (8%nat, 4%nat).
Proof. vm_compute. reflexivity. Qed.

(** ** A clean store only grows *)

Section Appending.

#[local] Arguments save_transactions : simpl never.
#[local] Arguments final_save : simpl never.
#[local] Arguments check_caught_up : simpl never.
#[local] Arguments get_current_block : simpl never.
#[local] Arguments identify_gaps : simpl never.
#[local] Arguments current_max_of : simpl never.

Implicit Types (self : Self) (w : World) (b : Batch).

Lemma clean_nil : clean [].
Proof. split; constructor. Qed.

Lemma merge_extends existing new :
  clean existing -> existing `prefix_of` merge existing new.
Proof.
  intros Hclean. exists (keep_first (hashes_of existing) new).
  rewrite merge_keep_first, keep_first_app.
  rewrite keep_first_clean by (done || set_solver).
  do 2 f_equal. set_solver.
Qed.

Lemma save_transactions_result w existing new final :
  (save_transactions w existing new).2 = Ok final ->
  final = merge existing new.
Proof.
  unfold save_transactions, save_result. cbn [snd].
  destruct (disk w (saves w)) as [| |? [|]|[|]]; congruence.
Qed.

Lemma appended_same_fs w0 w w' :
  fs w' = fs w -> appended w0 w -> appended w0 w'.
Proof. unfold appended, load_store. by intros ->. Qed.

Lemma save_transactions_appends w0 w existing new w' r :
  save_transactions w existing new = (w', r) ->
  appended w0 w -> load_store w `prefix_of` existing -> clean existing ->
  appended w0 w' /\
  (forall final, r = Ok final ->
     load_store w' `prefix_of` final /\ clean final).
Proof.
  intros Hsave [Hpre Hclean] Hext Hexisting.
  pose proof (save_transactions_result w existing new) as Hres.
  rewrite Hsave in Hres. cbn [snd] in Hres.
  pose proof (merge_extends existing new Hexisting) as Hmerge.
  apply save_transactions_frame in Hsave as (_ & _ & _ & _ & _ & _ & [Hc|Hc]).
  - assert (load_store w' = load_store w) as Hsame
      by (unfold load_store; by rewrite Hc).
    unfold appended. rewrite Hsame. split; [done|].
    intros final ->%Hres. split; [by etrans|apply merge_clean].
  - assert (load_store w' = merge existing new) as Hnew
      by (unfold load_store; by rewrite Hc).
    unfold appended. rewrite Hnew. split.
    + split; [|apply merge_clean]. etrans; [exact Hpre|]. by etrans.
    + intros final ->%Hres. split; [done|apply merge_clean].
Qed.

Lemma fill_gaps_appends fuel gaps i total current_max self w b selfG wG r w0 :
  fill_gaps fuel gaps i total current_max self w b = Some (selfG, wG, r) ->
  appended w0 w -> load_store w `prefix_of` existing_txs b ->
  clean (existing_txs b) ->
  appended w0 wG /\
  (forall bG, r = Ok bG ->
     load_store wG `prefix_of` existing_txs bG /\ clean (existing_txs bG)).
Proof.
  revert i self w b.
  induction gaps as [|[start gap_end] gaps IH]; intros i self w b;
    cbn [fill_gaps].
  { intros [= <- <- <-] Happ Hext Hclean. split; [done|].
    by intros bG [= <-]. }
  destruct (_ <? start); [apply IH|]. cbv zeta.
  destruct (fetch_range fuel _ _ start _ _) as [[[self1 w1] txs]|] eqn:Hrun;
    [|done].
  apply fetch_range_frame in Hrun as (Hfs & _). simpl in Hfs.
  cbn [mbind option_bind].
  destruct (add_new _ _ _) as [new hashes].
  assert (load_store w1 = load_store w) as Hsame
    by (unfold load_store; by rewrite Hfs).
  destruct (10000 <? _).
  2:{ intros H Happ Hext Hclean. eapply IH in H; [exact H|..]; simpl.
      - by eapply appended_same_fs.
      - by rewrite Hsame.
      - done. }
  destruct (save_transactions w1 (existing_txs b) new) as [w2 saved] eqn:Hsave.
  intros H Happ Hext Hclean.
  eapply (save_transactions_appends w0) in Hsave as [Happ2 Hfinal];
    [|by eapply appended_same_fs|by rewrite Hsame|done].
  destruct saved as [existing|ex].
  - destruct (Hfinal existing eq_refl) as [Hext2 Hclean2].
    eapply IH in H; [exact H|done..].
  - injection H as <- <- <-. split; [done|]. by intros bG.
Qed.

Lemma run_cycle_appends fuel self w self' w' ending :
  run_cycle fuel self w = Some (self', w', ending) ->
  clean (load_store w) -> appended w w'.
Proof.
  intros Hrun Hclean.
  assert (appended w w) as Hstart by (by split).
  unfold run_cycle in Hrun.
  destruct (cycle_body fuel self w) as [[[self1 w1] r]|] eqn:Hbody; [|done].
  cbn [mbind option_bind] in Hrun.
  assert (appended w w1) as Hbody'.
  { clear Hrun. unfold cycle_body in Hbody.
    destruct (get_current_block self w) as [[self0 w0] head] eqn:Hhead.
    apply get_current_block_frame in Hhead as (_ & _ & Hfs0 & _).
    assert (load_store w0 = load_store w) as Hsame0
      by (unfold load_store; by rewrite Hfs0).
    destruct (identify_gaps (load_store w)) as [gaps|ex].
    2:{ injection Hbody as <- <- <-. by eapply appended_same_fs. }
    destruct (current_max_of (load_store w)) as [m|ex].
    2:{ injection Hbody as <- <- <-. by eapply appended_same_fs. }
    destruct (fill_gaps fuel gaps _ _ _ _ _ _)
      as [[[selfG wG] filled]|] eqn:Hfill; [|done].
    cbn [mbind option_bind] in Hbody.
    eapply (fill_gaps_appends _ _ _ _ _ _ _ _ _ _ _ w) in Hfill
      as [HappG HbG]; simpl;
      [|by eapply appended_same_fs|by rewrite Hsame0|done].
    destruct filled as [bG|ex].
    2:{ by injection Hbody as <- <- <-. }
    destruct (HbG bG eq_refl) as [HextG HcleanG].
    unfold extend_and_finish in Hbody.
    destruct (fetch_new_blocks fuel m _ selfG wG bG)
      as [[[selfN wN] bN]|] eqn:Hnew; [|done].
    apply fetch_new_blocks_facts in Hnew
      as (_ & HfsN & _ & _ & _ & HexN & _).
    cbn [mbind option_bind] in Hbody.
    assert (load_store wN = load_store wG) as HsameN
      by (unfold load_store; by rewrite HfsN).
    assert (appended w wN) as HappN by (by eapply appended_same_fs).
    destruct (final_save wN bN) as [wS saved] eqn:Hsave.
    assert (appended w wS) as HappS.
    { unfold final_save in Hsave. destruct (new_transactions bN).
      - by injection Hsave as <- <-.
      - eapply (save_transactions_appends w) in Hsave as [H _]; [done..| |].
        + by rewrite HsameN, HexN.
        + by rewrite HexN. }
    destruct saved as [final_txs|ex].
    2:{ by injection Hbody as <- <- <-. }
    destruct (check_caught_up final_txs _ wS) as [wC rC] eqn:Hcheck.
    injection Hbody as <- <- <-.
    eapply appended_same_fs; [|exact HappS].
    unfold check_caught_up in Hcheck.
    destruct (max_saved_block_of final_txs); [|by injection Hcheck as <- <-].
    destruct (_ <=? _); by injection Hcheck as <- <-. }
  destruct r as [ending1|ex]; injection Hrun as <- <- <-; [done|].
  by eapply appended_same_fs.
Qed.

End Appending.



(** X15. The checkpoint never moves back: for a clean store that is
    not empty, the checkpoint derived from the canonical file after a
    cycle is at least the checkpoint derived before it. *)
Theorem checkpoint_never_moves_back (self : Self) (w : World) :
  clean (load_store w) -> load_store w <> [] ->
  exists fuel0, forall fuel, (fuel0 <= fuel)%nat ->
    exists self' w' ending,
      run_cycle fuel self w = Some (self', w', ending) /\
      forall m m',
        current_max_of (load_store w) = Ok m ->
        current_max_of (load_store w') = Ok m' ->
        m <= m'.
Proof.
  intros Hclean Hne.
  destruct (run_cycle_returns self w) as (fuel0 & Hret).
  exists fuel0. intros fuel Hfuel.
  destruct (Hret fuel Hfuel) as [[[self' w'] ending] Hrun].
  exists self', w', ending. split; [done|].
  apply run_cycle_appends in Hrun as [[added Hadded] _]; [|done].
  intros m m' Hm Hm'.
  apply current_max_of_spec in Hm as [(tx & Htx & Hb) _]; [|done].
  apply current_max_of_spec in Hm' as [_ Hle].
  2:{ rewrite Hadded. by destruct (load_store w). }
  apply (Hle tx); [|done]. rewrite Hadded. apply elem_of_app. by left.
Qed.

Lemma checkpoint_never_moves_back_witness :
  clean (load_store sound_world) /\ load_store sound_world <> [] /\
  exists fuel0, forall fuel, (fuel0 <= fuel)%nat ->
    exists self' w' ending,
      run_cycle fuel init_self sound_world = Some (self', w', ending) /\
      forall m',
        current_max_of (load_store w') = Ok m' -> TOKEN_START_BLOCK <= m'.
Proof.
  assert (clean (load_store sound_world)) as H1.
  { split.
    - repeat constructor; by eexists.
    - vm_compute. repeat constructor. by intros ?%elem_of_nil. }
  assert (load_store sound_world <> []) as H2 by discriminate.
  split; [exact H1|]. split; [exact H2|].
  destruct (checkpoint_never_moves_back init_self sound_world H1 H2)
    as (fuel0 & Hrun).
  exists fuel0. intros fuel Hfuel.
  destruct (Hrun fuel Hfuel) as (self' & w' & ending & Hc & Hm).
  exists self', w', ending. split; [exact Hc|].
  intros m'. apply Hm.
  vm_cast_no_check (@eq_refl _ (@Ok Z TOKEN_START_BLOCK)).
Defined.

(** ** The gap loop *)

Section GapLoop.

#[local] Arguments save_transactions : simpl never.

Implicit Types (self : Self) (w : World) (b : Batch).

Lemma fill_gaps_windows fuel gaps i total current_max self w b selfG wG r :
  fill_gaps fuel gaps i total current_max self w b = Some (selfG, wG, r) ->
  exists lss,
    lines wG = lines w ++ concat lss /\
    Forall2 (fun (g : Gap) ls =>
               windows MAX_BLOCK_RANGE g.1 (default current_max g.2) ls)
            (take (length lss) gaps) lss /\
    (forall bG, r = Ok bG -> length lss = length gaps).
Proof.
  revert i self w b.
  induction gaps as [|[start gap_end] gaps IH]; intros i self w b;
    cbn [fill_gaps].
  { intros [= <- <- <-]. exists []. simpl. rewrite app_nil_r.
    split; [done|]. split; [constructor|done]. }
  destruct (Z.ltb_spec (default current_max gap_end) start) as [Hlt|Hle].
  { intros (lss & Hl & Hall & Hlen)%IH. exists ([] :: lss). simpl.
    split; [done|]. split.
    - constructor; [|done]. simpl. by constructor.
    - intros bG HbG. by rewrite (Hlen bG HbG). }
  cbv zeta.
  destruct (fetch_range fuel _ _ start _ _) as [[[self1 w1] txs]|] eqn:Hrun;
    [|done].
  apply fetch_range_lines in Hrun as (ls1 & Hl1 & Hwin & _).
  simpl in Hl1. cbn [mbind option_bind].
  destruct (add_new _ _ _) as [new hashes].
  assert (forall self2 w2 b2 ,
    lines w2 = lines w1 ->
    fill_gaps fuel gaps (S i) total current_max self2 w2 b2
      = Some (selfG, wG, r) ->
    exists lss,
      lines wG = lines w ++ concat lss /\
      Forall2 (fun (g : Gap) ls =>
                 windows MAX_BLOCK_RANGE g.1 (default current_max g.2) ls)
              (take (length lss) ((start, gap_end) :: gaps)) lss /\
      (forall bG, r = Ok bG ->
         length lss = length ((start, gap_end) :: gaps))) as Hgo.
  { intros self2 w2 b2 Hw2 (lss & Hl & Hall & Hlen)%IH.
    exists (ls1 :: lss). simpl. rewrite Hl, Hw2, Hl1, <- app_assoc.
    split; [done|]. split; [by constructor|].
    intros bG HbG. by rewrite (Hlen bG HbG). }
  destruct (10000 <? _); [|by apply Hgo].
  destruct (save_transactions w1 (existing_txs b) new) as [w2 saved] eqn:Hsave.
  apply save_transactions_frame in Hsave as (Hl2 & _).
  destruct saved as [existing|ex]; [by apply Hgo|].
  intros [= <- <- <-]. exists [ls1]. simpl. rewrite app_nil_r, Hl2.
  split; [done|]. split; [|done]. constructor; [done|constructor].
Qed.

End GapLoop.

(** X16. The gap loop fetches the gaps it is given in their order,
    each over exactly its own interval (an open end resolved to the
    checkpoint): the console lines it adds are, gap after gap, those
    of a traversal of that gap with the full window size.  It leaves
    no gap out unless a periodic save raised. *)
Theorem gap_loop_traverses_gaps (gaps : list Gap) (current_max : Z) :
  exists fuel0, forall fuel, (fuel0 <= fuel)%nat ->
    forall i total self w b,
    exists selfG wG r lss,
      fill_gaps fuel gaps i total current_max self w b
        = Some (selfG, wG, r) /\
      lines wG = lines w ++ concat lss /\
      Forall2 (fun (g : Gap) ls =>
                 windows MAX_BLOCK_RANGE g.1 (default current_max g.2) ls /\
                 (g.1 <= default current_max g.2 + 1 ->
                  tiles g.1 (default current_max g.2) (final_windows ls)))
              (take (length lss) gaps) lss /\
      (forall bG, r = Ok bG -> length lss = length gaps).
Proof.
  destruct (fill_gaps_returns gaps current_max) as (fuel0 & Hret).
  exists fuel0. intros fuel Hfuel i total self w b.
  destruct (Hret fuel Hfuel i total self w b) as [[[selfG wG] r] Hrun].
  destruct (fill_gaps_windows _ _ _ _ _ _ _ _ _ _ _ Hrun)
    as (lss & Hl & Hall & Hlen).
  exists selfG, wG, r, lss. split; [done|]. split; [done|].
  split; [|done].
  eapply Forall2_impl; [exact Hall|]. intros g ls Hwin. simpl in Hwin.
  split; [done|]. intros Hle.
  apply (windows_tiles MAX_BLOCK_RANGE); [unfold MAX_BLOCK_RANGE; lia|done..].
Qed.

(** ** The standard format of [RoutescanFetcher] *)

Lemma convert_lookup lower tx :
  let c := _convert_to_standard_format lower tx in
  c !! "hash" = Some (default EmptyString (tx !! "hash")) /\
  c !! "from" = Some (lower (default EmptyString (tx !! "from"))) /\
  c !! "to" = Some (lower (default EmptyString (tx !! "to"))) /\
  c !! "value" = Some (default "0" (tx !! "value")) /\
  c !! "timeStamp" = Some (default "0" (tx !! "timeStamp")) /\
  c !! "blockNumber" = Some (default "0" (tx !! "blockNumber")) /\
  c !! "tokenName" = Some (default EmptyString (tx !! "tokenName")) /\
  c !! "tokenSymbol" = Some (default EmptyString (tx !! "tokenSymbol")) /\
  c !! "tokenDecimal" = Some (default "18" (tx !! "tokenDecimal")) /\
  c !! "contractAddress" =
    Some (default EmptyString (tx !! "contractAddress")).
Proof.
  intros c. subst c. unfold _convert_to_standard_format. cbv zeta.
  repeat split; by simplify_map_eq.
Qed.

Lemma convert_hash lower tx :
  get_truthy (_convert_to_standard_format lower tx) "hash" =
  get_truthy tx "hash".
Proof.
  destruct (convert_lookup lower tx) as (H & _). cbv zeta in H.
  unfold get_truthy. rewrite H. unfold truthy.
  by destruct (tx !! "hash") as [[|a s]|].
Qed.

Lemma keep_first_convert lower seen l :
  keep_first seen (_convert_to_standard_format lower <$> l) =
  _convert_to_standard_format lower <$> keep_first seen l.
Proof.
  revert seen. induction l as [|tx l IH]; intros seen; [done|].
  cbn [fmap list_fmap keep_first]. rewrite convert_hash.
  destruct (get_truthy tx "hash") as [h|]; [|apply IH].
  destruct (decide (h ∈ seen)); [apply IH|].
  cbn [fmap list_fmap]. f_equal. apply IH.
Qed.

Lemma ascii_lower_idem s : ascii_lower (ascii_lower s) = ascii_lower s.
Proof.
  assert (forall a, lower_ascii (lower_ascii a) = lower_ascii a) as Ha
    by (intros [[] [] [] [] [] [] [] []]; reflexivity).
  induction s as [|a s IH]; [done|]. simpl. by rewrite IH, Ha.
Qed.

(** X17. Converting to the standard format keeps the transaction
    identifier, so it commutes with deduplication: converting the
    records and then deduplicating them (with either loop) gives the
    converted records of the deduplicated list, and the set of
    identifiers is the same before and after. *)
Theorem convert_commutes_with_dedup (lower : string -> string)
    (l : list Tx) :
  let convert := _convert_to_standard_format lower in
  RoutescanFetcher.save_transactions (convert <$> l) =
    convert <$> RoutescanFetcher.save_transactions l /\
  deduplicate (convert <$> l) = convert <$> deduplicate l /\
  hashes_of (convert <$> l) = hashes_of l /\
  identifiers (convert <$> l) = identifiers l.
Proof.
  intros convert. subst convert.
  rewrite !routescan_keep_first, !deduplicate_keep_first.
  split; [apply keep_first_convert|]. split; [apply keep_first_convert|].
  assert (identifiers (_convert_to_standard_format lower <$> l)
          = identifiers l) as Hids.
  { unfold identifiers. induction l as [|tx l IH]; [done|].
    cbn [fmap list_fmap omap list_omap]. rewrite convert_hash.
    fold (omap (fun tx => get_truthy tx "hash")
               (_convert_to_standard_format lower <$> l)).
    fold (omap (fun tx => get_truthy tx "hash") l).
    by rewrite IH. }
  split; [|done]. unfold hashes_of. unfold identifiers in Hids.
  by rewrite Hids.
Qed.

(** X18. A converted record has exactly the ten keys of the standard
    format, whatever the record it comes from; a record without block
    number comes out at block 0; and, [str.lower] being idempotent,
    converting a converted record changes nothing. *)
Theorem convert_normal_form (lower : string -> string) (tx : Tx) :
  (forall s, lower (lower s) = lower s) ->
  let convert := _convert_to_standard_format lower in
  dom (convert tx) = list_to_set standard_keys /\
  convert (convert tx) = convert tx /\
  (tx !! "blockNumber" = None -> block_of (convert tx) = Some (Ok 0)).
Proof.
  intros Hidem convert. subst convert. split.
  { unfold _convert_to_standard_format, standard_keys. cbv zeta.
    rewrite !dom_insert_L, dom_singleton_L. simpl. set_solver. }
  destruct (convert_lookup lower tx)
    as (H1 & H2 & H3 & H4 & H5 & H6 & H7 & H8 & H9 & H10).
  cbv zeta in *. split.
  { unfold _convert_to_standard_format at 1. cbv zeta.
    rewrite H1, H2, H3, H4, H5, H6, H7, H8, H9, H10. simpl.
    by rewrite !Hidem. }
  intros Hnone. unfold block_of, get_truthy. rewrite H6, Hnone. reflexivity.
Qed.

Lemma convert_normal_form_witness :
  (forall s, ascii_lower (ascii_lower s) = ascii_lower s) /\
  _convert_to_standard_format ascii_lower
    (_convert_to_standard_format ascii_lower (record "0x0A" "7")) =
  _convert_to_standard_format ascii_lower (record "0x0A" "7").
Proof.
  split; [exact ascii_lower_idem|].
  exact (proj1 (proj2 (convert_normal_form ascii_lower (record "0x0A" "7")
                         ascii_lower_idem))).
Defined.

(** ** The windows of [RoutescanFetcher.fetch_all_transactions] *)

Section RoutescanWindows.

Import RoutescanNet.

Variable lower : string -> string.

Implicit Types (self : Fetcher) (w : World).

Lemma rs_rate_limit_wait_requests self w :
  requests (_rate_limit_wait self w).2 = requests w.
Proof.
  unfold _rate_limit_wait. cbv zeta. cbn [snd].
  by destruct (_ <? _).
Qed.

Lemma rs_make_request_sends self w a b :
  exists t key,
    requests (_make_request lower self w a b).1.2 =
    requests w ++ [(t, TokenTx a b key)].
Proof.
  unfold _make_request.
  pose proof (rs_rate_limit_wait_requests self w) as Hwait.
  destruct (_rate_limit_wait self w) as [self1 w1]. cbn [snd] in Hwait.
  unfold requests_get.
  destruct (provider w1 (served w1) _) as [resp lat].
  exists (clock w1), (api_key self1). rewrite <- Hwait.
  destruct resp as [|code json]; [done|].
  destruct (code =? 200).
  2:{ by destruct (code =? 429). }
  destruct json as [data|]; [|done]. cbv zeta.
  destruct (bool_decide _); [done|].
  destruct (bool_decide _); [done|].
  destruct (bool_decide _).
  { by destruct (_ || _). }
  by destruct (result_of data).
Qed.

Lemma rs_request_with_retries_sends remaining attempt self w a b :
  exists more,
    requests (request_with_retries lower remaining attempt self w a b).1.2 =
      requests w ++ more /\
    Forall (fun p => exists key, p.2 = TokenTx a b key) more /\
    (length more <= remaining)%nat.
Proof.
  revert attempt self w.
  induction remaining as [|remaining IH]; intros attempt self w;
    cbn [request_with_retries].
  { exists []. rewrite app_nil_r. split; [done|]. split; [constructor|done]. }
  destruct (rs_make_request_sends self w a b) as (t & key & Hsend).
  destruct (_make_request lower self w a b) as [[self1 w1] data].
  cbn [fst snd] in Hsend.
  assert (Forall (fun p : Z * Request => exists key, p.2 = TokenTx a b key)
                 [(t, TokenTx a b key)]) as Hone.
  { repeat constructor. by eexists. }
  destruct data as [d|].
  { exists [(t, TokenTx a b key)]. cbn [fst snd]. split; [done|].
    split; [done|]. simpl. lia. }
  assert (forall self2 w2, requests w2 = requests w1 ->
    exists more,
      requests (request_with_retries lower remaining (S attempt)
                  self2 w2 a b).1.2 = requests w ++ more /\
      Forall (fun p => exists key, p.2 = TokenTx a b key) more /\
      (length more <= S remaining)%nat) as Hgo.
  { intros self2 w2 Hw2.
    destruct (IH (S attempt) self2 w2) as (more & Hmore & Hall & Hlen).
    exists ((t, TokenTx a b key) :: more).
    rewrite Hmore, Hw2, Hsend, <- app_assoc. split; [done|].
    split; [by constructor; [eexists|]|]. simpl. lia. }
  destruct (attempt <? 3 - 1)%nat; by apply Hgo.
Qed.

Lemma rs_block_attempts_sends remaining attempt self w :
  exists more,
    requests (block_attempts remaining attempt self w).1 =
      requests w ++ more /\
    Forall (fun p => exists key, p.2 = BlockNumber key) more /\
    (length more <= remaining)%nat.
Proof.
  revert attempt w.
  induction remaining as [|remaining IH]; intros attempt w;
    cbn [block_attempts].
  { exists []. rewrite app_nil_r. split; [done|]. split; [constructor|done]. }
  unfold requests_get. destruct (provider w (served w) _) as [resp lat].
  set (w1 := {| clock := clock w + Z.max 0 lat; provider := provider w;
                served := S (served w);
                requests := requests w ++ [(clock w, BlockNumber (api_key self))];
                disk := disk w; saves := saves w; fs := fs w;
                statuses := statuses w; lines := lines w |}).
  assert (Forall (fun p : Z * Request => exists key, p.2 = BlockNumber key)
                 [(clock w, BlockNumber (api_key self))]) as Hone.
  { repeat constructor. by eexists. }
  assert (forall w2, requests w2 = requests w1 ->
    exists more,
      requests (block_attempts remaining (S attempt) self w2).1 =
        requests w ++ more /\
      Forall (fun p => exists key, p.2 = BlockNumber key) more /\
      (length more <= S remaining)%nat) as Hgo.
  { intros w2 Hw2.
    destruct (IH (S attempt) w2) as (more & Hmore & Hall & Hlen).
    exists ((clock w, BlockNumber (api_key self)) :: more).
    rewrite Hmore, Hw2. subst w1. cbn [requests]. rewrite <- app_assoc.
    split; [done|]. split; [by constructor; [eexists|]|]. simpl. lia. }
  assert (forall found : option Z,
    exists more,
      requests (w1, found).1 = requests w ++ more /\
      Forall (fun p => exists key, p.2 = BlockNumber key) more /\
      (length more <= S remaining)%nat) as Hstop.
  { intros found. exists [(clock w, BlockNumber (api_key self))].
    split; [done|]. split; [done|]. simpl. lia. }
  destruct resp as [|code json]; [by apply Hgo|].
  destruct (code =? 200).
  2:{ destruct (code =? 429); by apply Hgo. }
  destruct json as [data|]; [|by apply Hgo].
  destruct (bool_decide _).
  - destruct (result_of data) as [[|l|hex]|];
      [by apply Hgo|by apply Hgo| |apply Hstop].
    destruct (py_int_base 16 hex); [apply Hstop|by apply Hgo].
  - destruct (result_of data) as [[|l|hex]|];
      [by apply Hgo|by apply Hgo| |by apply Hgo].
    destruct (py_int_base 16 hex); [apply Hstop|by apply Hgo].
Qed.

Lemma rs_fetch_loop_facts fuel self w target amax from qc ce all first :
  amax <= target + 1 -> first <= from ->
  ((from - first) mod block_range = 0 \/ target <= from \/ amax <= from) ->
  (Z.to_nat (target - from) < fuel)%nat ->
  exists self' w' r queries,
    fetch_loop lower fuel self w target amax from qc ce all
      = Some (self', w', r) /\
    requests w' = requests w ++ queries /\
    Forall (fun p => window_query first target p /\
                     forall a b key, p.2 = TokenTx a b key -> a < target)
           queries /\
    (forall txs, r = Ok txs ->
       exists raw, txs = all ++ (_convert_to_standard_format lower <$> raw)).
Proof.
  revert self w from qc ce all.
  induction fuel as [|fuel IH]; intros self w from qc ce all Hamax Hfirst
    Hinv Hfuel; [lia|].
  cbn [fetch_loop].
  assert (forall self2 w2 queries2 r2,
    requests w2 = requests w ++ queries2 ->
    Forall (fun p => window_query first target p /\
                     forall a b key, p.2 = TokenTx a b key -> a < target)
           queries2 ->
    (forall txs, r2 = Ok txs ->
       exists raw, txs = all ++ (_convert_to_standard_format lower <$> raw)) ->
    exists self' w' r queries,
      Some (self2, w2, r2) = Some (self', w', r) /\
      requests w' = requests w ++ queries /\
      Forall (fun p => window_query first target p /\
                       forall a b key, p.2 = TokenTx a b key -> a < target)
             queries /\
      (forall txs, r = Ok txs ->
         exists raw, txs = all ++ (_convert_to_standard_format lower <$> raw)))
    as Hstop.
  { intros self2 w2 queries2 r2 H1 H2 H3. by exists self2, w2, r2, queries2. }
  assert (forall txs, Ok all = Ok txs ->
    exists raw, txs = all ++ (_convert_to_standard_format lower <$> raw))
    as Hall.
  { intros txs [= <-]. exists []. by rewrite app_nil_r. }
  destruct (Z.ltb_spec from target) as [Hlt|Hge]; cbn [andb negb].
  2:{ apply (Hstop _ _ []); [by rewrite app_nil_r|constructor|done]. }
  destruct (Z.ltb_spec from amax) as [Hlt2|Hge2]; cbn [negb].
  2:{ apply (Hstop _ _ []); [by rewrite app_nil_r|constructor|done]. }
  destruct (Z.ltb_spec (target + 100000) from) as [Hfar|_].
  { apply (Hstop _ _ []); [by rewrite app_nil_r|constructor|done]. }
  cbv zeta.
  set (to := Z.min (Z.min (from + block_range - 1) target) amax).
  assert ((from - first) mod block_range = 0) as Hmod
    by (destruct Hinv as [H|[H|H]]; [done|lia..]).
  assert (from <= to /\ to <= target /\ to < from + block_range) as Hto.
  { subst to. unfold block_range. lia. }
  destruct (rs_request_with_retries_sends 3 0 self w from to)
    as (more & Hmore & Hkeys & _).
  destruct (request_with_retries lower 3 0 self w from to)
    as [[self1 w1] data]. cbn [fst snd] in Hmore.
  assert (Forall (fun p => window_query first target p /\
                     forall a b key, p.2 = TokenTx a b key -> a < target)
                 more) as Hq.
  { eapply Forall_impl; [exact Hkeys|]. intros p [key Hp]. split.
    - exists from, to, key. repeat split; [done|lia..|done].
    - intros a b key' Hp'. rewrite Hp in Hp'. injection Hp' as <- <- <-. lia. }
  assert (forall self2 w2 qc2 ce2 all2,
    requests w2 = requests w1 ->
    (exists raw2, all2 = all ++ (_convert_to_standard_format lower <$> raw2)) ->
    exists self' w' r queries,
      fetch_loop lower fuel self2 w2 target amax (to + 1) qc2 ce2 all2
        = Some (self', w', r) /\
      requests w' = requests w ++ queries /\
      Forall (fun p => window_query first target p /\
                       forall a b key, p.2 = TokenTx a b key -> a < target)
             queries /\
      (forall txs, r = Ok txs ->
         exists raw, txs = all ++ (_convert_to_standard_format lower <$> raw)))
    as Hgo.
  { intros self2 w2 qc2 ce2 all2 Hw2 (raw2 & ->).
    destruct (IH self2 w2 (to + 1) qc2 ce2
                (all ++ (_convert_to_standard_format lower <$> raw2)))
      as (self' & w' & r & queries & Hrun & Hreqs & Hqs & Hres);
      [done|lia| |lia|].
    { subst to. unfold block_range in *.
      destruct (Z.min_spec (from + 50000 - 1) target) as [[? ->]|[? ->]];
        [|right; lia].
      destruct (Z.min_spec (from + 50000 - 1) amax) as [[? ->]|[? ->]];
        [|right; lia].
      left. replace (from + 50000 - 1 + 1 - first)
        with (from - first + 1 * 50000) by lia.
      by rewrite Z_mod_plus_full. }
    exists self', w', r, (more ++ queries).
    split; [done|]. rewrite Hreqs, Hw2, Hmore, <- app_assoc.
    split; [done|]. split; [by apply Forall_app|].
    intros txs Htxs. destruct (Hres txs Htxs) as (raw & ->).
    exists (raw2 ++ raw). by rewrite fmap_app, app_assoc. }
  assert (exists raw2 : list Tx,
            all = all ++ (_convert_to_standard_format lower <$> raw2))
    as Hsame by (exists []; by rewrite app_nil_r).
  destruct data as [data|].
  2:{ destruct (20 <=? S ce)%nat; by apply Hgo. }
  destruct (is_empty _) eqn:Hempty.
  - destruct ((0 <? target) && (target <=? to)).
    { by apply (Hstop _ _ more). }
    destruct all as [|tx0 all'].
    { destruct (500 <=? S ce)%nat; by apply Hgo. }
    set (all := tx0 :: all') in *.
    assert (forall e : exn, forall txs : list Tx, Raise e = Ok txs ->
      exists raw, txs = all ++ (_convert_to_standard_format lower <$> raw))
      as Hraise by done.
    destruct (50 <? S ce)%nat.
    + destruct (far_ahead all to) as [[|]|ex].
      * by apply (Hstop _ _ more).
      * destruct (500 <=? S ce)%nat; [|by apply Hgo].
        by apply Hgo.
      * by apply (Hstop _ _ more).
    + destruct (500 <=? S ce)%nat; [|by apply Hgo].
      destruct (far_ahead all to) as [[|]|ex].
      * by apply (Hstop _ _ more).
      * by apply Hgo.
      * by apply (Hstop _ _ more).
  - set (converted :=
           match default (Records []) (result_of data) with
           | Records l => _convert_to_standard_format lower <$> l
           | Text _ => []
           | Null => []
           end).
    assert (exists raw2, all ++ converted
              = all ++ (_convert_to_standard_format lower <$> raw2)) as Hconv.
    { subst converted. destruct (default _ _) as [|l|s].
      - by exists [].
      - by exists l.
      - by exists []. }
    destruct (last converted) as [last_tx|]; [|by apply Hgo].
    destruct (py_int _) as [last_block|ex].
    2:{ by apply (Hstop _ _ more). }
    unfold write_progress_file.
    destruct (disk w1 (saves w1)); first [by apply Hgo|by apply (Hstop _ _ more)].
Qed.

End RoutescanWindows.

Lemma convert_dom lower tx :
  dom (_convert_to_standard_format lower tx) = list_to_set standard_keys.
Proof.
  unfold _convert_to_standard_format, standard_keys. cbv zeta.
  rewrite !dom_insert_L, dom_singleton_L. simpl. set_solver.
Qed.

Lemma rs_fetch_all_facts lower self w start_block end_block :
  let head := (RoutescanNet._get_current_block self w).2 in
  let target := RoutescanNet.target_of end_block head in
  let first := RoutescanNet.first_block start_block in
  forall fuel, (Z.to_nat (target - first) < fuel)%nat ->
    exists self' w' r heads queries,
      RoutescanNet.fetch_all_transactions lower fuel self w
        start_block end_block = Some (self', w', r) /\
      requests w' = requests w ++ heads ++ queries /\
      (length heads <= 3)%nat /\
      Forall (fun p => exists key, p.2 = BlockNumber key) heads /\
      Forall (fun p => RoutescanNet.window_query first target p /\
                       forall a b key, p.2 = TokenTx a b key -> a < target)
             queries /\
      (forall txs, r = Ok txs ->
         exists raw, txs = _convert_to_standard_format lower <$> raw).
Proof.
  intros head target first fuel Hfuel. subst head target first.
  unfold RoutescanNet.fetch_all_transactions.
  unfold RoutescanNet._get_current_block in *.
  pose proof (rs_rate_limit_wait_requests self w) as Hwait.
  destruct (RoutescanNet._rate_limit_wait self w) as [self1 w1].
  cbn [snd] in Hwait.
  destruct (rs_block_attempts_sends 3 0 self1 w1)
    as (heads & Hheads & Hall & Hlen).
  destruct (RoutescanNet.block_attempts 3 0 self1 w1) as [w2 found].
  cbn [fst snd] in *.
  set (target := RoutescanNet.target_of end_block (default 42000000 found))
    in *.
  destruct (rs_fetch_loop_facts lower fuel self1 w2 target
              (Z.min 43000000 (target + 1))
              (RoutescanNet.first_block start_block) 0 0 []
              (RoutescanNet.first_block start_block))
    as (self' & w' & r & queries & Hrun & Hreqs & Hqs & Hres);
    [lia|lia| |done|].
  { left. by rewrite Z.sub_diag. }
  exists self', w', r, heads, queries. split; [done|].
  rewrite Hreqs, Hheads, Hwait, <- app_assoc.
  repeat split; try done.
Qed.

(** X19. [fetch_all_transactions] returns or raises (it does not
    loop), after at most three head queries.  Every tokentx query it
    sends is for a window of at most 50000 blocks that starts a
    multiple of 50000 blocks after the first block, lies inside the
    range from the first block to the target block, and starts below
    the target.  So when the distance from the first block to the
    target block is a multiple of 50000, no query covers the target
    block itself. *)
Theorem fetch_all_transactions_windows (lower : string -> string)
    (self : RoutescanNet.Fetcher) (w : World)
    (start_block : Z) (end_block : option Z) :
  let head := (RoutescanNet._get_current_block self w).2 in
  let target := RoutescanNet.target_of end_block head in
  let first := RoutescanNet.first_block start_block in
  exists fuel0, forall fuel, (fuel0 <= fuel)%nat ->
    exists self' w' r heads queries,
      RoutescanNet.fetch_all_transactions lower fuel self w
        start_block end_block = Some (self', w', r) /\
      requests w' = requests w ++ heads ++ queries /\
      (length heads <= 3)%nat /\
      Forall (fun p => exists key, p.2 = BlockNumber key) heads /\
      Forall (RoutescanNet.window_query first target) queries /\
      ((target - first) mod RoutescanNet.block_range = 0 ->
       Forall (fun p => forall a b key, p.2 = TokenTx a b key -> b < target)
              queries).
Proof.
  intros head target first.
  exists (S (Z.to_nat (target - first))). intros fuel Hfuel.
  destruct (rs_fetch_all_facts lower self w start_block end_block fuel)
    as (self' & w' & r & heads & queries & Hrun & Hreqs & Hlen & Hheads
        & Hqs & _).
  { fold head target first. lia. }
  fold head target first in Hqs.
  exists self', w', r, heads, queries.
  split; [done|]. split; [done|]. split; [done|]. split; [done|]. split.
  { eapply Forall_impl; [exact Hqs|]. by intros p [? _]. }
  intros Hmod. eapply Forall_impl; [exact Hqs|].
  intros p [(a & b & key & Hp & Hfirst & Hab & Hb & Hwide & Ha) Hlt].
  intros a' b' key' Hp'. rewrite Hp in Hp'. injection Hp' as <- <- <-.
  specialize (Hlt a b key Hp).
  unfold RoutescanNet.block_range in *.
  assert ((target - a) mod 50000 = 0) as Hdist.
  { replace (target - a) with ((target - first) - (a - first)) by lia.
    rewrite Zminus_mod, Hmod, Ha. reflexivity. }
  apply Z.mod_divide in Hdist as [k Hk]; [|lia]. nia.
Qed.

(** X20. What [fetch_all_transactions] returns is in the standard
    format: every record it returns is the conversion of a record and
    has exactly the ten standard keys. *)
Theorem fetch_all_transactions_standard (lower : string -> string)
    (self : RoutescanNet.Fetcher) (w : World)
    (start_block : Z) (end_block : option Z) :
  exists fuel0, forall fuel, (fuel0 <= fuel)%nat ->
    exists self' w' r,
      RoutescanNet.fetch_all_transactions lower fuel self w
        start_block end_block = Some (self', w', r) /\
      forall txs, r = Ok txs ->
        (exists raw, txs = _convert_to_standard_format lower <$> raw) /\
        Forall (fun tx => dom tx = list_to_set standard_keys) txs.
Proof.
  pose proof (rs_fetch_all_facts lower self w start_block end_block) as H.
  cbv zeta in H.
  eexists (S _). intros fuel Hfuel.
  destruct (H fuel ltac:(exact Hfuel))
    as (self' & w' & r & heads & queries & Hrun & _ & _ & _ & _ & Hres).
  exists self', w', r. split; [done|]. intros txs Htxs.
  destruct (Hres txs Htxs) as (raw & ->). split; [by exists raw|].
  apply Forall_fmap, Forall_forall. intros tx _. apply convert_dom.
Qed.

(** A run in which the target lies a whole window past the start: the
    one query ends a block short of it. *)
Example target_block_not_queried :
  (fun x => x.1.2.(requests).*2) <$>
    RoutescanNet.fetch_all_transactions ascii_lower 5
      {| RoutescanNet.api_keys := API_KEYS;
         RoutescanNet.current_key_index := 0;
         RoutescanNet.api_key := "rs_65f982566a2ca518dfcd4c4e";
         RoutescanNet.last_request_time := 0;
         RoutescanNet.consecutive_rate_limits := 0 |}
      fresh_world 1 (Some 50001)
  = Some [BlockNumber "rs_65f982566a2ca518dfcd4c4e";
          TokenTx 1 50000 "rs_65f982566a2ca518dfcd4c4e"].
Proof. vm_compute. reflexivity. Qed.
